(** * chainrocks: the undo engine of [include/chainbase/chainrocks.hpp]

    A shallow embedding of the [index] class (its undo stack, the three
    mutation hooks, the session handle) and of the fan-out performed by
    [rocksdb_database], followed by the properties of the undo engine. *)

From Stdlib Require Import ZArith String.
From stdpp Require Import gmap list sorting pretty.

Local Open Scope Z_scope.

(** ** Machine integers *)

Definition uint64_max : Z := 18446744073709551615.
Definition int64_max : Z := 9223372036854775807.
Definition int64_min : Z := -9223372036854775808.

(** [uint64_t] arithmetic wraps around. *)
Definition wrap64 (z : Z) : Z := z mod (uint64_max + 1).

Definition is_int64 (z : Z) : Prop := int64_min ≤ z ≤ int64_max.

(** ** Records

    The stored object: a byte vector that carries its 64-bit [id]. *)

Record value := Value { id : Z; bytes : list Byte.byte }.

#[global] Instance byte_eq_dec : EqDecision Byte.byte := Byte.byte_eq_dec.

#[global] Instance value_eq_dec : EqDecision value.
Proof. solve_decision. Defined.

Definition set_id (i : Z) (v : value) : value := Value i (bytes v).

(** ** Outcomes of a member function

    A call either returns ([Done]), leaves through an exception ([Thrown],
    with the object as it was at the [throw]), ends the process
    ([Aborted]: [std::abort] or a failed [assert]), or has no defined
    behaviour ([Undefined]: an end iterator is dereferenced, a signed
    counter overflows, a reference to a foreign object is handed in). *)

Inductive exn :=
  | logic_error (msg : string)
  | out_of_range (msg : string).

Inductive outcome (S R : Type) :=
  | Done (r : R) (s : S)
  | Thrown (e : exn) (s : S)
  | Aborted
  | Undefined.
Arguments Done {S R} r s.
Arguments Thrown {S R} e s.
Arguments Aborted {S R}.
Arguments Undefined {S R}.

Definition M (S R : Type) : Type := S → outcome S R.

Definition ret {S R} (r : R) : M S R := λ s, Done r s.

Definition bind {S A B} (m : M S A) (k : A → M S B) : M S B :=
  λ s, match m s with
       | Done a s' => k a s'
       | Thrown e s' => Thrown e s'
       | Aborted => Aborted
       | Undefined => Undefined
       end.

Notation "'let!' x ':=' m 'in' k" := (bind m (λ x, k))
  (at level 10, x name, m at level 100, k at level 200).
Notation "'run!' m 'in' k" := (bind m (λ _, k))
  (at level 10, m at level 100, k at level 200).

Definition update {S} (f : S → S) : M S unit := λ s, Done tt (f s).

(** A range-based [for] loop. *)
Fixpoint for_each {S A} (l : list A) (body : A → M S unit) : M S unit :=
  match l with
  | [] => ret tt
  | x :: l' => run! body x in for_each l' body
  end.

(** ** Ordered containers

    [std::map] and [std::set] with [std::less<uint64_t>] are walked in
    increasing key order. *)

Definition key_le {V} (a b : Z * V) : Prop := a.1 ≤ b.1.

#[global] Instance key_le_dec {V} : RelDecision (@key_le V).
Proof. intros a b. unfold key_le. apply _. Defined.

Definition items {V} (m : gmap Z V) : list (Z * V) :=
  merge_sort key_le (map_to_list m).

Definition members (s : gset Z) : list Z :=
  merge_sort Z.le (elements s).

(** [std::map::emplace]: nothing happens when the key is taken. *)
Definition map_emplace {V} (k : Z) (v : V) (m : gmap Z V) : gmap Z V :=
  match m !! k with
  | Some _ => m
  | None => <[k := v]> m
  end.

(** ** The record container [_indices]

    Modelled from the spec: the container type behind [_indices] (the
    header declares the member as a bare integer and includes no container
    for it).  Following the spec's data model it is the mapping [live] from
    id to record, unique on the id: an insertion under a taken id is
    refused, [modify] re-keys the element and drops it when the new key
    collides, [find] yields the end iterator for an absent id. *)

Definition container_emplace (v : value) (c : gmap Z value) : bool * gmap Z value :=
  match c !! id v with
  | Some _ => (false, c)
  | None => (true, <[id v := v]> c)
  end.

Definition container_modify (k : Z) (m : value → value) (c : gmap Z value)
  : option (bool * gmap Z value) :=
  match c !! k with
  | None => None
  | Some v =>
      let v' := m v in
      if decide (id v' = k) then Some (true, <[k := v']> c)
      else match c !! id v' with
           | Some _ => Some (false, delete k c)
           | None => Some (true, <[id v' := v']> (delete k c))
           end
  end.

Definition container_erase (k : Z) (c : gmap Z value) : option (gmap Z value) :=
  match c !! k with
  | None => None
  | Some _ => Some (delete k c)
  end.

(** [iterator_to(obj)] is only defined for a reference to an element. *)
Definition iterator_to (obj : value) (c : gmap Z value) : option Z :=
  if decide (c !! id obj = Some obj) then Some (id obj) else None.

(** ** [undo_state] and [index] *)

Record undo_state := UndoState {
  old_values : gmap Z value;
  removed_values : gmap Z value;
  new_ids : gset Z;
  old_next_id : Z;
  revision : Z
}.

Definition empty_undo_state : undo_state := UndoState ∅ ∅ ∅ 0 0.

Record index := Index {
  _stack : list undo_state;   (* front of the deque first *)
  _indices : gmap Z value;
  _next_id : Z;
  _revision : Z
}.

(** [index()] *)
Definition index_init : index := Index [] ∅ 0 0.

Definition set_stack (st : list undo_state) (s : index) : index :=
  Index st (_indices s) (_next_id s) (_revision s).
Definition set_indices (c : gmap Z value) (s : index) : index :=
  Index (_stack s) c (_next_id s) (_revision s).
Definition set_next_id (n : Z) (s : index) : index :=
  Index (_stack s) (_indices s) n (_revision s).
Definition set_revision_field (r : Z) (s : index) : index :=
  Index (_stack s) (_indices s) (_next_id s) r.

(** [_stack.back()] together with what is below it. *)
Fixpoint unsnoc {A} (l : list A) : option (list A * A) :=
  match l with
  | [] => None
  | x :: l' =>
      match unsnoc l' with
      | None => Some ([], x)
      | Some (fs, t) => Some (x :: fs, t)
      end
  end.

Definition stuff_to_undo (s : index) : bool :=
  bool_decide (_stack s ≠ []).

Definition set_old_values (m : gmap Z value) (f : undo_state) : undo_state :=
  UndoState m (removed_values f) (new_ids f) (old_next_id f) (revision f).
Definition set_removed_values (m : gmap Z value) (f : undo_state) : undo_state :=
  UndoState (old_values f) m (new_ids f) (old_next_id f) (revision f).
Definition set_new_ids (n : gset Z) (f : undo_state) : undo_state :=
  UndoState (old_values f) (removed_values f) n (old_next_id f) (revision f).

(** ** The mutation hooks *)

(** [index::on_modify] *)
Definition on_modify (v : value) (s : index) : index :=
  match unsnoc (_stack s) with
  | None => s
  | Some (below, head) =>
      if decide (id v ∈ new_ids head) then s
      else match old_values head !! id v with
           | Some _ => s
           | None =>
               set_stack
                 (below ++ [set_old_values (map_emplace (id v) v (old_values head)) head]) s
           end
  end.

(** [index::on_remove] *)
Definition on_remove (v : value) (s : index) : index :=
  match unsnoc (_stack s) with
  | None => s
  | Some (below, head) =>
      if decide (id v ∈ new_ids head) then
        set_stack (below ++ [set_new_ids (new_ids head ∖ {[id v]}) head]) s
      else match old_values head !! id v with
           | Some pre =>
               set_stack
                 (below ++
                  [set_old_values (delete (id v) (old_values head))
                     (set_removed_values
                        (map_emplace (id v) pre (removed_values head)) head)]) s
           | None =>
               match removed_values head !! id v with
               | Some _ => s
               | None =>
                   set_stack
                     (below ++
                      [set_removed_values
                         (map_emplace (id v) v (removed_values head)) head]) s
               end
           end
  end.

(** [index::on_create] *)
Definition on_create (v : value) (s : index) : index :=
  match unsnoc (_stack s) with
  | None => s
  | Some (below, head) =>
      set_stack (below ++ [set_new_ids ({[id v]} ∪ new_ids head) head]) s
  end.

(** ** The mutators *)

Definition default_value : value := Value 0 [].

(** [index::emplace]: the id is assigned first, then the caller's
    constructor runs on the record. *)
Definition emplace (c : value → value) : M index value := λ s,
  let new_id := _next_id s in
  let v := c (set_id new_id default_value) in
  match container_emplace v (_indices s) with
  | (false, _) =>
      Thrown (logic_error
        "could not insert object, most likely a uniqueness constraint was violated") s
  | (true, live') =>
      Done v (on_create v (set_next_id (wrap64 (new_id + 1)) (set_indices live' s)))
  end.

(** [index::modify] *)
Definition modify (obj : value) (m : value → value) : M index unit := λ s,
  let s1 := on_modify obj s in
  match iterator_to obj (_indices s1) with
  | None => Undefined
  | Some k =>
      match container_modify k m (_indices s1) with
      | None => Undefined
      | Some (true, live') => Done tt (set_indices live' s1)
      | Some (false, _) => Aborted
      end
  end.

(** [index::remove] *)
Definition remove (obj : value) : M index unit := λ s,
  let s1 := on_remove obj s in
  match iterator_to obj (_indices s1) with
  | None => Undefined
  | Some k =>
      match container_erase k (_indices s1) with
      | None => Undefined
      | Some live' => Done tt (set_indices live' s1)
      end
  end.

(** [index::find] *)
Definition find (key : Z) (s : index) : option value := _indices s !! key.

(** [index::remove_object] *)
Definition remove_object (i : Z) : M index unit := λ s,
  match find (wrap64 i) s with
  | None => Thrown (out_of_range (pretty i)) s
  | Some val => remove val s
  end.

(** ** Sessions and the undo stack *)

(** [index::session]: [_index] is the address of the index the handle
    refers to, [_apply] the flag that arms its destructor. *)
Record session := Session {
  _index : nat;
  _apply : bool;
  s_revision : Z
}.

(** The private constructor [session(index&, int64_t)]. *)
Definition new_session (idx : nat) (rev : Z) : session :=
  Session idx (if decide (rev = -1) then false else true) rev.

(** [++_revision] and [--_revision] on the signed counter. *)
Definition increment_revision : M index Z := λ s,
  if decide (_revision s = int64_max) then Undefined
  else Done (_revision s + 1) (set_revision_field (_revision s + 1) s).

Definition decrement_revision : M index unit := λ s,
  if decide (_revision s = int64_min) then Undefined
  else Done tt (set_revision_field (_revision s - 1) s).

(** [index::start_undo_session]; [this] is the address of the index. *)
Definition start_undo_session (this : nat) (enabled : bool) : M index session :=
  if enabled then
    let! rev := increment_revision in
    run! update (λ s,
      set_stack (_stack s ++ [UndoState ∅ ∅ ∅ (_next_id s) rev]) s) in
    ret (new_session this rev)
  else ret (new_session this (-1)).

(** The three loops of [index::undo]. *)
Definition erase_new (i : Z) : M index unit := λ s,
  match container_erase i (_indices s) with
  | None => Undefined
  | Some live' => Done tt (set_indices live' s)
  end.

Definition restore_old (item : Z * value) : M index unit := λ s,
  match container_modify (id item.2) (λ _, item.2) (_indices s) with
  | None => Undefined
  | Some (true, live') => Done tt (set_indices live' s)
  | Some (false, _) => Aborted
  end.

Definition reinsert_removed (item : Z * value) : M index unit := λ s,
  match container_emplace item.2 (_indices s) with
  | (true, live') => Done tt (set_indices live' s)
  | (false, _) => Aborted
  end.

(** [index::undo] *)
Definition undo : M index unit := λ s,
  match unsnoc (_stack s) with
  | None => Done tt s
  | Some (below, head) =>
      (run! for_each (members (new_ids head)) erase_new in
       run! update (set_next_id (old_next_id head)) in
       run! for_each (items (old_values head)) restore_old in
       run! for_each (items (removed_values head)) reinsert_removed in
       run! update (set_stack below) in
       decrement_revision) s
  end.

(** The three loops of [index::squash], acting on [prev_state]. *)
Definition squash_old (item : Z * value) : M undo_state unit := λ prev,
  if decide (id item.2 ∈ new_ids prev) then Done tt prev
  else match old_values prev !! id item.2 with
       | Some _ => Done tt prev
       | None =>
           match removed_values prev !! id item.2 with
           | Some _ => Aborted
           | None =>
               Done tt (set_old_values (map_emplace item.1 item.2 (old_values prev)) prev)
           end
       end.

Definition squash_new (i : Z) : M undo_state unit :=
  update (λ prev, set_new_ids ({[i]} ∪ new_ids prev) prev).

Definition squash_removed (obj : Z * value) : M undo_state unit := λ prev,
  if decide (id obj.2 ∈ new_ids prev) then
    Done tt (set_new_ids (new_ids prev ∖ {[id obj.2]}) prev)
  else match old_values prev !! id obj.2 with
       | Some pre =>
           Done tt (set_old_values (delete (id obj.2) (old_values prev))
                      (set_removed_values
                         (map_emplace (id obj.2) pre (removed_values prev)) prev))
       | None =>
           match removed_values prev !! id obj.2 with
           | Some _ => Aborted
           | None =>
               Done tt (set_removed_values
                          (map_emplace obj.1 obj.2 (removed_values prev)) prev)
           end
       end.

Definition squash_frames (state : undo_state) : M undo_state unit :=
  run! for_each (items (old_values state)) squash_old in
  run! for_each (members (new_ids state)) squash_new in
  for_each (items (removed_values state)) squash_removed.

(** [index::squash] *)
Definition squash : M index unit := λ s,
  match _stack s with
  | [] => Done tt s
  | [_] => decrement_revision (set_stack [] s)
  | _ =>
      match unsnoc (_stack s) with
      | None => Done tt s
      | Some (rest, state) =>
          match unsnoc rest with
          | None => Done tt s
          | Some (below, prev_state) =>
              match squash_frames state prev_state with
              | Done _ prev' => decrement_revision (set_stack (below ++ [prev']) s)
              | Thrown e _ => Thrown e s
              | Aborted => Aborted
              | Undefined => Undefined
              end
          end
      end
  end.

(** [index::commit] *)
Fixpoint commit_frames (r : Z) (st : list undo_state) : list undo_state :=
  match st with
  | [] => []
  | f :: st' => if decide (revision f ≤ r) then commit_frames r st' else st
  end.

Definition commit (r : Z) : M index unit :=
  update (λ s, set_stack (commit_frames r (_stack s)) s).

(** [index::undo_all]: every round of the loop pops one frame. *)
Fixpoint undo_rounds (n : nat) : M index unit :=
  match n with
  | O => ret tt
  | S n' => λ s, if stuff_to_undo s then (run! undo in undo_rounds n') s else Done tt s
  end.

Definition undo_all : M index unit := λ s, undo_rounds (length (_stack s)) s.

(** [static_cast<int64_t>] of a [uint64_t]. *)
Definition to_int64 (r : Z) : Z :=
  if decide (r ≤ int64_max) then r else r - (uint64_max + 1).

(** [index::set_revision] *)
Definition set_revision (r : Z) : M index unit := λ s,
  if decide (length (_stack s) ≠ 0%nat) then
    Thrown (logic_error "cannot set revision while there is an existing undo stack") s
  else if decide (r > int64_max) then
    Thrown (logic_error "revision to set is too high") s
  else Done tt (set_revision_field (to_int64 r) s).

(** The spec's names for the two failures of [set_revision]. *)
Definition StackNotEmpty : exn :=
  logic_error "cannot set revision while there is an existing undo stack".
Definition RevisionOutOfRange : exn :=
  logic_error "revision to set is too high".


(** [index::revision] *)
Definition index_revision (s : index) : Z := _revision s.

(** ** Frame predicates *)

(** Every entry of a pre-image map sits under the id it carries. *)
Definition well_keyed (m : gmap Z value) : Prop :=
  map_Forall (λ k v, id v = k) m.

(** The three collections of a frame are pairwise disjoint on id. *)
Definition frame_disjoint (f : undo_state) : Prop :=
  dom (old_values f) ## dom (removed_values f) ∧
  dom (old_values f) ## new_ids f ∧
  dom (removed_values f) ## new_ids f.

#[global] Instance well_keyed_dec m : Decision (well_keyed m).
Proof. unfold well_keyed. apply _. Defined.

#[global] Instance frame_disjoint_dec f : Decision (frame_disjoint f).
Proof. unfold frame_disjoint. apply _. Defined.

(** ** What [undo] computes

    The container after the three loops of [undo] ran for frame [f] on the
    container [live]: the ids created in the frame are gone, the modified
    records are back to their pre-images, the removed ones are back. *)
Definition undo_live (live : gmap Z value) (f : undo_state) : gmap Z value :=
  removed_values f ∪ (old_values f ∪ filter (λ kv, kv.1 ∉ new_ids f) live).

(** ** What [squash] computes

    [old_values] of the lower frame [P] once the first loop of [squash] has
    gone through the top frame [T]: the pre-image of [P] wins, a pre-image
    of [T] is dropped for a record created in [P]. *)
Definition old_after_first_loop (P T : undo_state) (j : Z) : option value :=
  match old_values P !! j with
  | Some x => Some x
  | None => if decide (j ∈ new_ids P) then None else old_values T !! j
  end.

(** [P'] is the lower frame [P] with the top frame [T] folded in, id by id. *)
Definition squashed (P T P' : undo_state) : Prop :=
  old_next_id P' = old_next_id P ∧
  revision P' = revision P ∧
  (∀ j, j ∈ new_ids P' ↔
        (j ∈ new_ids P ∨ j ∈ new_ids T) ∧ removed_values T !! j = None) ∧
  (∀ j, old_values P' !! j =
        if decide (is_Some (removed_values T !! j) ∧ (j ∉ new_ids P) ∧ (j ∉ new_ids T))
        then None else old_after_first_loop P T j) ∧
  (∀ j, removed_values P' !! j =
        match removed_values P !! j with
        | Some w => Some w
        | None =>
            if decide (is_Some (removed_values T !! j) ∧ (j ∉ new_ids P) ∧ (j ∉ new_ids T))
            then match old_after_first_loop P T j with
                 | Some x => Some x
                 | None => removed_values T !! j
                 end
            else None
        end).

(** ** Callers

    The mutations a caller performs while a session is open.  An exception
    of [emplace] is caught by the caller, who goes on with the index as the
    [throw] left it; an abort or an undefined call ends the run. *)

Inductive mutation :=
  | Emplace (c : value → value)
  | Modify (obj : value) (m : value → value)
  | Remove (obj : value).

Definition mutate (o : mutation) : M index unit :=
  match o with
  | Emplace c => let! _ := emplace c in ret tt
  | Modify obj m => modify obj m
  | Remove obj => remove obj
  end.

Fixpoint run_mutations (l : list mutation) (s : index) : option index :=
  match l with
  | [] => Some s
  | o :: l' =>
      match mutate o s with
      | Done _ s' | Thrown _ s' => run_mutations l' s'
      | Aborted | Undefined => None
      end
  end.

(** The modifier handed to [modify] leaves the id of the record alone. *)
Definition keeps_id (o : mutation) : Prop :=
  match o with
  | Modify obj m => id (m obj) = id obj
  | _ => True
  end.

(** The index [s] is the index [s0] plus one open frame that accounts for
    every difference between the two containers. *)
Definition tracks (s0 s : index) : Prop :=
  ∃ head,
    _stack s = _stack s0 ++ [head] ∧
    _revision s = _revision s0 + 1 ∧
    old_next_id head = _next_id s0 ∧
    (∀ i, i ∈ new_ids head →
       is_Some (_indices s !! i) ∧
       (_indices s0 !! i = None ∨ is_Some (removed_values head !! i))) ∧
    (∀ k v, old_values head !! k = Some v →
       id v = k ∧ _indices s0 !! k = Some v ∧
       is_Some (_indices s !! k) ∧ k ∉ new_ids head) ∧
    (∀ k v, removed_values head !! k = Some v →
       id v = k ∧ _indices s0 !! k = Some v ∧
       old_values head !! k = None ∧
       (_indices s !! k = None ∨ k ∈ new_ids head)) ∧
    (∀ k, k ∉ new_ids head → old_values head !! k = None →
       removed_values head !! k = None →
       _indices s !! k = _indices s0 !! k).

(** ** Public operations and the states they reach *)

Inductive call :=
  | Mutation (o : mutation)
  | RemoveObject (i : Z)
  | StartUndoSession (enabled : bool)
  | Undo
  | Squash
  | Commit (r : Z)
  | UndoAll
  | SetRevision (r : Z).

Definition perform (c : call) : M index unit :=
  match c with
  | Mutation o => mutate o
  | RemoveObject i => remove_object i
  | StartUndoSession enabled => let! _ := start_undo_session 0 enabled in ret tt
  | Undo => undo
  | Squash => squash
  | Commit r => commit r
  | UndoAll => undo_all
  | SetRevision r => set_revision r
  end.

(** A caller's run of public operations; exceptions are caught. *)
Fixpoint run_calls (l : list call) (s : index) : option index :=
  match l with
  | [] => Some s
  | c :: l' =>
      match perform c s with
      | Done _ s' | Thrown _ s' => run_calls l' s'
      | Aborted | Undefined => None
      end
  end.

(** What the callbacks of a call owe the index (spec, section 3: ids are
    handed out by the counter and never reused): the constructor keeps the
    id it was given, the id counter is not exhausted, the modifier keeps
    the id of its record. *)
Definition within_contract (s : index) (c : call) : Prop :=
  match c with
  | Mutation (Emplace ctor) =>
      id (ctor (set_id (_next_id s) default_value)) = _next_id s ∧
      _next_id s < uint64_max
  | Mutation o => keeps_id o
  | _ => True
  end.

(** The call came back, by a return or by an exception, with the index [s']. *)
Definition comes_back {R} (o : outcome index R) (s' : index) : Prop :=
  match o with
  | Done _ s | Thrown _ s => s = s'
  | Aborted | Undefined => False
  end.

Inductive reachable : index → Prop :=
  | reachable_init : reachable index_init
  | reachable_call s c s' :
      reachable s → within_contract s c → comes_back (perform c s) s' →
      reachable s'.

(** The ids of the container once frame [f] is undone. *)
Definition undo_dom (D : gset Z) (f : undo_state) : gset Z :=
  (D ∖ new_ids f) ∪ dom (removed_values f).

(** Frame [f] fits a container with ids [D]. *)
Definition frame_ok (D : gset Z) (f : undo_state) : Prop :=
  well_keyed (old_values f) ∧
  well_keyed (removed_values f) ∧
  0 ≤ old_next_id f ∧
  (∀ i, i ∈ new_ids f → i ∈ D ∧ old_next_id f ≤ i) ∧
  (∀ i, i ∈ D → old_next_id f ≤ i → i ∈ new_ids f) ∧
  (∀ k, is_Some (old_values f !! k) → k ∈ D ∧ k < old_next_id f) ∧
  (∀ k, is_Some (removed_values f !! k) → (k ∉ D) ∧ k < old_next_id f).

(** The frames, top first, fit the container with ids [D] and id counter
    [b], each one the container that undoing the frames above it gives. *)
Fixpoint frames_ok (D : gset Z) (b : Z) (frames : list undo_state) : Prop :=
  match frames with
  | [] => True
  | f :: below =>
      old_next_id f ≤ b ∧ frame_ok D f ∧
      frames_ok (undo_dom D f) (old_next_id f) below
  end.

Definition index_ok (s : index) : Prop :=
  0 ≤ _next_id s ≤ uint64_max ∧
  (∀ i, i ∈ dom (_indices s) → i < _next_id s) ∧
  frames_ok (dom (_indices s)) (_next_id s) (reverse (_stack s)).

(** ** Objects by address

    Session handles refer to their index by reference and are compared by
    address in the move assignment; indices are shared between a database
    and the handles.  Both kinds of object live in a store. *)

Record world := World {
  w_indices : gmap nat index;
  w_sessions : gmap nat session
}.

(** A member function of the index at address [i]. *)
Definition on_index {R} (i : nat) (m : M index R) : M world R := λ w,
  match w_indices w !! i with
  | None => Undefined
  | Some s =>
      match m s with
      | Done r s' => Done r (World (<[i := s']> (w_indices w)) (w_sessions w))
      | Thrown e s' => Thrown e (World (<[i := s']> (w_indices w)) (w_sessions w))
      | Aborted => Aborted
      | Undefined => Undefined
      end
  end.

Definition set_apply (b : bool) (h : session) : session :=
  Session (_index h) b (s_revision h).

Definition store_session (a : nat) (h : session) : M world unit :=
  update (λ w, World (w_indices w) (<[a := h]> (w_sessions w))).

(** [index::session::push] *)
Definition session_push (this : nat) : M world unit := λ w,
  match w_sessions w !! this with
  | None => Undefined
  | Some h => store_session this (set_apply false h) w
  end.

(** The body shared by [session::squash] and [session::undo]: act on the
    index if armed, then disarm. *)
Definition session_act (act : M index unit) (this : nat) : M world unit := λ w,
  match w_sessions w !! this with
  | None => Undefined
  | Some h =>
      (run! (if _apply h then on_index (_index h) act else ret tt) in
       store_session this (set_apply false h)) w
  end.

(** [index::session::squash] and [index::session::undo] *)
Definition session_squash (this : nat) : M world unit := session_act squash this.
Definition session_undo (this : nat) : M world unit := session_act undo this.

(** [index::session::~session] *)
Definition session_destroy (this : nat) : M world unit := λ w,
  match w_sessions w !! this with
  | None => Undefined
  | Some h =>
      (run! (if _apply h then on_index (_index h) undo else ret tt) in
       update (λ w, World (w_indices w) (delete this (w_sessions w)))) w
  end.

(** [index::session::operator=(session&& mv)] *)
Definition session_move_assign (this mv : nat) : M world unit := λ w,
  if decide (this = mv) then Done tt w
  else
    match w_sessions w !! this, w_sessions w !! mv with
    | Some target, Some source =>
        (run! (if _apply target then on_index (_index target) undo else ret tt) in
         run! store_session this (set_apply (_apply source) target) in
         store_session mv (set_apply false source)) w
    | _, _ => Undefined
    end.

(** ** The database *)

Definition index_session : Type := session.

Module rocksdb_database.

(** [rocksdb_database::session] *)
Record session := Session {
  _index_sessions : list index_session;
  _revision : Z
}.

(** [session(std::vector<std::unique_ptr<abstract_session>>&& sesh)] *)
Definition make_session (sesh : list index_session) : session :=
  Session sesh (match sesh with
                | first :: _ => s_revision first
                | [] => -1
                end).

(** The loop of [start_undo_session] over [_index_list]. *)
Fixpoint open_sub_sessions (index_list : list nat) (enabled : bool)
  : M world (list index_session) :=
  match index_list with
  | [] => ret []
  | item :: rest =>
      let! sesh := on_index item (start_undo_session item enabled) in
      let! subs := open_sub_sessions rest enabled in
      ret (sesh :: subs)
  end.

(** [rocksdb_database::start_undo_session] *)
Definition start_undo_session (index_list : list nat) (enabled : bool)
  : M world session :=
  if enabled then
    let! subs := open_sub_sessions index_list enabled in
    ret (make_session subs)
  else ret (Session [] (-1)).

End rocksdb_database.

(** The fan-out as the spec words it: whatever [enabled] is, the composite
    session holds one sub-session per registered index. *)
Definition one_sub_session_per_index (index_list : list nat) (enabled : bool)
    (w : world) : Prop :=
  ∃ h w',
    rocksdb_database.start_undo_session index_list enabled w = Done h w' ∧
    length (rocksdb_database._index_sessions h) = length index_list.

(** ** Sample data

    A record, a byte-setting callback and a few small indices on which the
    statements below are exercised. *)

Definition rec_a : value := Value 0 [Byte.x61].
Definition set_bytes (b : list Byte.byte) (v : value) : value := Value (id v) b.

(** One record, one open and still empty frame. *)
Definition sample_one_frame : index :=
  Index [UndoState ∅ ∅ ∅ 1 1] {[0 := rec_a]} 1 1.

(** The same index after the record was modified inside the frame. *)
Definition rec_b : value := set_bytes [Byte.x62] rec_a.
Definition sample_modified : index :=
  Index [UndoState {[0 := rec_a]} ∅ ∅ 1 1] {[0 := rec_b]} 1 1.

(** One record, no frame. *)
Definition sample_live : index := Index [] {[0 := rec_a]} 1 0.

(** One record, created inside the open frame. *)
Definition sample_created : index :=
  Index [UndoState ∅ ∅ {[0]} 0 1] {[0 := rec_a]} 1 1.

(** A session's worth of mutations on [sample_live]: the record is
    modified, a second one is created, the first one is removed. *)
Definition sample_mutations : list mutation :=
  [Modify rec_a (set_bytes [Byte.x62]); Emplace (set_bytes [Byte.x63]); Remove rec_b].

(** Two frames: the record was modified in the lower one and removed in
    the upper one. *)
Definition sample_two_frames : index :=
  Index [UndoState {[0 := rec_a]} ∅ ∅ 1 1; UndoState ∅ {[0 := rec_b]} ∅ 1 2] ∅ 1 2.

(** An index with two frames, reached by opening a session, creating a
    record, opening a second session and removing the record. *)
Definition sample_reached : index :=
  Index [UndoState ∅ ∅ {[0]} 0 1; UndoState ∅ {[0 := rec_a]} ∅ 1 2] ∅ 1 2.

(** A store with [sample_one_frame] at address 0 and two handles on it:
    an armed one at address 0, a disarmed one at address 1. *)
Definition sample_world : world :=
  World {[0%nat := sample_one_frame]}
        {[0%nat := Session 0 true 1; 1%nat := Session 0 false (-1)]}.

(** ** Revisions along the stack *)

(** [index::undo_stack_revision_range]; the subtraction on the stamp of the
    front frame is signed. *)
Definition undo_stack_revision_range : M index (Z * Z) := λ s,
  match _stack s, unsnoc (_stack s) with
  | front :: _, Some (_, back) =>
      if decide (revision front = int64_min) then Undefined
      else Done (revision front - 1, revision back) s
  | _, _ => Done (_revision s, _revision s) s
  end.

(** The revisions stamped on the frames, bottom first. *)
Definition stamps (s : index) : list Z := revision <$> _stack s.

(** The stamps are the last [n] revisions up to the revision of the index,
    [n] being the number of frames, and the revision is a signed 64-bit
    number that is at least [n]. *)
Definition revisions_ok (s : index) : Prop :=
  Z.of_nat (length (_stack s)) ≤ _revision s ≤ int64_max ∧
  stamps s = seqZ (_revision s - Z.of_nat (length (_stack s)) + 1)
                  (Z.of_nat (length (_stack s))).

(** The argument of [set_revision] is a [uint64_t]. *)
Definition call_typed (c : call) : Prop :=
  match c with
  | SetRevision r => 0 ≤ r ≤ uint64_max
  | _ => True
  end.

(** A run of typed calls and the index it leaves: two sessions, a record
    created in the first, the first committed. *)
Definition sample_calls : list call :=
  [StartUndoSession true; Mutation (Emplace (set_bytes [Byte.x61]));
   StartUndoSession true; Commit 1].
Definition sample_committed : index :=
  Index [UndoState ∅ ∅ ∅ 1 2] {[0 := rec_a]} 1 2.

(** ** Ids *)

(** Every id that frame [f] mentions is below [b]. *)
Definition ids_below (b : Z) (f : undo_state) : Prop :=
  (∀ i, i ∈ new_ids f → i < b) ∧
  (∀ k, is_Some (old_values f !! k) → k < b) ∧
  (∀ k, is_Some (removed_values f !! k) → k < b).

(** The index of [sample_reached] just before the record is removed. *)
Definition sample_before_remove : index :=
  Index [UndoState ∅ ∅ {[0]} 0 1; UndoState ∅ ∅ ∅ 1 2] {[0 := rec_a]} 1 2.

(** ** More of the session handle *)

(** [index::session::session(session&& mv)]: the new handle, at address
    [this], takes over the index and the armed flag of [mv]; its revision
    is not in the initialiser list and takes its default, 0. *)
Definition session_move_construct (this mv : nat) : M world unit := λ w,
  match w_sessions w !! mv with
  | None => Undefined
  | Some source =>
      (run! store_session this (Session (_index source) (_apply source) 0) in
       store_session mv (set_apply false source)) w
  end.

(** A caller that keeps the handle of [start_undo_session] at address [a]. *)
Definition open_session (a i : nat) (enabled : bool) : M world unit :=
  let! h := on_index i (start_undo_session i enabled) in
  store_session a h.

(** The member functions of a handle that may act on its index. *)
Inductive handle_op := HPush | HSquash | HUndo | HDestroy.

Definition session_op (o : handle_op) : nat → M world unit :=
  match o with
  | HPush => session_push
  | HSquash => session_squash
  | HUndo => session_undo
  | HDestroy => session_destroy
  end.

(** ** More of the database

    The database holds its indices and the composite session its handles
    through pointers to the interfaces [abstract_index] and
    [abstract_session].  Modelled from the spec: the implementation of
    these interfaces is not in the header, and a call through one of them
    is taken to reach the member function of that name of the [index],
    respectively of its [session] handle. *)

(** What a member function of the composite session does with one of the
    handles it owns: [sesh->undo()], [sesh->squash()].  The handle's own
    flag is not tracked further, the vector being cleared right after the
    loop. *)
Definition sub_session_act (act : M index unit) (sesh : index_session) : M world unit :=
  if _apply sesh then on_index (_index sesh) act else ret tt.

Module db_session.

(** [rocksdb_database::session::push] *)
Definition push (h : rocksdb_database.session) : M world rocksdb_database.session :=
  run! for_each (rocksdb_database._index_sessions h) (λ _, ret tt) in
  ret (rocksdb_database.Session [] (rocksdb_database._revision h)).

(** [rocksdb_database::session::squash] *)
Definition squash (h : rocksdb_database.session) : M world rocksdb_database.session :=
  run! for_each (rocksdb_database._index_sessions h) (sub_session_act squash) in
  ret (rocksdb_database.Session [] (rocksdb_database._revision h)).

(** [rocksdb_database::session::undo], which is also what the destructor
    runs. *)
Definition undo (h : rocksdb_database.session) : M world rocksdb_database.session :=
  run! for_each (rocksdb_database._index_sessions h) (sub_session_act undo) in
  ret (rocksdb_database.Session [] (rocksdb_database._revision h)).

End db_session.

Module db.

(** [rocksdb_database::revision] *)
Definition revision (index_list : list nat) : M world Z := λ w,
  match index_list with
  | [] => Done (-1) w
  | first :: _ =>
      match w_indices w !! first with
      | None => Undefined
      | Some s => Done (index_revision s) w
      end
  end.

(** The member functions that hand one call to every registered index. *)
Definition fan_out (act : M index unit) (index_list : list nat) : M world unit :=
  for_each index_list (λ item, on_index item act).

(** [rocksdb_database::set_revision], [undo], [squash], [commit], [undo_all] *)
Definition set_revision (index_list : list nat) (r : Z) : M world unit :=
  fan_out (set_revision r) index_list.
Definition undo (index_list : list nat) : M world unit := fan_out undo index_list.
Definition squash (index_list : list nat) : M world unit := fan_out squash index_list.
Definition commit (index_list : list nat) (r : Z) : M world unit :=
  fan_out (commit r) index_list.
Definition undo_all (index_list : list nat) : M world unit := fan_out undo_all index_list.

End db.

(** The index [s] with one more frame, empty and stamped with the next
    revision: what [start_undo_session(true)] leaves. *)
Definition opened (s : index) : index :=
  Index (_stack s ++ [UndoState ∅ ∅ ∅ (_next_id s) (_revision s + 1)])
        (_indices s) (_next_id s) (_revision s + 1).

(** The handle [start_undo_session(true)] returns for the index at [item]. *)
Definition sub_session_of (w : world) (item : nat) : index_session :=
  new_session item (from_option _revision 0 (w_indices w !! item) + 1).

(** * Properties *)

(** ** The deque *)

Lemma unsnoc_snoc {A} (l : list A) (x : A) : unsnoc (l ++ [x]) = Some (l, x).
Proof.
  induction l as [|y l IH]; simpl; [done|]. by rewrite IH.
Qed.

Lemma unsnoc_Some {A} (l fs : list A) (t : A) :
  unsnoc l = Some (fs, t) → l = fs ++ [t].
Proof.
  revert fs. induction l as [|y l IH]; intros fs; simpl; [done|].
  destruct (unsnoc l) as [[fs' t']|] eqn:E.
  - intros [= <- <-]. simpl. f_equal. by apply IH.
  - intros [= <- <-]. destruct l as [|z l]; [done|].
    simpl in E. by destruct (unsnoc l) as [[??]|].
Qed.

Lemma unsnoc_None {A} (l : list A) : unsnoc l = None → l = [].
Proof.
  destruct l as [|y l]; [done|]. simpl. by destruct (unsnoc l) as [[??]|].
Qed.

Lemma stack_cases {A} (l : list A) : l = [] ∨ ∃ below head, l = below ++ [head].
Proof.
  destruct (unsnoc l) as [[below head]|] eqn:Hun.
  - right. exists below, head. by apply unsnoc_Some.
  - left. by apply unsnoc_None.
Qed.

(** ** Walking an ordered container *)

Lemma items_perm {V} (m : gmap Z V) : items m ≡ₚ map_to_list m.
Proof. apply merge_sort_Permutation. Qed.

Lemma elem_of_items {V} (m : gmap Z V) k v : (k, v) ∈ items m ↔ m !! k = Some v.
Proof. rewrite items_perm. apply elem_of_map_to_list. Qed.

Lemma NoDup_items_keys {V} (m : gmap Z V) : NoDup (items m).*1.
Proof. rewrite items_perm. apply NoDup_fst_map_to_list. Qed.

Lemma list_to_map_items {V} (m : gmap Z V) : list_to_map (items m) = m.
Proof.
  rewrite <- (list_to_map_to_list m) at 2.
  apply list_to_map_proper; [apply NoDup_items_keys | apply items_perm].
Qed.

Lemma members_perm (s : gset Z) : members s ≡ₚ elements s.
Proof. apply merge_sort_Permutation. Qed.

Lemma elem_of_members (s : gset Z) i : i ∈ members s ↔ i ∈ s.
Proof. rewrite members_perm. apply elem_of_elements. Qed.

Lemma NoDup_members (s : gset Z) : NoDup (members s).
Proof. rewrite members_perm. apply NoDup_elements. Qed.

Lemma list_to_set_members (s : gset Z) : list_to_set (members s) = s.
Proof.
  apply set_eq. intros i. by rewrite elem_of_list_to_set, elem_of_members.
Qed.

Lemma map_emplace_None {V} k (v : V) m : m !! k = None → map_emplace k v m = <[k := v]> m.
Proof. unfold map_emplace. by intros ->. Qed.

(** ** The hooks only touch the stack *)

Lemma on_modify_fields v s :
  _indices (on_modify v s) = _indices s ∧
  _next_id (on_modify v s) = _next_id s ∧
  _revision (on_modify v s) = _revision s.
Proof.
  unfold on_modify. destruct (unsnoc (_stack s)) as [[below head]|]; [|done].
  case_decide; [done|]. by destruct (old_values head !! id v).
Qed.

Lemma on_remove_fields v s :
  _indices (on_remove v s) = _indices s ∧
  _next_id (on_remove v s) = _next_id s ∧
  _revision (on_remove v s) = _revision s.
Proof.
  unfold on_remove. destruct (unsnoc (_stack s)) as [[below head]|]; [|done].
  case_decide; [done|]. destruct (old_values head !! id v); [done|].
  by destruct (removed_values head !! id v).
Qed.

(** ** When the mutators return *)

Lemma modify_Done s obj m :
  _indices s !! id obj = Some obj →
  id (m obj) = id obj →
  modify obj m s =
    Done tt (set_indices (<[id obj := m obj]> (_indices s)) (on_modify obj s)).
Proof.
  intros Hobj Hid. unfold modify, iterator_to, container_modify.
  destruct (on_modify_fields obj s) as (-> & _ & _).
  rewrite decide_True by done. rewrite Hobj. by rewrite decide_True.
Qed.

Lemma remove_Done s obj :
  _indices s !! id obj = Some obj →
  remove obj s = Done tt (set_indices (delete (id obj) (_indices s)) (on_remove obj s)).
Proof.
  intros Hobj. unfold remove, iterator_to, container_erase.
  destruct (on_remove_fields obj s) as (-> & _ & _).
  rewrite decide_True by done. by rewrite Hobj.
Qed.

(** A mutator that returns was handed an element of the container. *)
Lemma modify_inv s obj m s' :
  modify obj m s = Done tt s' → _indices s !! id obj = Some obj.
Proof.
  unfold modify, iterator_to.
  destruct (on_modify_fields obj s) as (-> & _ & _).
  by case_decide.
Qed.

Lemma remove_inv s obj s' :
  remove obj s = Done tt s' → _indices s !! id obj = Some obj.
Proof.
  unfold remove, iterator_to.
  destruct (on_remove_fields obj s) as (-> & _ & _).
  by case_decide.
Qed.

(** ** set_revision *)

(** C7: [set_revision r] throws [StackNotEmpty] when the undo stack holds a
    frame and, on an empty stack, throws [RevisionOutOfRange] when [r] is
    above the largest signed 64-bit number; the index is left as it was in
    both failures.  Otherwise the call returns, the revision reads [r]
    afterwards and nothing else has changed. *)
Theorem set_revision_spec (s : index) (r : Z) :
  (_stack s ≠ [] → set_revision r s = Thrown StackNotEmpty s) ∧
  (_stack s = [] → int64_max < r →
     set_revision r s = Thrown RevisionOutOfRange s) ∧
  (_stack s = [] → r ≤ int64_max →
     ∃ s', set_revision r s = Done tt s' ∧ index_revision s' = r ∧
           _stack s' = [] ∧ _indices s' = _indices s ∧ _next_id s' = _next_id s).
Proof.
  unfold set_revision, StackNotEmpty, RevisionOutOfRange, index_revision, to_int64.
  destruct s as [st live nxt rev]; cbn [_stack _indices _next_id _revision].
  split; [|split].
  - intros Hne. case_decide as Hlen; [done|].
    by destruct st.
  - intros -> Hr. case_decide as Hlen; [by destruct Hlen|].
    case_decide; [done|lia].
  - intros -> Hr. case_decide as Hlen; [by destruct Hlen|].
    case_decide; [lia|]. eexists. split; [done|].
    cbn. by case_decide.
Qed.

Lemma set_revision_spec_witness :
  (set_revision (int64_max + 1) index_init = Thrown RevisionOutOfRange index_init) ∧
  (∃ s', set_revision 7 index_init = Done tt s' ∧ index_revision s' = 7 ∧
         _stack s' = [] ∧ _indices s' = _indices index_init ∧
         _next_id s' = _next_id index_init) ∧
  (set_revision 7 (Index [empty_undo_state] ∅ 0 1)
     = Thrown StackNotEmpty (Index [empty_undo_state] ∅ 0 1)).
Proof.
  split; [|split].
  - apply (set_revision_spec index_init (int64_max + 1)); [reflexivity|].
    reflexivity.
  - apply (set_revision_spec index_init 7); [reflexivity|].
    intros H; discriminate H.
  - apply (set_revision_spec (Index [empty_undo_state] ∅ 0 1) 7).
    intros H; discriminate H.
Defined.

(** ** commit *)

Lemma commit_frames_spec r st :
  ∃ dropped, st = dropped ++ commit_frames r st ∧
    Forall (λ f, revision f ≤ r) dropped ∧
    from_option (λ f, r < revision f) True (head (commit_frames r st)).
Proof.
  induction st as [|f st IH]; simpl.
  - by exists [].
  - case_decide as Hf.
    + destruct IH as (dropped & Heq & Hall & Hhd).
      exists (f :: dropped). split; [simpl; by f_equal|]. split; [by constructor|done].
    + exists []. split; [done|]. split; [constructor|]. simpl. lia.
Qed.

(** C3: [commit r] always returns; it takes away the longest run of frames
    at the bottom of the stack whose stamped revision is at most [r] (the
    frame left at the bottom, if any, has a larger one) and changes neither
    the live records, nor the id counter, nor the frames that stay, nor the
    revision counter of the index. *)
Theorem commit_spec (s : index) (r : Z) :
  ∃ s' dropped,
    commit r s = Done tt s' ∧
    _stack s = dropped ++ _stack s' ∧
    Forall (λ f, revision f ≤ r) dropped ∧
    from_option (λ f, r < revision f) True (head (_stack s')) ∧
    _indices s' = _indices s ∧
    _next_id s' = _next_id s ∧
    index_revision s' = index_revision s.
Proof.
  destruct (commit_frames_spec r (_stack s)) as (dropped & Heq & Hall & Hhd).
  exists (set_stack (commit_frames r (_stack s)) s), dropped.
  repeat split; done.
Qed.

(** ** modify *)

Lemma on_modify_nil v s : _stack s = [] → on_modify v s = s.
Proof. unfold on_modify. by intros ->. Qed.

Lemma on_modify_snoc v s below head :
  _stack s = below ++ [head] →
  on_modify v s =
    if decide (id v ∈ new_ids head ∨ is_Some (old_values head !! id v)) then s
    else set_stack (below ++ [set_old_values (<[id v := v]> (old_values head)) head]) s.
Proof.
  intros Hst. unfold on_modify. rewrite Hst, unsnoc_snoc.
  destruct (decide (id v ∈ new_ids head)) as [Hin|Hin].
  - rewrite decide_True by by left. done.
  - destruct (old_values head !! id v) as [pre|] eqn:Hold.
    + rewrite decide_True by by right. done.
    + rewrite decide_False by (intros [?|[? [=]]]; done).
      by rewrite map_emplace_None.
Qed.

(** Once a record has been through [on_modify], the hook does nothing for
    a record with the same id. *)
Lemma on_modify_again v v' live' s :
  id v' = id v →
  on_modify v' (set_indices live' (on_modify v s)) = set_indices live' (on_modify v s).
Proof.
  intros Hid. destruct (unsnoc (_stack s)) as [[below head]|] eqn:Hun.
  - apply unsnoc_Some in Hun.
    rewrite (on_modify_snoc v s below head Hun).
    case_decide as Hcase.
    + rewrite (on_modify_snoc v' _ below head) by done.
      rewrite Hid. by rewrite decide_True.
    + erewrite on_modify_snoc by (simpl; reflexivity).
      rewrite decide_True; [done|]. right. simpl. rewrite Hid.
      rewrite lookup_insert_eq. by eexists.
  - apply unsnoc_None in Hun. rewrite (on_modify_nil v s Hun).
    by apply on_modify_nil.
Qed.

(** C5: of two [modify] calls on one record inside a frame, only the first
    can store a pre-image.  The first call stores the record as it was under
    its id in the top frame's [old_values] exactly when a frame exists and
    the id is neither in that frame's [new_ids] nor already in its
    [old_values]; the frame's other fields and the frames below stay.  The
    second call leaves the whole undo stack as the first one left it. *)
Theorem modify_twice_first_preimage (s : index) (obj : value) (m1 m2 : value → value) :
  _indices s !! id obj = Some obj →
  id (m1 obj) = id obj →
  id (m2 (m1 obj)) = id obj →
  ∃ s1 s2,
    modify obj m1 s = Done tt s1 ∧
    modify (m1 obj) m2 s1 = Done tt s2 ∧
    _stack s2 = _stack s1 ∧
    (_stack s = [] → _stack s1 = []) ∧
    (∀ below head, _stack s = below ++ [head] →
       _stack s1 =
         if decide (id obj ∈ new_ids head ∨ is_Some (old_values head !! id obj))
         then _stack s
         else below ++ [UndoState (<[id obj := obj]> (old_values head))
                          (removed_values head) (new_ids head)
                          (old_next_id head) (revision head)]).
Proof.
  intros Hobj Hid1 Hid2.
  rewrite (modify_Done s obj m1 Hobj Hid1).
  eexists _, _. split; [done|].
  rewrite modify_Done; cycle 1.
  { simpl. rewrite Hid1. by rewrite lookup_insert_eq. }
  { by rewrite Hid2, Hid1. }
  split; [done|]. rewrite on_modify_again by done. simpl.
  split; [done|]. split.
  - intros Hnil. by rewrite on_modify_nil.
  - intros below head Hst. rewrite (on_modify_snoc obj s below head Hst).
    by case_decide.
Qed.

Lemma modify_twice_first_preimage_witness :
  ∃ s1 s2,
    modify rec_a (set_bytes [Byte.x62]) sample_one_frame = Done tt s1 ∧
    modify (set_bytes [Byte.x62] rec_a) (set_bytes [Byte.x63]) s1 = Done tt s2 ∧
    _stack s1 = [UndoState {[0 := rec_a]} ∅ ∅ 1 1] ∧
    _stack s2 = [UndoState {[0 := rec_a]} ∅ ∅ 1 1].
Proof.
  destruct (modify_twice_first_preimage sample_one_frame rec_a
              (set_bytes [Byte.x62]) (set_bytes [Byte.x63]) eq_refl eq_refl eq_refl)
    as (s1 & s2 & Hfirst & Hsecond & Hsame & _ & Hframe).
  specialize (Hframe [] (UndoState ∅ ∅ ∅ 1 1) eq_refl).
  exists s1, s2. split; [exact Hfirst|]. split; [exact Hsecond|].
  split; [|rewrite Hsame]; rewrite Hframe; by vm_compute.
Defined.

(** ** remove *)

Lemma on_remove_nil v s : _stack s = [] → on_remove v s = s.
Proof. unfold on_remove. by intros ->. Qed.

Lemma on_remove_new v s below head :
  _stack s = below ++ [head] →
  id v ∈ new_ids head →
  on_remove v s = set_stack (below ++ [set_new_ids (new_ids head ∖ {[id v]}) head]) s.
Proof.
  intros Hst Hin. unfold on_remove. rewrite Hst, unsnoc_snoc.
  by rewrite decide_True.
Qed.

Lemma on_remove_old v s below head pre :
  _stack s = below ++ [head] →
  id v ∉ new_ids head →
  old_values head !! id v = Some pre →
  removed_values head !! id v = None →
  on_remove v s =
    set_stack (below ++ [UndoState (delete (id v) (old_values head))
                           (<[id v := pre]> (removed_values head))
                           (new_ids head) (old_next_id head) (revision head)]) s.
Proof.
  intros Hst Hin Hold Hrem. unfold on_remove. rewrite Hst, unsnoc_snoc.
  rewrite decide_False by done. rewrite Hold.
  by rewrite map_emplace_None.
Qed.

Lemma on_remove_removed v s below head :
  _stack s = below ++ [head] →
  id v ∉ new_ids head →
  old_values head !! id v = None →
  is_Some (removed_values head !! id v) →
  on_remove v s = s.
Proof.
  intros Hst Hin Hold [w Hrem]. unfold on_remove. rewrite Hst, unsnoc_snoc.
  rewrite decide_False by done. by rewrite Hold, Hrem.
Qed.

Lemma on_remove_fresh v s below head :
  _stack s = below ++ [head] →
  id v ∉ new_ids head →
  old_values head !! id v = None →
  removed_values head !! id v = None →
  on_remove v s =
    set_stack (below ++ [set_removed_values (<[id v := v]> (removed_values head)) head]) s.
Proof.
  intros Hst Hin Hold Hrem. unfold on_remove. rewrite Hst, unsnoc_snoc.
  rewrite decide_False by done. rewrite Hold, Hrem.
  by rewrite map_emplace_None.
Qed.

Lemma frame_disjoint_old_removed f k :
  frame_disjoint f → is_Some (old_values f !! k) → removed_values f !! k = None.
Proof.
  intros (Hor & _ & _) Hk. apply not_elem_of_dom. intros Hr.
  apply (Hor k); [by apply elem_of_dom|done].
Qed.

(** C6: [remove] of a record of the container returns, erases the record
    from [live] and touches nothing but the top frame, which it updates by
    the first case that applies: (a) the id is in [new_ids] and is dropped
    from it; (b) the id is in [old_values] and that entry leaves
    [old_values] for [removed_values] (the frame being disjoint on ids);
    (c) the id is already in [removed_values] and the frame stays as it is;
    (d) the record as it is now is stored in [removed_values].  Without a
    frame only [live] changes. *)
Theorem remove_spec (s : index) (obj : value) :
  _indices s !! id obj = Some obj →
  ∃ s',
    remove obj s = Done tt s' ∧
    _indices s' = delete (id obj) (_indices s) ∧
    _next_id s' = _next_id s ∧
    _revision s' = _revision s ∧
    (_stack s = [] → _stack s' = []) ∧
    (∀ below head, _stack s = below ++ [head] →
       (id obj ∈ new_ids head →
          _stack s' =
            below ++ [UndoState (old_values head) (removed_values head)
                        (new_ids head ∖ {[id obj]})
                        (old_next_id head) (revision head)]) ∧
       (id obj ∉ new_ids head → frame_disjoint head →
          ∀ pre, old_values head !! id obj = Some pre →
          _stack s' =
            below ++ [UndoState (delete (id obj) (old_values head))
                        (<[id obj := pre]> (removed_values head))
                        (new_ids head) (old_next_id head) (revision head)]) ∧
       (id obj ∉ new_ids head → old_values head !! id obj = None →
          is_Some (removed_values head !! id obj) →
          _stack s' = _stack s) ∧
       (id obj ∉ new_ids head → old_values head !! id obj = None →
          removed_values head !! id obj = None →
          _stack s' =
            below ++ [UndoState (old_values head)
                        (<[id obj := obj]> (removed_values head))
                        (new_ids head) (old_next_id head) (revision head)])).
Proof.
  intros Hobj. rewrite (remove_Done s obj Hobj). eexists. split; [done|].
  cbn [_indices _next_id _revision _stack set_indices].
  destruct (on_remove_fields obj s) as (_ & -> & ->).
  do 3 (split; [done|]). split.
  - intros Hnil. by rewrite on_remove_nil.
  - intros below head Hst. repeat split.
    + intros Hin. by rewrite (on_remove_new obj s below head).
    + intros Hin Hdis pre Hold.
      rewrite (on_remove_old obj s below head pre); try done.
      by apply frame_disjoint_old_removed.
    + intros Hin Hold Hrem. by rewrite (on_remove_removed obj s below head).
    + intros Hin Hold Hrem. by rewrite (on_remove_fresh obj s below head).
Qed.

Lemma remove_spec_witness :
  (∃ s',
     remove rec_a sample_created = Done tt s' ∧
     _indices s' = ∅ ∧
     _stack s' = [UndoState ∅ ∅ ∅ 0 1]) ∧
  (∃ s',
     remove rec_b sample_modified = Done tt s' ∧
     _indices s' = ∅ ∧
     _stack s' = [UndoState ∅ {[0 := rec_a]} ∅ 1 1]) ∧
  (∃ s',
     remove rec_a sample_one_frame = Done tt s' ∧
     _indices s' = ∅ ∧
     _stack s' = [UndoState ∅ {[0 := rec_a]} ∅ 1 1]) ∧
  (∃ s',
     remove rec_a sample_live = Done tt s' ∧
     _indices s' = ∅ ∧
     _stack s' = []).
Proof.
  split; [|split; [|split]].
  - destruct (remove_spec sample_created rec_a eq_refl)
      as (s' & Hrun & Hlive & _ & _ & _ & Hframe).
    exists s'. split; [exact Hrun|]. split; [rewrite Hlive; by vm_compute|].
    destruct (Hframe [] (UndoState ∅ ∅ {[0]} 0 1) eq_refl) as (Ha & _ & _ & _).
    rewrite (Ha ltac:(by vm_compute)). by vm_compute.
  - destruct (remove_spec sample_modified rec_b eq_refl)
      as (s' & Hrun & Hlive & _ & _ & _ & Hframe).
    exists s'. split; [exact Hrun|]. split; [rewrite Hlive; by vm_compute|].
    destruct (Hframe [] (UndoState {[0 := rec_a]} ∅ ∅ 1 1) eq_refl) as (_ & Hb & _ & _).
    rewrite (Hb ltac:(by vm_compute) ltac:(by vm_compute) rec_a eq_refl).
    by vm_compute.
  - destruct (remove_spec sample_one_frame rec_a eq_refl)
      as (s' & Hrun & Hlive & _ & _ & _ & Hframe).
    exists s'. split; [exact Hrun|]. split; [rewrite Hlive; by vm_compute|].
    destruct (Hframe [] (UndoState ∅ ∅ ∅ 1 1) eq_refl) as (_ & _ & _ & Hd).
    rewrite (Hd ltac:(by vm_compute) eq_refl eq_refl). by vm_compute.
  - destruct (remove_spec sample_live rec_a eq_refl)
      as (s' & Hrun & Hlive & _ & _ & Hnil & _).
    exists s'. split; [exact Hrun|]. split; [rewrite Hlive; by vm_compute|].
    exact (Hnil eq_refl).
Defined.

(** ** The loops of undo *)

Lemma erase_loop l s :
  NoDup l →
  (∀ i, i ∈ l → is_Some (_indices s !! i)) →
  for_each l erase_new s =
    Done tt (set_indices (filter (λ kv, kv.1 ∉ l) (_indices s)) s).
Proof.
  revert s. induction l as [|i l IH]; intros s Hnd Hin.
  - simpl. unfold ret. f_equal. destruct s; unfold set_indices; simpl. f_equal.
    symmetry. apply map_filter_id. intros k v _. simpl. apply not_elem_of_nil.
  - apply NoDup_cons in Hnd as [Hi Hnd].
    cbn [for_each]. unfold bind at 1. unfold erase_new at 1, container_erase.
    destruct (Hin i) as [v Hv]; [by left|]. rewrite Hv.
    rewrite IH; [|done|].
    + f_equal. destruct s; unfold set_indices; simpl. f_equal.
      apply map_eq; intros k. apply option_eq; intros w.
      rewrite !map_lookup_filter_Some, lookup_delete_Some. simpl.
      rewrite not_elem_of_cons. naive_solver.
    + intros j Hj. simpl. rewrite lookup_delete_ne by (intros ->; done).
      apply Hin. by right.
Qed.

Lemma restore_loop l s :
  NoDup l.*1 →
  Forall (λ kv, id kv.2 = kv.1) l →
  (∀ k, k ∈ l.*1 → is_Some (_indices s !! k)) →
  for_each l restore_old s =
    Done tt (set_indices (list_to_map l ∪ _indices s) s).
Proof.
  revert s. induction l as [|[k v] l IH]; intros s Hnd Hwk Hin.
  - simpl. unfold ret. f_equal. destruct s; unfold set_indices; simpl. f_equal.
    by rewrite (left_id_L ∅ (∪)).
  - simpl in Hnd. apply NoDup_cons in Hnd as [Hk Hnd].
    apply Forall_cons in Hwk as [Hkv Hwk]. simpl in Hkv.
    cbn [for_each]. unfold bind at 1. unfold restore_old at 1, container_modify.
    simpl. rewrite Hkv.
    destruct (Hin k) as [w Hw]; [by left|]. rewrite Hw.
    rewrite decide_True by done.
    rewrite IH; [|done|done|].
    + f_equal. destruct s; unfold set_indices; simpl. f_equal.
      rewrite <- insert_union_r by by apply not_elem_of_list_to_map_1.
      by rewrite insert_union_l.
    + intros j Hj. simpl. apply lookup_insert_is_Some'. right. apply Hin. by right.
Qed.

Lemma reinsert_loop l s :
  NoDup l.*1 →
  Forall (λ kv, id kv.2 = kv.1) l →
  (∀ k, k ∈ l.*1 → _indices s !! k = None) →
  for_each l reinsert_removed s =
    Done tt (set_indices (list_to_map l ∪ _indices s) s).
Proof.
  revert s. induction l as [|[k v] l IH]; intros s Hnd Hwk Hin.
  - simpl. unfold ret. f_equal. destruct s; unfold set_indices; simpl. f_equal.
    by rewrite (left_id_L ∅ (∪)).
  - simpl in Hnd. apply NoDup_cons in Hnd as [Hk Hnd].
    apply Forall_cons in Hwk as [Hkv Hwk]. simpl in Hkv.
    cbn [for_each]. unfold bind at 1. unfold reinsert_removed at 1, container_emplace.
    simpl. rewrite Hkv. rewrite (Hin k) by by left.
    rewrite IH; [|done|done|].
    + f_equal. destruct s; unfold set_indices; simpl. f_equal.
      rewrite <- insert_union_r by by apply not_elem_of_list_to_map_1.
      by rewrite insert_union_l.
    + intros j Hj. simpl. rewrite lookup_insert_ne by (intros ->; done).
      apply Hin. by right.
Qed.

Lemma well_keyed_items m : well_keyed m → Forall (λ kv, id kv.2 = kv.1) (items m).
Proof.
  intros Hwk. apply Forall_forall. intros [k v] Hkv%elem_of_items. by apply Hwk.
Qed.

Lemma elem_of_items_keys {V} (m : gmap Z V) k : k ∈ (items m).*1 ↔ is_Some (m !! k).
Proof.
  rewrite list_elem_of_fmap. split.
  - intros ([k' v] & -> & Hkv%elem_of_items). by eexists.
  - intros [v Hv]. exists (k, v). split; [done|]. by apply elem_of_items.
Qed.

(** The three loops of [undo] go through whenever the top frame fits the
    container: its new ids are present, its modified records are present
    and not new, its removed records are absent unless re-created.  What is
    left is to decrement the revision. *)
Lemma undo_loops s below head :
  _stack s = below ++ [head] →
  (∀ i, i ∈ new_ids head → is_Some (_indices s !! i)) →
  well_keyed (old_values head) →
  (∀ k, is_Some (old_values head !! k) → is_Some (_indices s !! k) ∧ k ∉ new_ids head) →
  well_keyed (removed_values head) →
  (∀ k, is_Some (removed_values head !! k) →
        old_values head !! k = None ∧ (_indices s !! k = None ∨ k ∈ new_ids head)) →
  undo s =
    decrement_revision
      (Index below (undo_live (_indices s) head) (old_next_id head) (_revision s)).
Proof.
  intros Hst Hnew Hwko Hold Hwkr Hrem.
  unfold undo. rewrite Hst, unsnoc_snoc.
  unfold bind at 1. rewrite erase_loop; cycle 1.
  { apply NoDup_members. }
  { intros i Hi%elem_of_members. by apply Hnew. }
  unfold bind at 1, update at 1.
  unfold bind at 1. rewrite restore_loop; cycle 1.
  { apply NoDup_items_keys. }
  { by apply well_keyed_items. }
  { intros k Hk%elem_of_items_keys. destruct (Hold k Hk) as [[v Hv] Hn].
    exists v. simpl. apply map_lookup_filter_Some. split; [done|].
    simpl. by rewrite elem_of_members. }
  unfold bind at 1. rewrite reinsert_loop; cycle 1.
  { apply NoDup_items_keys. }
  { by apply well_keyed_items. }
  { intros k Hk%elem_of_items_keys. destruct (Hrem k Hk) as [Ho Hl].
    simpl. rewrite list_to_map_items. apply lookup_union_None. split; [done|].
    apply map_lookup_filter_None. destruct Hl as [Hl|Hl]; [by left|].
    right. intros v _. simpl. rewrite elem_of_members. by intros []. }
  unfold bind at 1, update at 1. f_equal.
  unfold set_revision_field, set_stack, set_indices, set_next_id, undo_live.
  cbn [_revision _stack _indices _next_id]. f_equal.
  rewrite !list_to_map_items. do 2 f_equal.
  apply map_filter_ext. intros k v _. simpl. by rewrite elem_of_members.
Qed.

Lemma undo_Done s below head :
  _stack s = below ++ [head] →
  (∀ i, i ∈ new_ids head → is_Some (_indices s !! i)) →
  well_keyed (old_values head) →
  (∀ k, is_Some (old_values head !! k) → is_Some (_indices s !! k) ∧ k ∉ new_ids head) →
  well_keyed (removed_values head) →
  (∀ k, is_Some (removed_values head !! k) →
        old_values head !! k = None ∧ (_indices s !! k = None ∨ k ∈ new_ids head)) →
  _revision s ≠ int64_min →
  undo s =
    Done tt (Index below (undo_live (_indices s) head) (old_next_id head) (_revision s - 1)).
Proof.
  intros Hst Hnew Hwko Hold Hwkr Hrem Hrev.
  rewrite (undo_loops s below head) by done.
  unfold decrement_revision. simpl. by rewrite decide_False.
Qed.

(** An [undo] that returns has popped the top frame, so the loop of
    [undo_all] is over after as many rounds as there are frames. *)
Lemma undo_pops s s' below head :
  _stack s = below ++ [head] → undo s = Done tt s' → _stack s' = below.
Proof.
  intros Hst. unfold undo. rewrite Hst, unsnoc_snoc. unfold bind, update.
  repeat (case_match; try done). unfold decrement_revision.
  case_decide; [done|]. by intros [= <-].
Qed.

Lemma undo_rounds_empties n : ∀ s s',
  length (_stack s) = n → undo_rounds n s = Done tt s' → _stack s' = [].
Proof.
  induction n as [|n IH]; intros s s' Hlen.
  - simpl. intros [= <-]. by apply nil_length_inv.
  - simpl. unfold stuff_to_undo.
    destruct (stack_cases (_stack s)) as [Hst|(below & head & Hst)].
    { by rewrite Hst in Hlen. }
    rewrite bool_decide_true by (rewrite Hst; by destruct below).
    unfold bind. destruct (undo s) as [[] s1|e s1| |] eqn:Hundo; try done.
    apply IH. rewrite (undo_pops s s1 below head Hst Hundo).
    rewrite Hst, length_app in Hlen. simpl in Hlen. lia.
Qed.

Lemma undo_all_empties s s' : undo_all s = Done tt s' → _stack s' = [].
Proof. by apply undo_rounds_empties. Qed.

(** ** A session and its undo *)

Lemma emplace_inv c s :
  let v := c (set_id (_next_id s) default_value) in
  (emplace c s =
     Done v (on_create v (set_next_id (wrap64 (_next_id s + 1))
                            (set_indices (<[id v := v]> (_indices s)) s))) ∧
   _indices s !! id v = None) ∨
  (∃ e, emplace c s = Thrown e s ∧ is_Some (_indices s !! id v)).
Proof.
  intros v. unfold emplace, container_emplace. fold v.
  destruct (_indices s !! id v) eqn:E; [right|left]; eauto.
Qed.

Lemma on_create_snoc v s below head :
  _stack s = below ++ [head] →
  on_create v s = set_stack (below ++ [set_new_ids ({[id v]} ∪ new_ids head) head]) s.
Proof. intros Hst. unfold on_create. by rewrite Hst, unsnoc_snoc. Qed.

Lemma start_undo_session_Done this s :
  _revision s ≠ int64_max →
  start_undo_session this true s =
    Done (new_session this (_revision s + 1))
         (Index (_stack s ++ [UndoState ∅ ∅ ∅ (_next_id s) (_revision s + 1)])
                (_indices s) (_next_id s) (_revision s + 1)).
Proof.
  intros Hrev. unfold start_undo_session, bind, increment_revision.
  by rewrite decide_False.
Qed.

Lemma tracks_start s0 :
  tracks s0 (Index (_stack s0 ++ [UndoState ∅ ∅ ∅ (_next_id s0) (_revision s0 + 1)])
               (_indices s0) (_next_id s0) (_revision s0 + 1)).
Proof.
  eexists. split; [done|]. simpl. repeat split; try done.
  all: intros *; try set_solver; by rewrite lookup_empty.
Qed.

Lemma tracks_emplace s0 s c r s' :
  tracks s0 s → emplace c s = Done r s' → tracks s0 s'.
Proof.
  intros (head & Hst & Hrev & Hnext & Hnew & Hold & Hrem & Hsame) Hrun.
  destruct (emplace_inv c s) as [[Heq Hfree]|[e [Heq _]]]; [|congruence].
  rewrite Heq in Hrun. injection Hrun as <- <-.
  set (v := c (set_id (_next_id s) default_value)) in *.
  erewrite on_create_snoc by (simpl; exact Hst).
  eexists. split; [simpl; reflexivity|]. simpl.
  split; [done|]. split; [done|]. repeat split.
  - apply lookup_insert_is_Some'.
    apply elem_of_union in H as [->%elem_of_singleton|Hi]; [by left|].
    right. by apply Hnew.
  - apply elem_of_union in H as [->%elem_of_singleton|Hi]; [|by apply Hnew].
    destruct (removed_values head !! id v) as [w|] eqn:Hr; [right; by eexists|].
    left. rewrite <- Hsame; try done.
    + intros Hi. apply Hnew in Hi as [[? ?] _]. congruence.
    + destruct (old_values head !! id v) as [w|] eqn:Ho; [|done].
      apply Hold in Ho as (_ & _ & [? ?] & _). congruence.
  - by apply (Hold k v0).
  - by apply (Hold k v0).
  - apply lookup_insert_is_Some'. right. by apply (Hold k v0).
  - apply Hold in H as (_ & _ & [w Hw] & Hn).
    rewrite not_elem_of_union, not_elem_of_singleton. split; [|done].
    intros ->. congruence.
  - by apply (Hrem k v0).
  - by apply (Hrem k v0).
  - by apply (Hrem k v0).
  - destruct (decide (k = id v)) as [->|Hne]; [right; set_solver|].
    apply Hrem in H as (_ & _ & _ & [Hl|Hn]); [left|right; set_solver].
    by rewrite lookup_insert_ne.
  - intros k Hk Ho Hr. apply not_elem_of_union in Hk as [Hk%not_elem_of_singleton Hn].
    rewrite lookup_insert_ne by done. by apply Hsame.
Qed.

Lemma tracks_modify s0 s obj m s' :
  tracks s0 s → id (m obj) = id obj → modify obj m s = Done tt s' → tracks s0 s'.
Proof.
  intros (head & Hst & Hrev & Hnext & Hnew & Hold & Hrem & Hsame) Hid Hrun.
  pose proof (modify_inv _ _ _ _ Hrun) as Hobj.
  rewrite (modify_Done s obj m Hobj Hid) in Hrun. injection Hrun as <-.
  rewrite (on_modify_snoc obj s _ head Hst).
  case_decide as Hcase.
  - exists head. simpl. do 3 (split; [done|]). repeat split.
    + apply lookup_insert_is_Some'. right. by apply Hnew.
    + by apply Hnew.
    + by apply (Hold k v).
    + by apply (Hold k v).
    + apply lookup_insert_is_Some'. right. by apply (Hold k v).
    + by apply (Hold k v).
    + by apply (Hrem k v).
    + by apply (Hrem k v).
    + by apply (Hrem k v).
    + apply Hrem in H as (_ & _ & _ & [Hl|Hn]); [left|by right].
      rewrite lookup_insert_ne; [done|]. intros <-. congruence.
    + intros k Hk Ho Hr. rewrite lookup_insert_ne; [by apply Hsame|].
      intros <-. destruct Hcase as [?|[? ?]]; [done|congruence].
  - assert (id obj ∉ new_ids head) as Hn by (intros ?; apply Hcase; by left).
    assert (old_values head !! id obj = None) as Ho.
    { apply eq_None_not_Some. intros ?. apply Hcase. by right. }
    assert (removed_values head !! id obj = None) as Hr.
    { destruct (removed_values head !! id obj) as [w|] eqn:Hr; [|done].
      apply Hrem in Hr as (_ & _ & _ & [?|?]); [congruence|done]. }
    eexists. split; [simpl; reflexivity|]. simpl.
    do 2 (split; [done|]). repeat split.
    + apply lookup_insert_is_Some'. right. by apply Hnew.
    + by apply Hnew.
    + apply lookup_insert_Some in H as [[<- <-]|[Hne Hk]]; [done|by apply (Hold k v)].
    + apply lookup_insert_Some in H as [[<- <-]|[Hne Hk]]; [|by apply (Hold k v)].
      rewrite <- Hsame; done.
    + apply lookup_insert_is_Some'.
      apply lookup_insert_Some in H as [[<- <-]|[Hne Hk]]; [by left|].
      right. by apply (Hold k v).
    + apply lookup_insert_Some in H as [[<- <-]|[Hne Hk]]; [done|by apply (Hold k v)].
    + by apply (Hrem k v).
    + by apply (Hrem k v).
    + rewrite lookup_insert_ne; [by apply (Hrem k v)|]. intros <-. congruence.
    + apply Hrem in H as (_ & _ & _ & [Hl|Hk]); [left|by right].
      rewrite lookup_insert_ne; [done|]. intros <-. congruence.
    + intros k Hk Hko Hkr.
      destruct (decide (id obj = k)) as [<-|Hne].
      { by rewrite lookup_insert_eq in Hko. }
      rewrite lookup_insert_ne in Hko by done.
      rewrite lookup_insert_ne by done. by apply Hsame.
Qed.

Lemma tracks_remove s0 s obj s' :
  tracks s0 s → remove obj s = Done tt s' → tracks s0 s'.
Proof.
  intros (head & Hst & Hrev & Hnext & Hnew & Hold & Hrem & Hsame) Hrun.
  pose proof (remove_inv _ _ _ Hrun) as Hobj.
  rewrite (remove_Done s obj Hobj) in Hrun. injection Hrun as <-.
  destruct (decide (id obj ∈ new_ids head)) as [Hn|Hn].
  { (* the record was created in this frame *)
    rewrite (on_remove_new obj s _ head Hst Hn).
    eexists. split; [simpl; reflexivity|]. simpl.
    do 2 (split; [done|]). repeat split.
    - apply elem_of_difference in H as [Hi Hne%not_elem_of_singleton].
      rewrite lookup_delete_ne by done. by apply Hnew.
    - apply elem_of_difference in H as [Hi _]. by apply Hnew.
    - by apply (Hold k v).
    - by apply (Hold k v).
    - apply Hold in H as (_ & _ & Hl & Hk).
      rewrite lookup_delete_ne; [done|]. by intros <-.
    - apply Hold in H as (_ & _ & _ & Hk). set_solver.
    - by apply (Hrem k v).
    - by apply (Hrem k v).
    - by apply (Hrem k v).
    - destruct (decide (k = id obj)) as [->|Hne].
      { left. apply lookup_delete_eq. }
      apply Hrem in H as (_ & _ & _ & [Hl|Hk]); [left|right; set_solver].
      by rewrite lookup_delete_ne.
    - intros k Hk Ho Hr. destruct (decide (k = id obj)) as [->|Hne].
      + rewrite lookup_delete_eq. destruct (Hnew _ Hn) as [_ [Hl|[w Hw]]]; [done|congruence].
      + rewrite lookup_delete_ne by done. apply Hsame; [set_solver|done|done]. }
  destruct (old_values head !! id obj) as [pre|] eqn:Ho.
  { (* the record was modified in this frame *)
    assert (removed_values head !! id obj = None) as Hr.
    { destruct (removed_values head !! id obj) as [w|] eqn:Hr; [|done].
      apply Hrem in Hr as (_ & _ & ? & _). congruence. }
    rewrite (on_remove_old obj s _ head pre Hst Hn Ho Hr).
    eexists. split; [simpl; reflexivity|]. simpl.
    do 2 (split; [done|]). repeat split.
    - rewrite lookup_delete_ne; [by apply Hnew|]. by intros <-.
    - destruct (Hnew _ H) as [_ [?|[w Hw]]]; [by left|right].
      apply lookup_insert_is_Some'. right. by eexists.
    - apply lookup_delete_Some in H as [_ H]. by apply (Hold k v).
    - apply lookup_delete_Some in H as [_ H]. by apply (Hold k v).
    - apply lookup_delete_Some in H as [Hne H].
      rewrite lookup_delete_ne by done. by apply (Hold k v).
    - apply lookup_delete_Some in H as [_ H]. by apply (Hold k v).
    - apply lookup_insert_Some in H as [[<- <-]|[Hne Hk]]; [by apply (Hold _ _ Ho)|].
      by apply (Hrem k v).
    - apply lookup_insert_Some in H as [[<- <-]|[Hne Hk]]; [by apply (Hold _ _ Ho)|].
      by apply (Hrem k v).
    - apply lookup_insert_Some in H as [[<- <-]|[Hne Hk]]; [apply lookup_delete_eq|].
      rewrite lookup_delete_ne by done. by apply (Hrem k v).
    - apply lookup_insert_Some in H as [[<- <-]|[Hne Hk]].
      { left. apply lookup_delete_eq. }
      apply Hrem in Hk as (_ & _ & _ & [Hl|Hk]); [left|by right].
      by rewrite lookup_delete_ne.
    - intros k Hk Hko Hkr.
      destruct (decide (id obj = k)) as [<-|Hne].
      { by rewrite lookup_insert_eq in Hkr. }
      rewrite lookup_insert_ne in Hkr by done.
      rewrite lookup_delete_ne in Hko by done.
      rewrite lookup_delete_ne by done. by apply Hsame. }
  destruct (removed_values head !! id obj) as [w|] eqn:Hr.
  { (* cannot happen: a removed record is not in the container *)
    apply Hrem in Hr as (_ & _ & _ & [?|?]); [congruence|done]. }
  rewrite (on_remove_fresh obj s _ head Hst Hn Ho Hr).
  eexists. split; [simpl; reflexivity|]. simpl.
  do 2 (split; [done|]). repeat split.
  - rewrite lookup_delete_ne; [by apply Hnew|]. by intros <-.
  - destruct (Hnew _ H) as [_ [?|[w Hw]]]; [by left|right].
    apply lookup_insert_is_Some'. right. by eexists.
  - by apply (Hold k v).
  - by apply (Hold k v).
  - rewrite lookup_delete_ne; [by apply (Hold k v)|]. intros <-. congruence.
  - by apply (Hold k v).
  - apply lookup_insert_Some in H as [[<- <-]|[Hne Hk]]; [done|by apply (Hrem k v)].
  - apply lookup_insert_Some in H as [[<- <-]|[Hne Hk]]; [|by apply (Hrem k v)].
    rewrite <- Hsame; done.
  - apply lookup_insert_Some in H as [[<- <-]|[Hne Hk]]; [done|by apply (Hrem k v)].
  - apply lookup_insert_Some in H as [[<- <-]|[Hne Hk]].
    { left. apply lookup_delete_eq. }
    apply Hrem in Hk as (_ & _ & _ & [Hl|Hk]); [left|by right].
    by rewrite lookup_delete_ne.
  - intros k Hk Hko Hkr.
    destruct (decide (id obj = k)) as [<-|Hne].
    { by rewrite lookup_insert_eq in Hkr. }
    rewrite lookup_insert_ne in Hkr by done.
    rewrite lookup_delete_ne by done. by apply Hsame.
Qed.

Lemma lookup_undo_live live f k :
  undo_live live f !! k =
    match removed_values f !! k with
    | Some v => Some v
    | None =>
        match old_values f !! k with
        | Some v => Some v
        | None => if decide (k ∉ new_ids f) then live !! k else None
        end
    end.
Proof.
  unfold undo_live.
  destruct (removed_values f !! k) as [v|] eqn:Hr.
  { by apply lookup_union_Some_l. }
  rewrite lookup_union_r by done.
  destruct (old_values f !! k) as [v|] eqn:Ho.
  { by apply lookup_union_Some_l. }
  rewrite lookup_union_r by done.
  apply option_eq. intros v. rewrite map_lookup_filter_Some. simpl.
  case_decide; naive_solver.
Qed.

Lemma tracks_undo s0 s :
  int64_min ≤ _revision s0 → tracks s0 s → undo s = Done tt s0.
Proof.
  intros Hmin (head & Hst & Hrev & Hnext & Hnew & Hold & Hrem & Hsame).
  rewrite (undo_Done s (_stack s0) head); try done.
  - f_equal. destruct s0 as [st0 live0 next0 rev0]; simpl in *. f_equal; [|done|lia].
    apply map_eq. intros k. rewrite lookup_undo_live.
    destruct (removed_values head !! k) as [v|] eqn:Hr.
    { symmetry. by apply (Hrem k v). }
    destruct (old_values head !! k) as [v|] eqn:Ho.
    { symmetry. by apply (Hold k v). }
    case_decide as Hn; [by apply Hsame|].
    destruct (Hnew k Hn) as [_ [Hl|[w Hw]]]; congruence.
  - intros i Hi. by apply Hnew.
  - intros k v Hk. by apply (Hold k v).
  - intros k [v Hk]. by apply (Hold k v).
  - intros k v Hk. by apply (Hrem k v).
  - intros k [v Hk]. by apply (Hrem k v).
  - lia.
Qed.

Lemma tracks_run s0 ops : ∀ s s',
  tracks s0 s → Forall keeps_id ops → run_mutations ops s = Some s' → tracks s0 s'.
Proof.
  induction ops as [|o ops IH]; intros s s' Htr Hops Hrun.
  - simpl in Hrun. by injection Hrun as <-.
  - apply Forall_cons in Hops as [Ho Hops]. simpl in Hrun.
    destruct (mutate o s) as [[] s1|e s1| |] eqn:Hstep; try done.
    + apply (IH s1 s'); [|done|done].
      destruct o as [c|obj m|obj]; simpl in Hstep.
      * unfold bind in Hstep. destruct (emplace c s) as [r s2|e s2| |] eqn:He; try done.
        injection Hstep as <-. by eapply tracks_emplace.
      * by eapply tracks_modify.
      * by eapply tracks_remove.
    + apply (IH s1 s'); [|done|done].
      destruct o as [c|obj m|obj]; simpl in Hstep.
      * unfold bind in Hstep.
        destruct (emplace_inv c s) as [[Heq _]|[e' [Heq _]]]; rewrite Heq in Hstep;
          [done|]. by injection Hstep as _ <-.
      * unfold modify in Hstep. repeat case_match; done.
      * unfold remove in Hstep. repeat case_match; done.
Qed.

(** C1: a session opened with [start_undo_session(true)] and then undone
    leaves no trace.  On every index whose revision counter can still be
    incremented the session opens (stamped with the next revision), and
    after any run of [emplace] / [modify] / [remove] calls in which no call
    aborts or is undefined and every modifier keeps the id of its record,
    [undo] returns and gives back the index exactly as it was when the
    session was opened: the same live records, id counter, revision and
    frames below.  The empty run makes [start_undo_session(true); undo()]
    the identity. *)
Theorem undo_restores_session (s : index) (this : nat) :
  is_int64 (_revision s) →
  _revision s ≠ int64_max →
  ∃ h s1,
    start_undo_session this true s = Done h s1 ∧
    s_revision h = index_revision s + 1 ∧
    undo s1 = Done tt s ∧
    ∀ ops s2,
      Forall keeps_id ops →
      run_mutations ops s1 = Some s2 →
      undo s2 = Done tt s.
Proof.
  intros [Hmin _] Hmax. rewrite (start_undo_session_Done this s Hmax).
  eexists _, _. split; [done|]. split; [done|].
  pose proof (tracks_start s) as Htr. split.
  - by apply tracks_undo.
  - intros ops s2 Hops Hrun. apply tracks_undo; [done|].
    by eapply tracks_run.
Qed.

Lemma undo_restores_session_witness :
  ∃ h s1 s2,
    start_undo_session 0 true sample_live = Done h s1 ∧
    run_mutations sample_mutations s1 = Some s2 ∧
    _indices s2 = {[1 := Value 1 [Byte.x63]]} ∧
    undo s2 = Done tt sample_live.
Proof.
  destruct (undo_restores_session sample_live 0%nat) as (h & s1 & Hstart & _ & _ & Hops).
  { split; by vm_compute. }
  { by vm_compute. }
  exists h, s1.
  destruct (run_mutations sample_mutations s1) as [s2|] eqn:Hrun.
  - exists s2. split; [exact Hstart|]. split; [reflexivity|]. split.
    + vm_compute in Hstart. injection Hstart as <- <-.
      vm_compute in Hrun. injection Hrun as <-. by vm_compute.
    + apply (Hops sample_mutations s2); [|exact Hrun].
      repeat constructor.
  - exfalso. vm_compute in Hstart. injection Hstart as <- <-.
    vm_compute in Hrun. discriminate Hrun.
Defined.

(** ** The loops of squash *)

Lemma squash_old_loop l prev :
  NoDup l.*1 →
  Forall (λ kv, id kv.2 = kv.1) l →
  (∀ k, k ∈ l.*1 → k ∉ new_ids prev → old_values prev !! k = None →
        removed_values prev !! k = None) →
  ∃ prev',
    for_each l squash_old prev = Done tt prev' ∧
    new_ids prev' = new_ids prev ∧
    removed_values prev' = removed_values prev ∧
    old_next_id prev' = old_next_id prev ∧
    revision prev' = revision prev ∧
    ∀ j, old_values prev' !! j =
         match old_values prev !! j with
         | Some x => Some x
         | None => if decide (j ∈ new_ids prev) then None
                   else (list_to_map l : gmap Z value) !! j
         end.
Proof.
  revert prev. induction l as [|[k v] l IH]; intros prev Hnd Hwk Hok.
  - exists prev. simpl. repeat split; try done.
    intros j. destruct (old_values prev !! j); [done|]. by case_decide.
  - simpl in Hnd. apply NoDup_cons in Hnd as [Hk Hnd].
    apply Forall_cons in Hwk as [Hkv Hwk]. simpl in Hkv.
    cbn [for_each]. unfold bind at 1. unfold squash_old at 1. simpl. rewrite Hkv.
    destruct (decide (k ∈ new_ids prev)) as [Hin|Hin].
    { destruct (IH prev Hnd Hwk) as (prev' & Hrun & ? & ? & ? & ? & Hold).
      { intros k' Hk'. apply Hok. by right. }
      exists prev'. repeat split; try done. intros j. rewrite Hold.
      destruct (old_values prev !! j); [done|]. case_decide; [done|].
      rewrite lookup_insert_ne; [done|]. by intros <-. }
    destruct (old_values prev !! k) as [x|] eqn:Hx.
    { destruct (IH prev Hnd Hwk) as (prev' & Hrun & ? & ? & ? & ? & Hold).
      { intros k' Hk'. apply Hok. by right. }
      exists prev'. repeat split; try done. intros j. rewrite Hold.
      destruct (old_values prev !! j) eqn:Hj; [done|]. case_decide; [done|].
      rewrite lookup_insert_ne; [done|]. intros <-. congruence. }
    rewrite (Hok k) by (done || by left).
    rewrite map_emplace_None by done.
    destruct (IH (set_old_values (<[k:=v]> (old_values prev)) prev) Hnd Hwk)
      as (prev' & Hrun & ? & ? & ? & ? & Hold).
    { simpl. intros k' Hk' Hn Ho. apply Hok; [by right|done|].
      rewrite lookup_insert_ne in Ho; [done|]. by intros <-. }
    exists prev'. repeat split; try done. intros j. rewrite Hold. simpl.
    destruct (decide (k = j)) as [<-|Hne].
    + rewrite lookup_insert_eq, Hx. rewrite decide_False by done.
      by rewrite lookup_insert_eq.
    + rewrite !(lookup_insert_ne _ k j) by done. done.
Qed.

Lemma squash_new_loop l prev :
  for_each l squash_new prev = Done tt (set_new_ids (list_to_set l ∪ new_ids prev) prev).
Proof.
  revert prev. induction l as [|i l IH]; intros prev.
  - simpl. unfold ret. f_equal. destruct prev; unfold set_new_ids; simpl. f_equal.
    set_solver.
  - cbn [for_each]. unfold bind at 1. unfold squash_new at 1, update.
    rewrite IH. f_equal. destruct prev; unfold set_new_ids; simpl. f_equal.
    set_solver.
Qed.

Lemma lookup_map_emplace {V} k (v : V) (m : gmap Z V) j :
  map_emplace k v m !! j =
    match m !! j with
    | Some w => Some w
    | None => if decide (k = j) then Some v else None
    end.
Proof.
  unfold map_emplace. destruct (m !! k) as [w|] eqn:Hk.
  - destruct (m !! j) eqn:Hj; [done|]. case_decide; [congruence|done].
  - destruct (decide (k = j)) as [<-|Hne].
    + by rewrite lookup_insert_eq, Hk.
    + rewrite lookup_insert_ne by done. by destruct (m !! j).
Qed.

Lemma squash_removed_loop l prev :
  NoDup l.*1 →
  Forall (λ kv, id kv.2 = kv.1) l →
  (∀ k, k ∈ l.*1 → k ∉ new_ids prev → old_values prev !! k = None →
        removed_values prev !! k = None) →
  ∃ prev',
    for_each l squash_removed prev = Done tt prev' ∧
    old_next_id prev' = old_next_id prev ∧
    revision prev' = revision prev ∧
    (∀ j, j ∈ new_ids prev' ↔ j ∈ new_ids prev ∧ j ∉ l.*1) ∧
    (∀ j, old_values prev' !! j =
          if decide (j ∈ l.*1 ∧ j ∉ new_ids prev) then None
          else old_values prev !! j) ∧
    (∀ j, removed_values prev' !! j =
          match removed_values prev !! j with
          | Some w => Some w
          | None =>
              if decide (j ∈ l.*1 ∧ j ∉ new_ids prev) then
                match old_values prev !! j with
                | Some x => Some x
                | None => (list_to_map l : gmap Z value) !! j
                end
              else None
          end).
Proof.
  revert prev. induction l as [|[k v] l IH]; intros prev Hnd Hwk Hok.
  - exists prev. simpl. do 3 (split; [done|]). split; [|split].
    + intros j. split; [|by intros [? _]]. intros ?. split; [done|]. apply not_elem_of_nil.
    + done.
    + intros j. by destruct (removed_values prev !! j).
  - simpl in Hnd. apply NoDup_cons in Hnd as [Hk Hnd].
    apply Forall_cons in Hwk as [Hkv Hwk]. simpl in Hkv.
    cbn [for_each]. unfold bind at 1. unfold squash_removed at 1. simpl. rewrite Hkv.
    destruct (decide (k ∈ new_ids prev)) as [Hin|Hin].
    { (* created below, removed above: the id leaves new_ids *)
      destruct (IH (set_new_ids (new_ids prev ∖ {[k]}) prev) Hnd Hwk)
        as (prev' & Hrun & ? & ? & Hnew & Hold & Hrem).
      { simpl. intros k' Hk' Hn. apply Hok; [by right|].
        intros ?. apply Hn. apply elem_of_difference. split; [done|].
        apply not_elem_of_singleton. by intros ->. }
      simpl in *. exists prev'. repeat split; try done.
      - apply Hnew in H1. set_solver.
      - apply Hnew in H1. set_solver.
      - intros [Hj Hjl]. apply Hnew. set_solver.
      - intros j. rewrite Hold. destruct (decide (k = j)) as [<-|Hne].
        + rewrite !decide_False; [done|naive_solver|naive_solver].
        + repeat case_decide; try done; set_solver.
      - intros j. rewrite Hrem. destruct (removed_values prev !! j); [done|].
        destruct (decide (k = j)) as [<-|Hne].
        + rewrite !decide_False; [done|naive_solver|naive_solver].
        + rewrite lookup_insert_ne by done.
          repeat case_decide; try done; set_solver. }
    destruct (old_values prev !! k) as [pre|] eqn:Hpre.
    { (* modified below, removed above: the pre-image moves *)
      destruct (IH (set_old_values (delete k (old_values prev))
                      (set_removed_values (map_emplace k pre (removed_values prev)) prev))
                   Hnd Hwk)
        as (prev' & Hrun & ? & ? & Hnew & Hold & Hrem).
      { simpl. intros k' Hk' Hn Ho.
        assert (k ≠ k') by (by intros <-).
        rewrite lookup_delete_ne in Ho by done.
        rewrite lookup_map_emplace, (Hok k') by (done || by right).
        by rewrite decide_False. }
      simpl in *. exists prev'. repeat split; try done.
      - apply Hnew in H1. set_solver.
      - apply Hnew in H1. set_solver.
      - intros [Hj Hjl]. apply Hnew. set_solver.
      - intros j. rewrite Hold. destruct (decide (k = j)) as [<-|Hne].
        + rewrite lookup_delete_eq. rewrite decide_False by naive_solver.
          rewrite decide_True; [done|]. split; [by left|done].
        + rewrite lookup_delete_ne by done.
          repeat case_decide; try done; set_solver.
      - intros j. rewrite Hrem, lookup_map_emplace.
        destruct (removed_values prev !! j); [done|].
        destruct (decide (k = j)) as [<-|Hne].
        + rewrite decide_True, Hpre; [done|]. split; [by left|done].
        + rewrite lookup_delete_ne, lookup_insert_ne by done.
          repeat case_decide; try done; set_solver. }
    (* untouched below, removed above: the pre-image is taken over *)
    rewrite (Hok k) by (done || by left).
    rewrite map_emplace_None by (apply Hok; done || by left).
    destruct (IH (set_removed_values (<[k:=v]> (removed_values prev)) prev) Hnd Hwk)
      as (prev' & Hrun & ? & ? & Hnew & Hold & Hrem).
    { simpl. intros k' Hk' Hn Ho.
      assert (k ≠ k') by (by intros <-).
      rewrite lookup_insert_ne by done. apply Hok; [by right|done|done]. }
    simpl in *. exists prev'. repeat split; try done.
    + apply Hnew in H1. set_solver.
    + apply Hnew in H1. set_solver.
    + intros [Hj Hjl]. apply Hnew. set_solver.
    + intros j. rewrite Hold. destruct (decide (k = j)) as [<-|Hne].
      * rewrite Hpre. by repeat case_decide.
      * repeat case_decide; try done; set_solver.
    + intros j. rewrite Hrem. destruct (decide (k = j)) as [<-|Hne].
      * rewrite lookup_insert_eq, (Hok k) by (done || by left).
        rewrite decide_True, Hpre by (split; [by left|done]).
        by rewrite lookup_insert_eq.
      * rewrite !(lookup_insert_ne _ k j) by done.
        destruct (removed_values prev !! j); [done|].
        repeat case_decide; try done; set_solver.
Qed.

(** [squash_frames] returns as soon as no record that the lower frame holds
    as removed shows up in the top frame (the two [assert]s), and what it
    returns is the lower frame with the top frame folded in. *)
Lemma squash_frames_Done T P :
  well_keyed (old_values T) →
  well_keyed (removed_values T) →
  (∀ k, is_Some (removed_values P !! k) →
        old_values T !! k = None ∧ removed_values T !! k = None) →
  ∃ P', squash_frames T P = Done tt P' ∧ squashed P T P'.
Proof.
  intros Hwko Hwkr Hassert. unfold squash_frames.
  destruct (squash_old_loop (items (old_values T)) P)
    as (P1 & Hrun1 & Hnew1 & Hrem1 & Hnext1 & Hrev1 & Hold1).
  { apply NoDup_items_keys. }
  { by apply well_keyed_items. }
  { intros k Hk%elem_of_items_keys _ _.
    destruct (removed_values P !! k) as [w|] eqn:Hr; [|done].
    destruct (Hassert k) as [Ho _]; [by eexists|].
    rewrite Ho in Hk. by destruct Hk. }
  unfold bind at 1. rewrite Hrun1.
  unfold bind at 1. rewrite squash_new_loop.
  destruct (squash_removed_loop (items (removed_values T))
              (set_new_ids (list_to_set (members (new_ids T)) ∪ new_ids P1) P1))
    as (P' & Hrun3 & Hnext3 & Hrev3 & Hnew3 & Hold3 & Hrem3).
  { apply NoDup_items_keys. }
  { by apply well_keyed_items. }
  { simpl. intros k Hk%elem_of_items_keys _ _. rewrite Hrem1.
    destruct (removed_values P !! k) as [w|] eqn:Hr; [|done].
    destruct (Hassert k) as [_ Ho]; [by eexists|].
    rewrite Ho in Hk. by destruct Hk. }
  simpl in *. rewrite list_to_set_members, list_to_map_items in *.
  exists P'. split; [done|].
  assert (∀ j, old_values P1 !! j = old_after_first_loop P T j) as Hold1'.
  { intros j. by rewrite Hold1. }
  assert (∀ j, (j ∈ (items (removed_values T)).*1 ∧ j ∉ new_ids T ∪ new_ids P1) ↔
               (is_Some (removed_values T !! j) ∧ (j ∉ new_ids P) ∧ (j ∉ new_ids T))) as Hcond.
  { intros j. rewrite elem_of_items_keys, Hnew1. set_solver. }
  split; [congruence|]. split; [congruence|]. split; [|split].
  - intros j. rewrite Hnew3, elem_of_items_keys, Hnew1, eq_None_not_Some. set_solver.
  - intros j. rewrite Hold3, Hold1'. apply decide_ext, Hcond.
  - intros j. rewrite Hrem3, Hrem1, Hold1'.
    destruct (removed_values P !! j); [done|]. apply decide_ext, Hcond.
Qed.

(** ** squash *)

Lemma squash_one s f :
  _stack s = [f] →
  _revision s ≠ int64_min →
  squash s = Done tt (Index [] (_indices s) (_next_id s) (_revision s - 1)).
Proof.
  intros Hst Hrev. unfold squash, decrement_revision. rewrite Hst. simpl.
  by rewrite decide_False.
Qed.

Lemma squash_two s below P T :
  _stack s = below ++ [P; T] →
  squash s =
    match squash_frames T P with
    | Done _ P' => decrement_revision (set_stack (below ++ [P']) s)
    | Thrown e _ => Thrown e s
    | Aborted => Aborted
    | Undefined => Undefined
    end.
Proof.
  intros Hst. unfold squash. rewrite Hst.
  replace (below ++ [P; T]) with ((below ++ [P]) ++ [T]) by by rewrite <- app_assoc.
  rewrite !unsnoc_snoc.
  destruct below as [|x [|y below]]; try done.
Qed.

Lemma for_each_preserves {S A} (Φ : S → Prop) (body : A → M S unit) l :
  (∀ x s s', body x s = Done tt s' → Φ s → Φ s') →
  ∀ s s', for_each l body s = Done tt s' → Φ s → Φ s'.
Proof.
  intros Hbody. induction l as [|x l IH]; intros s s' Hrun HΦ.
  - simpl in Hrun. by injection Hrun as <-.
  - cbn [for_each] in Hrun. unfold bind in Hrun.
    destruct (body x s) as [[] s1|e s1| |] eqn:Hx; try done.
    eapply IH; [done|]. by eapply Hbody.
Qed.

Lemma squash_frames_stamp T P P' :
  squash_frames T P = Done tt P' →
  old_next_id P' = old_next_id P ∧ revision P' = revision P.
Proof.
  unfold squash_frames, bind. intros Hrun.
  destruct (for_each (items (old_values T)) squash_old P) as [[] P1|e P1| |] eqn:H1;
    try done.
  destruct (for_each (members (new_ids T)) squash_new P1) as [[] P2|e P2| |] eqn:H2;
    try done.
  set (Φ := λ f, old_next_id f = old_next_id P ∧ revision f = revision P).
  assert (Φ P1) as HP1.
  { eapply (for_each_preserves Φ); [|exact H1|done].
    intros [k v] f f'. unfold squash_old. intros Hf.
    repeat case_match; try done; by injection Hf as <-. }
  assert (Φ P2) as HP2.
  { eapply (for_each_preserves Φ); [|exact H2|done].
    intros i f f'. unfold squash_new, update. by intros [= <-]. }
  eapply (for_each_preserves Φ); [|exact Hrun|done].
  intros [k v] f f'. unfold squash_removed. intros Hf.
  repeat case_match; try done; by injection Hf as <-.
Qed.

(** C9: with two or more frames on the stack, a [squash] that returns
    leaves one frame in the place of the two upper ones, and that frame has
    the [old_next_id] (and the stamped revision) of the lower one; nothing
    below it, in the container or in the id counter has changed.  The
    call does return when the top frame is keyed by the ids of its records,
    touches none of the records the lower frame holds as removed, and the
    revision counter can be decremented. *)
Theorem squash_keeps_old_next_id (s : index) (below : list undo_state) (P T : undo_state) :
  _stack s = below ++ [P; T] →
  (∀ s', squash s = Done tt s' →
     ∃ P', _stack s' = below ++ [P'] ∧
           old_next_id P' = old_next_id P ∧ revision P' = revision P ∧
           _indices s' = _indices s ∧ _next_id s' = _next_id s) ∧
  (well_keyed (old_values T) →
   well_keyed (removed_values T) →
   (∀ k, is_Some (removed_values P !! k) →
         old_values T !! k = None ∧ removed_values T !! k = None) →
   _revision s ≠ int64_min →
   ∃ s', squash s = Done tt s').
Proof.
  intros Hst. rewrite (squash_two s below P T Hst). split.
  - intros s' Hrun.
    destruct (squash_frames T P) as [[] P'|e P1| |] eqn:Hfr; try done.
    destruct (squash_frames_stamp _ _ _ Hfr) as [Hn Hr].
    unfold decrement_revision in Hrun. case_decide; [done|].
    injection Hrun as <-. by exists P'.
  - intros Hwko Hwkr Hassert Hrev.
    destruct (squash_frames_Done T P Hwko Hwkr Hassert) as (P' & -> & _).
    unfold decrement_revision. simpl. rewrite decide_False by done. by eexists.
Qed.

Lemma squash_keeps_old_next_id_witness :
  ∃ s' P',
    squash sample_two_frames = Done tt s' ∧
    _stack s' = [] ++ [P'] ∧
    old_next_id P' = 1.
Proof.
  destruct (squash_keeps_old_next_id sample_two_frames []
              (UndoState {[0 := rec_a]} ∅ ∅ 1 1) (UndoState ∅ {[0 := rec_b]} ∅ 1 2) eq_refl)
    as [Hsafe Hlive].
  destruct Hlive as [s' Hrun].
  - apply (bool_decide_unpack _). by vm_compute.
  - apply (bool_decide_unpack _). by vm_compute.
  - intros k [w Hw]. simpl in Hw. by rewrite lookup_empty in Hw.
  - by vm_compute.
  - destruct (Hsafe s' Hrun) as (P' & Hst & Hnext & _).
    exists s', P'. split; [exact Hrun|]. split; [exact Hst|exact Hnext].
Defined.

Lemma frame_disjoint_removed_new f k :
  frame_disjoint f → is_Some (removed_values f !! k) → k ∉ new_ids f.
Proof.
  intros (_ & _ & Hrn) Hk Hn. apply (Hrn k); [by apply elem_of_dom|done].
Qed.

Lemma frame_disjoint_removed_old f k :
  frame_disjoint f → is_Some (removed_values f !! k) → old_values f !! k = None.
Proof.
  intros (Hor & _ & _) Hk. apply not_elem_of_dom. intros Ho.
  apply (Hor k); [done|by apply elem_of_dom].
Qed.

(** C2: [squash] on a stack of one frame pops it and decrements the
    revision.  On a stack of two or more frames, with a top frame [T] that
    is keyed by the ids of its records and disjoint on ids, and that touches
    no record the lower frame [P] holds as removed (the two [assert]s), it
    replaces [P] and [T] by [P] with [T] folded in id by id ([squashed]) and
    decrements the revision.  For an entry [(id, Y)] of [T.removed_values]:
    an id of [P.new_ids] is erased from [new_ids]; otherwise an entry of
    [P.old_values] moves, with the pre-image of [P], to [removed_values] and
    leaves [old_values]; otherwise [(id, Y)] itself is inserted into
    [removed_values]. *)
Theorem squash_spec (s : index) :
  _revision s ≠ int64_min →
  (∀ f, _stack s = [f] →
     squash s = Done tt (Index [] (_indices s) (_next_id s) (_revision s - 1))) ∧
  (∀ below P T,
     _stack s = below ++ [P; T] →
     well_keyed (old_values T) →
     well_keyed (removed_values T) →
     frame_disjoint T →
     (∀ k, is_Some (removed_values P !! k) →
           old_values T !! k = None ∧ removed_values T !! k = None) →
     ∃ P',
       squash s =
         Done tt (Index (below ++ [P']) (_indices s) (_next_id s) (_revision s - 1)) ∧
       squashed P T P' ∧
       ∀ i Y, removed_values T !! i = Some Y →
         (i ∈ new_ids P → i ∉ new_ids P') ∧
         (i ∉ new_ids P → ∀ X, old_values P !! i = Some X →
            removed_values P' !! i = Some X ∧ old_values P' !! i = None) ∧
         (i ∉ new_ids P → old_values P !! i = None →
            removed_values P' !! i = Some Y)).
Proof.
  intros Hrev. split.
  { intros f Hst. by apply (squash_one s f). }
  intros below P T Hst Hwko Hwkr Hdis Hassert.
  rewrite (squash_two s below P T Hst).
  destruct (squash_frames_Done T P Hwko Hwkr Hassert) as (P' & -> & Hsq).
  exists P'. split.
  { unfold decrement_revision. simpl. by rewrite decide_False. }
  split; [done|].
  destruct Hsq as (_ & _ & Hnew & Hold & Hrem).
  intros i Y HY.
  assert (i ∉ new_ids T) as HnT.
  { apply (frame_disjoint_removed_new T); [done|by eexists]. }
  assert (old_values T !! i = None) as HoT.
  { apply (frame_disjoint_removed_old T); [done|by eexists]. }
  assert (removed_values P !! i = None) as HrP.
  { destruct (removed_values P !! i) as [w|] eqn:Hw; [|done].
    destruct (Hassert i) as [_ ?]; [by eexists|congruence]. }
  split; [|split].
  - intros Hin Hin'. apply Hnew in Hin' as [_ ?]. congruence.
  - intros Hin X HX. rewrite Hrem, Hold, HrP.
    rewrite !decide_True by (split; [by eexists|done]).
    unfold old_after_first_loop. by rewrite HX.
  - intros Hin HX. rewrite Hrem, HrP.
    rewrite decide_True by (split; [by eexists|done]).
    unfold old_after_first_loop. rewrite HX, decide_False by done.
    by rewrite HoT.
Qed.

Lemma squash_spec_witness :
  (squash sample_one_frame = Done tt (Index [] {[0 := rec_a]} 1 (1 - 1))) ∧
  (∃ P',
     squash sample_two_frames = Done tt (Index ([] ++ [P']) ∅ 1 (2 - 1)) ∧
     removed_values P' !! 0 = Some rec_a ∧ old_values P' !! 0 = None).
Proof.
  split.
  - destruct (squash_spec sample_one_frame) as [Hone _]; [by vm_compute|].
    apply (Hone (UndoState ∅ ∅ ∅ 1 1) eq_refl).
  - destruct (squash_spec sample_two_frames) as [_ Htwo]; [by vm_compute|].
    destruct (Htwo [] (UndoState {[0 := rec_a]} ∅ ∅ 1 1)
                (UndoState ∅ {[0 := rec_b]} ∅ 1 2) eq_refl)
      as (P' & Hrun & _ & Hrows).
    + apply (bool_decide_unpack _). by vm_compute.
    + apply (bool_decide_unpack _). by vm_compute.
    + apply (bool_decide_unpack _). by vm_compute.
    + intros k [w Hw]. simpl in Hw. by rewrite lookup_empty in Hw.
    + exists P'. split; [exact Hrun|].
      destruct (Hrows 0 rec_b eq_refl) as (_ & Hmoved & _).
      apply (Hmoved ltac:(by vm_compute) rec_a eq_refl).
Defined.

(** ** Moving a session handle *)

(** C10: move-assigning the handle at [mv] onto the handle at [this] first
    runs [undo] on the index of the target if the target is armed, then
    gives the target the armed flag of the source and disarms the source;
    the index reference and the revision of either handle stay.  Assigning
    a handle onto itself changes nothing. *)
Theorem session_move_assign_spec (w : world) (this mv : nat) (target source : session) :
  session_move_assign this this w = Done tt w ∧
  (this ≠ mv →
   w_sessions w !! this = Some target →
   w_sessions w !! mv = Some source →
   (_apply target = false →
      session_move_assign this mv w =
        Done tt (World (w_indices w)
                   (<[mv := Session (_index source) false (s_revision source)]>
                      (<[this := Session (_index target) (_apply source)
                                   (s_revision target)]> (w_sessions w))))) ∧
   (_apply target = true →
      ∀ s s', w_indices w !! _index target = Some s →
              undo s = Done tt s' →
      session_move_assign this mv w =
        Done tt (World (<[_index target := s']> (w_indices w))
                   (<[mv := Session (_index source) false (s_revision source)]>
                      (<[this := Session (_index target) (_apply source)
                                   (s_revision target)]> (w_sessions w)))))).
Proof.
  split.
  { unfold session_move_assign. by rewrite decide_True. }
  intros Hne Ht Hs. unfold session_move_assign.
  rewrite decide_False by done. rewrite Ht, Hs. split.
  - intros ->. done.
  - intros -> s s' Hidx Hundo. unfold bind at 1. unfold on_index.
    by rewrite Hidx, Hundo.
Qed.

Lemma session_move_assign_spec_witness :
  session_move_assign 1 0 sample_world =
    Done tt (World {[0%nat := sample_one_frame]}
               {[0%nat := Session 0 false 1; 1%nat := Session 0 true (-1)]}) ∧
  session_move_assign 0 1 sample_world =
    Done tt (World {[0%nat := Index [] {[0 := rec_a]} 1 0]}
               {[0%nat := Session 0 false 1; 1%nat := Session 0 false (-1)]}).
Proof.
  split.
  - destruct (session_move_assign_spec sample_world 1 0
                (Session 0 false (-1)) (Session 0 true 1)) as [_ Hmove].
    destruct (Hmove ltac:(discriminate) eq_refl eq_refl) as [Hdisarmed _].
    rewrite (Hdisarmed eq_refl). by vm_compute.
  - destruct (session_move_assign_spec sample_world 0 1
                (Session 0 true 1) (Session 0 false (-1))) as [_ Hmove].
    destruct (Hmove ltac:(discriminate) eq_refl eq_refl) as [_ Harmed].
    rewrite (Harmed eq_refl (Index [UndoState ∅ ∅ ∅ 1 1] {[0 := rec_a]} 1 1)
               (Index [] {[0 := rec_a]} 1 0) eq_refl ltac:(by vm_compute)).
    by vm_compute.
Defined.

(** ** The database fan-out *)

Lemma open_sub_sessions_spec index_list : ∀ w,
  NoDup index_list →
  (∀ i, i ∈ index_list →
        ∃ s, w_indices w !! i = Some s ∧ _revision s ≠ int64_max) →
  ∃ subs w',
    rocksdb_database.open_sub_sessions index_list true w = Done subs w' ∧
    w_sessions w' = w_sessions w ∧
    (∀ i, i ∉ index_list → w_indices w' !! i = w_indices w !! i) ∧
    length subs = length index_list ∧
    ∀ n item, index_list !! n = Some item →
      ∃ sub s,
        subs !! n = Some sub ∧ _index sub = item ∧
        w_indices w !! item = Some s ∧
        s_revision sub = _revision s + 1 ∧
        w_indices w' !! item =
          Some (Index (_stack s ++ [UndoState ∅ ∅ ∅ (_next_id s) (_revision s + 1)])
                  (_indices s) (_next_id s) (_revision s + 1)).
Proof.
  induction index_list as [|item rest IH]; intros w Hnd Hall.
  - exists [], w. simpl. repeat split; try done.
  - apply NoDup_cons in Hnd as [Hitem Hnd].
    destruct (Hall item) as (s & Hs & Hrev); [by left|].
    cbn [rocksdb_database.open_sub_sessions]. unfold bind at 1. unfold on_index at 1.
    rewrite Hs, (start_undo_session_Done item s Hrev).
    set (s1 := Index _ _ _ _).
    set (w1 := World (<[item := s1]> (w_indices w)) (w_sessions w)).
    destruct (IH w1 Hnd) as (subs & w' & Hrun & Hsess & Hother & Hlen & Hsubs).
    { intros i Hi. destruct (Hall i) as (si & Hsi & Hri); [by right|].
      exists si. split; [|done]. simpl. rewrite lookup_insert_ne; [done|].
      by intros ->. }
    unfold bind at 1. rewrite Hrun. unfold ret.
    eexists _, _. split; [done|]. split; [done|]. split; [|split].
    { intros i Hi. apply not_elem_of_cons in Hi as [Hne Hi].
      rewrite Hother by done. simpl. by rewrite lookup_insert_ne. }
    { simpl. by rewrite Hlen. }
    intros [|n] i Hi; simpl in Hi.
    + injection Hi as <-. exists (new_session item (_revision s + 1)), s.
      split; [done|]. split; [done|]. split; [done|].
      split; [unfold new_session; by case_decide|].
      rewrite Hother by done. simpl. by rewrite lookup_insert_eq.
    + destruct (Hsubs n i Hi) as (sub & si & Hsub & Hidx & Hsi & Hri & Hwi).
      exists sub, si. split; [done|]. split; [done|]. split; [|done].
      simpl in Hsi. rewrite lookup_insert_ne in Hsi; [done|].
      intros ->. apply Hitem. by eapply list_elem_of_lookup_2.
Qed.

(** The spec's wording of the fan-out fails: with sessions disabled the
    database opens no sub-session at all, although an index is registered. *)
Lemma one_sub_session_per_index_counterexample :
  ¬ one_sub_session_per_index [0%nat] false sample_world.
Proof.
  intros (h & w' & Hrun & Hlen). vm_compute in Hrun.
  injection Hrun as <- _. discriminate Hlen.
Qed.

(** C4, amended: with [enabled] false, [start_undo_session] of the database
    opens nothing: the composite session is empty, its revision is -1 and
    no index is touched.  With [enabled] true (the registered indices being
    distinct objects whose revision counters can be incremented) it opens
    one sub-session per registered index, in registration order, each index
    getting a fresh empty frame stamped with its next revision, and the
    revision of the composite session is the one of the first sub-session
    (-1 when no index is registered). *)
Theorem db_start_undo_session_spec (index_list : list nat) (w : world) :
  rocksdb_database.start_undo_session index_list false w
    = Done (rocksdb_database.Session [] (-1)) w ∧
  (NoDup index_list →
   (∀ i, i ∈ index_list →
         ∃ s, w_indices w !! i = Some s ∧ _revision s ≠ int64_max) →
   ∃ h w',
     rocksdb_database.start_undo_session index_list true w = Done h w' ∧
     length (rocksdb_database._index_sessions h) = length index_list ∧
     rocksdb_database._revision h =
       from_option s_revision (-1) (head (rocksdb_database._index_sessions h)) ∧
     w_sessions w' = w_sessions w ∧
     (∀ i, i ∉ index_list → w_indices w' !! i = w_indices w !! i) ∧
     ∀ n item, index_list !! n = Some item →
       ∃ sub s,
         rocksdb_database._index_sessions h !! n = Some sub ∧
         _index sub = item ∧
         w_indices w !! item = Some s ∧
         s_revision sub = _revision s + 1 ∧
         w_indices w' !! item =
           Some (Index (_stack s ++ [UndoState ∅ ∅ ∅ (_next_id s) (_revision s + 1)])
                   (_indices s) (_next_id s) (_revision s + 1))).
Proof.
  split; [done|]. intros Hnd Hall.
  destruct (open_sub_sessions_spec index_list w Hnd Hall)
    as (subs & w' & Hrun & Hsess & Hother & Hlen & Hsubs).
  unfold rocksdb_database.start_undo_session, bind. rewrite Hrun.
  eexists _, _. split; [done|]. simpl.
  split; [done|]. split; [by destruct subs|]. done.
Qed.

Lemma db_start_undo_session_spec_witness :
  ∃ h w',
    rocksdb_database.start_undo_session [0%nat] true sample_world = Done h w' ∧
    length (rocksdb_database._index_sessions h) = length [0%nat] ∧
    rocksdb_database._revision h =
      from_option s_revision (-1) (head (rocksdb_database._index_sessions h)).
Proof.
  destruct (db_start_undo_session_spec [0%nat] sample_world) as [_ Hon].
  destruct Hon as (h & w' & Hrun & Hlen & Hrev & _).
  - apply NoDup_singleton.
  - intros i ->%list_elem_of_singleton. eexists. split; [reflexivity|]. by vm_compute.
  - exists h, w'. split; [exact Hrun|]. split; [exact Hlen|exact Hrev].
Defined.

(** ** The frames of every reachable index *)

Lemma wrap64_small z : 0 ≤ z ≤ uint64_max → wrap64 z = z.
Proof. intros Hz. unfold wrap64. apply Z.mod_small. lia. Qed.

Lemma frame_ok_disjoint D f : frame_ok D f → frame_disjoint f.
Proof.
  intros (_ & _ & _ & Hnew & _ & Hold & Hrem). repeat split.
  - intros k Ho%elem_of_dom Hr%elem_of_dom.
    destruct (Hold k Ho) as [? _]. by destruct (Hrem k Hr) as [? _].
  - intros k Ho%elem_of_dom Hn.
    destruct (Hold k Ho) as [_ ?]. destruct (Hnew k Hn) as [_ ?]. lia.
  - intros k Hr%elem_of_dom Hn.
    destruct (Hrem k Hr) as [_ ?]. destruct (Hnew k Hn) as [_ ?]. lia.
Qed.

Lemma frames_ok_disjoint frames : ∀ D b,
  frames_ok D b frames → Forall frame_disjoint frames.
Proof.
  induction frames as [|f frames IH]; intros D b Hok; [constructor|].
  destruct Hok as (_ & Hf & Hbelow). constructor.
  - by eapply frame_ok_disjoint.
  - by eapply IH.
Qed.

Lemma frames_ok_app l1 l2 : ∀ D b, frames_ok D b (l1 ++ l2) → frames_ok D b l1.
Proof.
  induction l1 as [|f l1 IH]; intros D b Hok; [done|].
  destruct Hok as (Hb & Hf & Hbelow). split; [done|]. split; [done|]. by eapply IH.
Qed.

Lemma index_ok_revision r s : index_ok s → index_ok (set_revision_field r s).
Proof. by intros (? & ? & ?). Qed.

Lemma index_ok_decrement s s' :
  index_ok s → comes_back (decrement_revision s) s' → index_ok s'.
Proof.
  unfold decrement_revision. intros Hok. case_decide; [done|].
  simpl. intros <-. by apply index_ok_revision.
Qed.

Lemma index_ok_init : index_ok index_init.
Proof.
  repeat split; try done.
Qed.

Lemma index_ok_set_revision s r s' :
  index_ok s → comes_back (set_revision r s) s' → index_ok s'.
Proof.
  unfold set_revision. intros Hok. repeat case_decide; simpl; intros <-; try done.
Qed.

Lemma frame_ok_empty (D : gset Z) n r :
  0 ≤ n → (∀ i, i ∈ D → i < n) → frame_ok D (UndoState ∅ ∅ ∅ n r).
Proof.
  intros Hn Hlive. unfold frame_ok, well_keyed. simpl.
  split; [apply map_Forall_empty|]. split; [apply map_Forall_empty|].
  split; [done|]. split; [set_solver|]. split.
  { intros i Hi Hle. apply Hlive in Hi. lia. }
  split; intros k [? Hk]; by rewrite lookup_empty in Hk.
Qed.

Lemma undo_dom_empty (D : gset Z) n r : undo_dom D (UndoState ∅ ∅ ∅ n r) = D.
Proof. unfold undo_dom. simpl. rewrite dom_empty_L. set_solver. Qed.

Lemma index_ok_start s enabled s' :
  index_ok s →
  comes_back ((let! _ := start_undo_session 0 enabled in ret tt) s) s' →
  index_ok s'.
Proof.
  intros Hok. destruct enabled.
  - unfold bind at 1. unfold start_undo_session, bind, increment_revision.
    case_decide; [done|]. simpl. intros <-.
    destruct Hok as (Hnext & Hlive & Hframes).
    split; [done|]. split; [done|]. simpl.
    rewrite reverse_snoc. simpl. split; [lia|]. split.
    + apply frame_ok_empty; [lia|done].
    + by rewrite undo_dom_empty.
  - simpl. by intros <-.
Qed.

Lemma commit_frames_suffix r st : ∃ dropped, st = dropped ++ commit_frames r st.
Proof.
  destruct (commit_frames_spec r st) as (dropped & Heq & _). by exists dropped.
Qed.

Lemma index_ok_commit s r s' :
  index_ok s → comes_back (commit r s) s' → index_ok s'.
Proof.
  intros (Hnext & Hlive & Hframes). simpl. intros <-.
  split; [done|]. split; [done|]. simpl.
  destruct (commit_frames_suffix r (_stack s)) as (dropped & Heq).
  rewrite Heq, reverse_app in Hframes. by eapply frames_ok_app.
Qed.

Lemma index_ok_emplace s c s' :
  index_ok s →
  within_contract s (Mutation (Emplace c)) →
  comes_back (mutate (Emplace c) s) s' →
  index_ok s'.
Proof.
  intros (Hnext & Hlive & Hframes) [Hid Hroom]. simpl. unfold bind.
  destruct (emplace_inv c s) as [[Heq Hfree]|[e [Heq _]]]; rewrite Heq; simpl;
    intros <-; [|done].
  set (v := c (set_id (_next_id s) default_value)) in *.
  rewrite Hid in *. rewrite wrap64_small by lia.
  assert (_next_id s ∉ dom (_indices s)) as Hfresh.
  { intros Hin. apply Hlive in Hin. lia. }
  destruct (stack_cases (_stack s)) as [Hst|(below & head & Hst)].
  - unfold on_create. simpl. rewrite Hst. simpl.
    split; [simpl; lia|]. split; [|by simpl; rewrite Hst].
    simpl. intros i. rewrite dom_insert_L, elem_of_union, elem_of_singleton.
    intros [->|Hi]; [lia|]. apply Hlive in Hi. lia.
  - erewrite on_create_snoc by (simpl; exact Hst).
    rewrite Hst, reverse_snoc in Hframes. destruct Hframes as (Hb & Hf & Hbelow).
    split; [simpl; lia|]. split.
    { simpl. intros i. rewrite dom_insert_L, elem_of_union, elem_of_singleton.
      intros [->|Hi]; [lia|]. apply Hlive in Hi. lia. }
    simpl. rewrite reverse_snoc, dom_insert_L. simpl. rewrite Hid.
    split; [lia|]. split.
    + destruct Hf as (Hwko & Hwkr & H0 & Hnew & Hall & Hold & Hrem).
      unfold frame_ok. simpl. do 3 (split; [done|]). split; [|split; [|split]].
      * intros i [->%elem_of_singleton|Hi]%elem_of_union.
        -- split; [set_solver|lia].
        -- destruct (Hnew i Hi). split; [set_solver|done].
      * intros i [->%elem_of_singleton|Hi]%elem_of_union Hle; [set_solver|].
        apply elem_of_union_r. by apply Hall.
      * intros k Hk. destruct (Hold k Hk). split; [set_solver|done].
      * intros k Hk. destruct (Hrem k Hk) as [Hn Hlt]. split; [|done].
        rewrite not_elem_of_union, not_elem_of_singleton. split; [lia|done].
    + replace (undo_dom ({[_next_id s]} ∪ dom (_indices s))
                 (set_new_ids ({[_next_id s]} ∪ new_ids head) head))
        with (undo_dom (dom (_indices s)) head); [done|].
      unfold undo_dom. simpl. set_solver.
Qed.

Lemma index_ok_modify s obj m s' :
  index_ok s →
  within_contract s (Mutation (Modify obj m)) →
  comes_back (mutate (Modify obj m) s) s' →
  index_ok s'.
Proof.
  intros (Hnext & Hlive & Hframes) Hid. simpl in Hid. simpl.
  destruct (modify obj m s) as [[] s1|e s1| |] eqn:Hrun; simpl; try done; intros <-.
  2:{ unfold modify in Hrun. repeat case_match; done. }
  pose proof (modify_inv _ _ _ _ Hrun) as Hobj.
  rewrite (modify_Done s obj m Hobj Hid) in Hrun. injection Hrun as <-.
  assert (dom (<[id obj := m obj]> (_indices s)) = dom (_indices s)) as Hdom.
  { apply dom_insert_lookup_L. by eexists. }
  assert (id obj ∈ dom (_indices s)) as Hin by (apply elem_of_dom; by eexists).
  destruct (stack_cases (_stack s)) as [Hst|(below & head & Hst)].
  { rewrite on_modify_nil by done. split; [done|]. simpl. rewrite Hdom. by split. }
  rewrite (on_modify_snoc obj s below head Hst).
  case_decide as Hcase.
  { split; [done|]. simpl. rewrite Hdom. by split. }
  assert (id obj ∉ new_ids head) as Hn by (intros ?; apply Hcase; by left).
  assert (old_values head !! id obj = None) as Ho.
  { apply eq_None_not_Some. intros ?. apply Hcase. by right. }
  split; [done|]. simpl. rewrite Hdom. split; [done|].
  rewrite Hst, reverse_snoc in Hframes. destruct Hframes as (Hb & Hf & Hbelow).
  rewrite reverse_snoc. simpl. split; [done|]. split; [|done].
  destruct Hf as (Hwko & Hwkr & H0 & Hnew & Hall & Hold & Hrem).
  unfold frame_ok. simpl. split.
  { by apply map_Forall_insert_2. }
  do 4 (split; [done|]). split; [|done].
  intros k Hk. apply lookup_insert_is_Some in Hk as [<-|[_ Hk]]; [|by apply Hold].
  split; [done|]. destruct (decide (old_next_id head ≤ id obj)) as [Hle|]; [|lia].
  by destruct (Hn (Hall _ Hin Hle)).
Qed.

Lemma index_ok_remove s obj s' :
  index_ok s → comes_back (remove obj s) s' → index_ok s'.
Proof.
  intros (Hnext & Hlive & Hframes).
  destruct (remove obj s) as [[] s1|e s1| |] eqn:Hrun; simpl; try done; intros <-.
  2:{ unfold remove in Hrun. repeat case_match; done. }
  pose proof (remove_inv _ _ _ Hrun) as Hobj.
  rewrite (remove_Done s obj Hobj) in Hrun. injection Hrun as <-.
  assert (id obj ∈ dom (_indices s)) as Hin by (apply elem_of_dom; by eexists).
  assert (∀ i, i ∈ dom (delete (id obj) (_indices s)) → i < _next_id s) as Hlive'.
  { intros i. rewrite dom_delete_L. intros [Hi _]%elem_of_difference. by apply Hlive. }
  destruct (on_remove_fields obj s) as (_ & Hnx & _).
  destruct (stack_cases (_stack s)) as [Hst|(below & head & Hst)].
  { rewrite on_remove_nil by done. split; [done|]. simpl. split; [done|].
    by rewrite Hst. }
  rewrite Hst, reverse_snoc in Hframes. destruct Hframes as (Hb & Hf & Hbelow).
  pose proof Hf as (Hwko & Hwkr & H0 & Hnew & Hall & Hold & Hrem).
  destruct (decide (id obj ∈ new_ids head)) as [Hn|Hn].
  { rewrite (on_remove_new obj s below head Hst Hn).
    split; [done|]. split; [done|]. simpl.
    rewrite reverse_snoc, dom_delete_L. simpl. split; [done|]. split.
    - unfold frame_ok. simpl. do 3 (split; [done|]). split; [|split; [|split]].
      + intros i [Hi Hne]%elem_of_difference. destruct (Hnew i Hi). split; [set_solver|done].
      + intros i [Hi Hne]%elem_of_difference Hle. apply elem_of_difference.
        split; [by apply Hall|done].
      + intros k Hk. destruct (Hold k Hk) as [HkD Hlt]. split; [|done].
        apply elem_of_difference. split; [done|]. apply not_elem_of_singleton.
        intros ->. destruct (Hnew _ Hn). lia.
      + intros k Hk. destruct (Hrem k Hk). split; [set_solver|done].
    - replace (undo_dom (dom (_indices s) ∖ {[id obj]})
                 (set_new_ids (new_ids head ∖ {[id obj]}) head))
        with (undo_dom (dom (_indices s)) head); [done|].
      unfold undo_dom. simpl. apply set_eq. intros i.
      destruct (decide (i = id obj)) as [->|Hne]; [|set_solver].
      assert (id obj ∉ dom (removed_values head)).
      { intros Hr%elem_of_dom. by destruct (Hrem _ Hr). }
      set_solver. }
  assert (removed_values head !! id obj = None) as Hr.
  { apply eq_None_not_Some. intros Hr. by destruct (Hrem _ Hr). }
  assert (id obj < old_next_id head) as Hlt.
  { destruct (decide (old_next_id head ≤ id obj)) as [Hle|]; [|lia].
    by destruct (Hn (Hall _ Hin Hle)). }
  destruct (old_values head !! id obj) as [pre|] eqn:Ho.
  { rewrite (on_remove_old obj s below head pre Hst Hn Ho Hr).
    split; [done|]. split; [done|]. simpl.
    rewrite reverse_snoc, dom_delete_L. simpl. split; [done|]. split.
    - unfold frame_ok. simpl. split; [by apply map_Forall_delete|].
      split; [apply map_Forall_insert_2; [by apply (Hwko _ _ Ho)|done]|].
      split; [done|]. split; [|split; [|split]].
      + intros i Hi. destruct (Hnew i Hi). split; [|done].
        apply elem_of_difference. split; [done|]. apply not_elem_of_singleton.
        by intros ->.
      + intros i [Hi Hne]%elem_of_difference Hle. by apply Hall.
      + intros k Hk. apply lookup_delete_is_Some in Hk as [Hne Hk].
        destruct (Hold k Hk). split; [set_solver|done].
      + intros k Hk. apply lookup_insert_is_Some in Hk as [<-|[_ Hk]].
        * split; [set_solver|done].
        * destruct (Hrem k Hk). split; [set_solver|done].
    - replace (undo_dom (dom (_indices s) ∖ {[id obj]})
                 {| old_values := delete (id obj) (old_values head);
                    removed_values := <[id obj:=pre]> (removed_values head);
                    new_ids := new_ids head;
                    old_next_id := old_next_id head;
                    revision := revision head |})
        with (undo_dom (dom (_indices s)) head); [done|].
      unfold undo_dom. simpl. rewrite dom_insert_L. apply set_eq. intros i.
      destruct (decide (i = id obj)) as [->|Hne]; set_solver. }
  rewrite (on_remove_fresh obj s below head Hst Hn Ho Hr).
  split; [done|]. split; [done|]. simpl.
  rewrite reverse_snoc, dom_delete_L. simpl. split; [done|]. split.
  - unfold frame_ok. simpl. split; [done|].
    split; [by apply map_Forall_insert_2|].
    split; [done|]. split; [|split; [|split]].
    + intros i Hi. destruct (Hnew i Hi). split; [|done].
      apply elem_of_difference. split; [done|]. apply not_elem_of_singleton.
      by intros ->.
    + intros i [Hi Hne]%elem_of_difference Hle. by apply Hall.
    + intros k Hk. destruct (Hold k Hk). split; [|done].
      apply elem_of_difference. split; [done|]. apply not_elem_of_singleton.
      intros ->. rewrite Ho in Hk. by destruct Hk.
    + intros k Hk. apply lookup_insert_is_Some in Hk as [<-|[_ Hk]].
      * split; [set_solver|done].
      * destruct (Hrem k Hk). split; [set_solver|done].
  - replace (undo_dom (dom (_indices s) ∖ {[id obj]})
               (set_removed_values (<[id obj:=obj]> (removed_values head)) head))
      with (undo_dom (dom (_indices s)) head); [done|].
    unfold undo_dom. simpl. rewrite dom_insert_L. apply set_eq. intros i.
    destruct (decide (i = id obj)) as [->|Hne]; set_solver.
Qed.

Lemma index_ok_remove_object s i s' :
  index_ok s → comes_back (remove_object i s) s' → index_ok s'.
Proof.
  intros Hok. unfold remove_object.
  destruct (find (wrap64 i) s) as [val|].
  - by apply index_ok_remove.
  - simpl. by intros <-.
Qed.

Lemma dom_undo_live live f :
  (∀ k, is_Some (old_values f !! k) → is_Some (live !! k) ∧ k ∉ new_ids f) →
  dom (undo_live live f) = undo_dom (dom live) f.
Proof.
  intros Hold. apply set_eq. intros i. unfold undo_dom.
  rewrite elem_of_dom, lookup_undo_live, elem_of_union, elem_of_difference, !elem_of_dom.
  destruct (removed_values f !! i) as [v|] eqn:Hr.
  { split; [intros _; right|]; by eexists. }
  destruct (old_values f !! i) as [v|] eqn:Ho.
  { destruct (Hold i) as [? ?]; [by eexists|]. split; [by left|by eexists]. }
  case_decide as Hn.
  - split; [by left|]. intros [[? _]|[? ?]]; done.
  - split; [by intros [? ?]|]. intros [[_ ?]|[? ?]]; done.
Qed.

Lemma index_ok_undo s s' :
  index_ok s → comes_back (undo s) s' → index_ok s'.
Proof.
  intros (Hnext & Hlive & Hframes).
  destruct (stack_cases (_stack s)) as [Hst|(below & head & Hst)].
  { unfold undo. rewrite Hst. simpl. by intros <-. }
  rewrite Hst, reverse_snoc in Hframes. destruct Hframes as (Hb & Hf & Hbelow).
  pose proof Hf as (Hwko & Hwkr & H0 & Hnew & Hall & Hold & Hrem).
  assert (∀ k, is_Some (old_values head !! k) →
               is_Some (_indices s !! k) ∧ k ∉ new_ids head) as Hold'.
  { intros k Hk. destruct (Hold k Hk) as [HkD Hlt]. split; [by apply elem_of_dom|].
    intros Hn. destruct (Hnew k Hn). lia. }
  rewrite (undo_loops s below head); try done.
  - apply index_ok_decrement. split; [simpl; lia|]. simpl.
    rewrite dom_undo_live by done. split; [|done].
    unfold undo_dom.
    intros i [[Hi Hn]%elem_of_difference|Hi%elem_of_dom]%elem_of_union.
    + destruct (decide (old_next_id head ≤ i)) as [Hle|]; [|lia].
      by destruct (Hn (Hall _ Hi Hle)).
    + by destruct (Hrem i Hi).
  - intros i Hi. apply elem_of_dom. by destruct (Hnew i Hi).
  - intros k Hk. destruct (Hrem k Hk) as [HkD _]. split.
    + apply eq_None_not_Some. intros Ho. by destruct (Hold k Ho).
    + left. by apply not_elem_of_dom.
Qed.

Lemma index_ok_undo_rounds n : ∀ s s',
  index_ok s → comes_back (undo_rounds n s) s' → index_ok s'.
Proof.
  induction n as [|n IH]; intros s s' Hok.
  - simpl. by intros <-.
  - simpl. destruct (stuff_to_undo s); [|simpl; by intros <-].
    unfold bind. destruct (undo s) as [[] s1|e s1| |] eqn:Hundo; try done.
    + apply IH. apply (index_ok_undo s); [done|]. by rewrite Hundo.
    + simpl. intros <-. apply (index_ok_undo s); [done|]. by rewrite Hundo.
Qed.

Lemma elem_of_undo_dom D f i :
  i ∈ undo_dom D f ↔ (i ∈ D ∧ i ∉ new_ids f) ∨ is_Some (removed_values f !! i).
Proof.
  unfold undo_dom. by rewrite elem_of_union, elem_of_difference, elem_of_dom.
Qed.

Lemma old_after_first_loop_Some P T j v :
  old_after_first_loop P T j = Some v →
  old_values P !! j = Some v ∨
  (old_values P !! j = None ∧ (j ∉ new_ids P) ∧ old_values T !! j = Some v).
Proof.
  unfold old_after_first_loop. destruct (old_values P !! j); [by left|].
  case_decide; [done|]. by right.
Qed.

Lemma squashed_removed_is_Some P T P' j :
  squashed P T P' →
  is_Some (removed_values P' !! j) ↔
    is_Some (removed_values P !! j) ∨
    (is_Some (removed_values T !! j) ∧ (j ∉ new_ids P) ∧ (j ∉ new_ids T)).
Proof.
  intros (_ & _ & _ & _ & Hrem). rewrite Hrem.
  destruct (removed_values P !! j) as [w|].
  { split; [by left|by eexists]. }
  case_decide as Hc.
  - split; [by right|]. intros _.
    destruct (old_after_first_loop P T j); [by eexists|]. by destruct Hc.
  - split; [by intros [? ?]|]. intros [[? ?]|?]; done.
Qed.

(** Folding the top frame into the one below keeps the lower frame fit,
    now for the container the top frame was fit for, and undoing the merged
    frame leads to the same ids as undoing the two frames in turn. *)
Lemma squashed_frame_ok D T P P' :
  frame_ok D T →
  old_next_id P ≤ old_next_id T →
  frame_ok (undo_dom D T) P →
  squashed P T P' →
  frame_ok D P' ∧ undo_dom D P' = undo_dom (undo_dom D T) P.
Proof.
  intros (Hwko & Hwkr & H0 & Hnew & Hall & Hold & Hrem) Hle
         (Pwko & Pwkr & P0 & Pnew & Pall & Pold & Prem) Hsq.
  pose proof Hsq as (Hnext' & Hrev' & Hnew' & Hold' & Hrem').
  assert (∀ k, k ∈ new_ids T → k ∈ D ∧ old_next_id P ≤ k) as HnewT.
  { intros k Hk. destruct (Hnew k Hk). split; [done|lia]. }
  assert (∀ k, k ∈ new_ids P → removed_values T !! k = None → k ∈ D) as HnewP.
  { intros k Hk Hr. destruct (Pnew k Hk) as [HkD _].
    apply elem_of_undo_dom in HkD as [[? _]|[? ?]]; [done|congruence]. }
  assert (∀ k, k < old_next_id P → (k ∉ new_ids P) ∧ (k ∉ new_ids T)) as Hsmall.
  { intros k Hk. split; intros Hn.
    - destruct (Pnew k Hn). lia.
    - destruct (Hnew k Hn). lia. }
  split.
  - unfold frame_ok. rewrite Hnext'.
    split; [|split; [|split; [done|split; [|split; [|split]]]]].
    + intros k v. rewrite Hold'. case_decide; [done|].
      intros [Hv|(_ & _ & Hv)]%old_after_first_loop_Some; [by apply Pwko|by apply Hwko].
    + intros k v. rewrite Hrem'.
      destruct (removed_values P !! k) as [w|] eqn:Hw.
      { intros [= <-]. by apply Pwkr. }
      case_decide; [|done].
      destruct (old_after_first_loop P T k) as [x|] eqn:Hx.
      * intros [= <-].
        apply old_after_first_loop_Some in Hx as [Hv|(_ & _ & Hv)];
          [by apply Pwko|by apply Hwko].
      * apply Hwkr.
    + intros i [[Hi|Hi] Hr]%Hnew'.
      * split; [by apply HnewP|]. by destruct (Pnew i Hi).
      * by apply HnewT.
    + intros i Hi Hge. apply Hnew'. split.
      * destruct (decide (i ∈ new_ids T)) as [?|Hn]; [by right|left].
        apply Pall; [|done]. apply elem_of_undo_dom. by left.
      * apply eq_None_not_Some. intros Hr. by destruct (Hrem i Hr).
    + intros k. rewrite Hold'. case_decide as Hc; [by intros [? ?]|].
      intros [v [Hv|(Hn1 & Hn2 & Hv)]%old_after_first_loop_Some].
      * destruct (Pold k) as [HkD Hlt]; [by eexists|]. split; [|done].
        apply elem_of_undo_dom in HkD as [[? _]|Hr]; [done|].
        destruct (Hsmall k Hlt). by destruct Hc.
      * destruct (Hold k) as [HkD Hlt]; [by eexists|]. split; [done|].
        destruct (decide (old_next_id P ≤ k)) as [Hge|]; [|lia].
        destruct Hn2. apply Pall; [|done]. apply elem_of_undo_dom. left.
        split; [done|]. intros Hn. destruct (Hnew k Hn). lia.
    + intros k. rewrite Hrem'.
      destruct (removed_values P !! k) as [w|] eqn:Hw.
      * intros _. destruct (Prem k) as [HkD Hlt]; [by eexists|]. split; [|done].
        intros Hk. apply HkD. apply elem_of_undo_dom. left. split; [done|].
        by destruct (Hsmall k Hlt).
      * case_decide as Hc; [|by intros [? ?]]. intros _.
        destruct Hc as (Hr & Hn1 & Hn2). destruct (Hrem k Hr) as [HkD _].
        split; [done|].
        destruct (decide (old_next_id P ≤ k)) as [Hge|]; [|lia].
        destruct Hn1. apply Pall; [|done]. apply elem_of_undo_dom. by right.
  - apply set_eq. intros i. rewrite !elem_of_undo_dom.
    rewrite (squashed_removed_is_Some P T P' i Hsq), Hnew', eq_None_not_Some.
    destruct (decide (i ∈ D)) as [HiD|HiD].
    + assert (¬ is_Some (removed_values T !! i)) by (intros Hr; by destruct (Hrem i Hr)).
      tauto.
    + assert (i ∉ new_ids T) by (intros Hn; by destruct (Hnew i Hn)).
      tauto.
Qed.

(** Two neighbouring frames of a fit stack are ready to be squashed: the
    upper one is keyed by ids and disjoint, and no [assert] can fail. *)
Lemma frames_ok_squash_ready D b T P below :
  frames_ok D b (T :: P :: below) →
  well_keyed (old_values T) ∧
  well_keyed (removed_values T) ∧
  frame_disjoint T ∧
  (∀ k, is_Some (removed_values P !! k) →
        old_values T !! k = None ∧ removed_values T !! k = None).
Proof.
  intros (_ & HT & _ & HP & _).
  split; [by destruct HT as (? & _)|]. split; [by destruct HT as (_ & ? & _)|].
  split; [by eapply frame_ok_disjoint|].
  destruct HT as (_ & _ & _ & Hnew & _ & Hold & _).
  destruct HP as (_ & _ & _ & _ & _ & _ & Prem).
  intros k Hk. destruct (Prem k Hk) as [HkD Hlt]. split.
  - apply eq_None_not_Some. intros Ho. destruct (Hold k Ho) as [? ?].
    apply HkD. apply elem_of_undo_dom. left. split; [done|].
    intros Hn. destruct (Hnew k Hn). lia.
  - apply eq_None_not_Some. intros Hr. apply HkD. apply elem_of_undo_dom. by right.
Qed.

Lemma index_ok_squash s s' :
  index_ok s → comes_back (squash s) s' → index_ok s'.
Proof.
  intros (Hnext & Hlive & Hframes).
  destruct (stack_cases (_stack s)) as [Hst|(rest & T & Hst)].
  { unfold squash. rewrite Hst. simpl. by intros <-. }
  destruct (stack_cases rest) as [->|(below & P & ->)].
  { unfold squash. rewrite Hst. simpl. apply index_ok_decrement. by split. }
  rewrite <- app_assoc in Hst. simpl in Hst.
  rewrite Hst in Hframes.
  replace (below ++ [P; T]) with ((below ++ [P]) ++ [T]) in Hframes
    by by rewrite <- app_assoc.
  rewrite !reverse_snoc in Hframes.
  destruct (frames_ok_squash_ready _ _ _ _ _ Hframes) as (Hwko & Hwkr & _ & Hassert).
  destruct Hframes as (HbT & HT & HbP & HP & Hbelow).
  rewrite (squash_two s below P T Hst).
  destruct (squash_frames_Done T P Hwko Hwkr Hassert) as (P' & -> & Hsq).
  destruct (squashed_frame_ok _ T P P' HT HbP HP Hsq) as [HP' Hdom].
  apply index_ok_decrement. split; [done|]. split; [done|]. simpl.
  rewrite reverse_snoc. simpl. destruct Hsq as (Hnx & _).
  rewrite Hnx, Hdom. split; [lia|]. by split.
Qed.

Lemma index_ok_call s c s' :
  index_ok s → within_contract s c → comes_back (perform c s) s' → index_ok s'.
Proof.
  intros Hok Hc. destruct c as [[ctor|obj m|obj]|i|enabled| | |r| |r]; simpl.
  - by apply index_ok_emplace.
  - by apply (index_ok_modify s obj m).
  - by apply index_ok_remove.
  - by apply index_ok_remove_object.
  - by apply index_ok_start.
  - by apply index_ok_undo.
  - by apply index_ok_squash.
  - by apply index_ok_commit.
  - by apply index_ok_undo_rounds.
  - by apply index_ok_set_revision.
Qed.

Lemma reachable_index_ok s : reachable s → index_ok s.
Proof.
  induction 1 as [|s c s' _ IH Hc Hback].
  - apply index_ok_init.
  - by eapply index_ok_call.
Qed.

(** In a reachable index the premises under which [squash] was specified
    hold for the two upper frames. *)
Lemma reachable_squash_ready s below P T :
  reachable s →
  _stack s = below ++ [P; T] →
  well_keyed (old_values T) ∧
  well_keyed (removed_values T) ∧
  frame_disjoint T ∧
  (∀ k, is_Some (removed_values P !! k) →
        old_values T !! k = None ∧ removed_values T !! k = None).
Proof.
  intros (_ & _ & Hframes)%reachable_index_ok Hst.
  rewrite Hst in Hframes.
  replace (below ++ [P; T]) with ((below ++ [P]) ++ [T]) in Hframes
    by by rewrite <- app_assoc.
  rewrite !reverse_snoc in Hframes.
  by eapply frames_ok_squash_ready.
Qed.

(** C8: in every index reached from a freshly constructed one by public
    operations (each called within its contract: callbacks leave the id of
    the record alone and the id counter is not exhausted), whether they
    returned or threw, every frame of the undo stack has its [old_values],
    [removed_values] and [new_ids] pairwise disjoint on id. *)
Theorem reachable_frames_disjoint (s : index) :
  reachable s → Forall frame_disjoint (_stack s).
Proof.
  intros (_ & _ & Hframes)%reachable_index_ok.
  apply frames_ok_disjoint in Hframes.
  rewrite Forall_forall in *. intros f Hf. apply Hframes.
  by apply elem_of_reverse.
Qed.

Lemma reachable_frames_disjoint_witness :
  Forall frame_disjoint (_stack sample_reached).
Proof.
  apply reachable_frames_disjoint.
  apply (reachable_call
           (Index [UndoState ∅ ∅ {[0]} 0 1; UndoState ∅ ∅ ∅ 1 2] {[0 := rec_a]} 1 2)
           (Mutation (Remove rec_a))); [|exact I|by vm_compute].
  apply (reachable_call
           (Index [UndoState ∅ ∅ {[0]} 0 1] {[0 := rec_a]} 1 1)
           (StartUndoSession true)); [|exact I|by vm_compute].
  apply (reachable_call
           (Index [UndoState ∅ ∅ ∅ 0 1] ∅ 0 1)
           (Mutation (Emplace (set_bytes [Byte.x61])))); [|split; by vm_compute|by vm_compute].
  apply (reachable_call index_init (StartUndoSession true)); [|exact I|by vm_compute].
  apply reachable_init.
Defined.

(** ** The scenarios of the spec, run on the embedding *)

(** S1: create, then undo. *)
Example scenario_create_undo :
  run_calls [StartUndoSession true; Mutation (Emplace (set_bytes [Byte.x61])); Undo]
            index_init
  = Some index_init.
Proof. by vm_compute. Qed.

(** S2: two modifications, then undo, give back the first pre-image. *)
Example scenario_modify_undo :
  run_calls [StartUndoSession true;
             Mutation (Modify rec_a (set_bytes [Byte.x62]));
             Mutation (Modify rec_b (set_bytes [Byte.x63]));
             Undo] sample_live
  = Some sample_live.
Proof. by vm_compute. Qed.

(** S3: removing a record created in the same frame leaves the frame empty. *)
Example scenario_remove_of_new :
  run_calls [StartUndoSession true;
             Mutation (Emplace (set_bytes [Byte.x61]));
             Mutation (Remove rec_a)] index_init
  = Some (Index [UndoState ∅ ∅ ∅ 0 1] ∅ 1 1).
Proof. by vm_compute. Qed.

(** S4: modified below, removed above, squashed: removed with the first
    pre-image; undoing the merged frame brings the record back. *)
Example scenario_squash_modify_remove :
  run_calls [StartUndoSession true;
             Mutation (Modify rec_a (set_bytes [Byte.x62]));
             StartUndoSession true;
             Mutation (Remove rec_b);
             Squash] sample_live
  = Some (Index [UndoState ∅ {[0 := rec_a]} ∅ 1 1] ∅ 1 1) ∧
  run_calls [Undo] (Index [UndoState ∅ {[0 := rec_a]} ∅ 1 1] ∅ 1 1)
  = Some sample_live.
Proof. split; by vm_compute. Qed.

(** S5: commit drops the lower frame only; the upper one still undoes. *)
Example scenario_commit :
  run_calls [StartUndoSession true;
             Mutation (Emplace (set_bytes [Byte.x61]));
             StartUndoSession true;
             Mutation (Modify rec_a (set_bytes [Byte.x62]));
             Commit 1] index_init
  = Some (Index [UndoState {[0 := rec_a]} ∅ ∅ 1 2] {[0 := rec_b]} 1 2) ∧
  run_calls [Undo] (Index [UndoState {[0 := rec_a]} ∅ ∅ 1 2] {[0 := rec_b]} 1 2)
  = Some (Index [] {[0 := rec_a]} 1 1).
Proof. split; by vm_compute. Qed.

(** * More of the code *)

(** ** What a returning call did to the stack and the revision *)

Lemma on_create_fields v s :
  _indices (on_create v s) = _indices s ∧
  _next_id (on_create v s) = _next_id s ∧
  _revision (on_create v s) = _revision s.
Proof.
  unfold on_create. by destruct (unsnoc (_stack s)) as [[below head]|].
Qed.

Lemma on_create_stamps v s :
  stamps (on_create v s) = stamps s ∧ _revision (on_create v s) = _revision s.
Proof.
  unfold on_create, stamps. destruct (unsnoc (_stack s)) as [[below head]|] eqn:Hun; [|done].
  apply unsnoc_Some in Hun. rewrite Hun. simpl. by rewrite !fmap_app.
Qed.

Lemma on_modify_stamps v s :
  stamps (on_modify v s) = stamps s ∧ _revision (on_modify v s) = _revision s.
Proof.
  unfold on_modify, stamps. destruct (unsnoc (_stack s)) as [[below head]|] eqn:Hun; [|done].
  apply unsnoc_Some in Hun. case_decide; [done|].
  destruct (old_values head !! id v); [done|].
  rewrite Hun. simpl. by rewrite !fmap_app.
Qed.

Lemma on_remove_stamps v s :
  stamps (on_remove v s) = stamps s ∧ _revision (on_remove v s) = _revision s.
Proof.
  unfold on_remove, stamps. destruct (unsnoc (_stack s)) as [[below head]|] eqn:Hun; [|done].
  apply unsnoc_Some in Hun. rewrite Hun.
  case_decide; [simpl; by rewrite !fmap_app|].
  destruct (old_values head !! id v); [simpl; by rewrite !fmap_app|].
  destruct (removed_values head !! id v); [by rewrite Hun|].
  simpl. by rewrite !fmap_app.
Qed.

Lemma mutate_stamps o s s' :
  comes_back (mutate o s) s' → stamps s' = stamps s ∧ _revision s' = _revision s.
Proof.
  destruct o as [c|obj m|obj]; simpl.
  - unfold bind. destruct (emplace_inv c s) as [[-> _]|[e [-> _]]]; simpl; intros <-; [|done].
    split; [by rewrite (proj1 (on_create_stamps _ _))|by rewrite (proj2 (on_create_stamps _ _))].
  - unfold modify. destruct (on_modify_stamps obj s) as [Hst Hrev].
    repeat case_match; try done; simpl; intros <-; done.
  - unfold remove. destruct (on_remove_stamps obj s) as [Hst Hrev].
    repeat case_match; try done; simpl; intros <-; done.
Qed.

(** The loops of [undo] leave the stack and the revision alone. *)
Lemma undo_inv s s' :
  undo s = Done tt s' →
  (_stack s = [] ∧ s' = s) ∨
  (∃ below head, _stack s = below ++ [head] ∧ _stack s' = below ∧
                 _next_id s' = old_next_id head ∧
                 _revision s' = _revision s - 1 ∧ _revision s ≠ int64_min).
Proof.
  destruct (stack_cases (_stack s)) as [Hst|(below & head & Hst)].
  { unfold undo. rewrite Hst. simpl. intros [= <-]. by left. }
  intros Hundo. right. exists below, head. split; [done|].
  unfold undo in Hundo. rewrite Hst, unsnoc_snoc in Hundo.
  set (Φ := λ x : index, _revision x = _revision s).
  unfold bind at 1 in Hundo.
  destruct (for_each (members (new_ids head)) erase_new s) as [[] s1|e s1| |] eqn:H1;
    try done.
  assert (Φ s1) as Hs1.
  { eapply (for_each_preserves Φ); [|exact H1|done].
    intros i x x'. unfold erase_new. case_match; [|done]. by intros [= <-]. }
  unfold bind at 1, update at 1 in Hundo. unfold bind at 1 in Hundo.
  destruct (for_each (items (old_values head)) restore_old _) as [[] s2|e s2| |] eqn:H2;
    try done.
  assert (Φ s2) as Hs2.
  { eapply (for_each_preserves Φ); [|exact H2|done].
    intros i x x'. unfold restore_old. repeat case_match; try done. by intros [= <-]. }
  unfold bind at 1 in Hundo.
  destruct (for_each (items (removed_values head)) reinsert_removed s2)
    as [[] s3|e s3| |] eqn:H3; try done.
  assert (Φ s3 ∧ _next_id s3 = old_next_id head) as [Hs3 Hn3].
  { eapply (for_each_preserves (λ x, Φ x ∧ _next_id x = old_next_id head));
      [|exact H3|].
    - intros i x x'. unfold reinsert_removed. repeat case_match; try done.
      by intros [= <-].
    - split; [done|].
      eapply (for_each_preserves (λ x, _next_id x = old_next_id head)); [|exact H2|done].
      intros i x x'. unfold restore_old. repeat case_match; try done. by intros [= <-]. }
  unfold bind, update, decrement_revision in Hundo. simpl in Hundo.
  case_decide as Hmin; [done|]. injection Hundo as <-. simpl.
  unfold Φ in Hs3. rewrite Hs3 in *. done.
Qed.

Lemma squash_inv s s' :
  squash s = Done tt s' →
  _indices s' = _indices s ∧ _next_id s' = _next_id s ∧
  ((_stack s = [] ∧ s' = s) ∨
   (_revision s' = _revision s - 1 ∧ _revision s ≠ int64_min ∧
    ((∃ f, _stack s = [f] ∧ _stack s' = []) ∨
     (∃ below P T P', _stack s = below ++ [P; T] ∧ _stack s' = below ++ [P'] ∧
                      squash_frames T P = Done tt P' ∧
                      old_next_id P' = old_next_id P ∧ revision P' = revision P)))).
Proof.
  destruct (stack_cases (_stack s)) as [Hst|(rest & T & Hst)].
  { unfold squash. rewrite Hst. intros [= <-]. split; [done|]. split; [done|]. by left. }
  destruct (stack_cases rest) as [->|(below & P & ->)].
  { unfold squash. rewrite Hst. simpl. unfold decrement_revision. simpl.
    case_decide; [done|]. intros [= <-]. simpl. split; [done|]. split; [done|].
    right. split; [done|]. split; [done|]. left. by exists T. }
  rewrite <- app_assoc in Hst. simpl in Hst.
  rewrite (squash_two s below P T Hst).
  destruct (squash_frames T P) as [[] P'|e P1| |] eqn:Hfr; try done.
  destruct (squash_frames_stamp _ _ _ Hfr) as [Hn Hr].
  unfold decrement_revision. simpl. case_decide; [done|]. intros [= <-]. simpl.
  split; [done|]. split; [done|]. right. split; [done|]. split; [done|].
  right. by exists below, P, T, P'.
Qed.

(** ** The revisions stamped on the frames *)

Lemma length_stamps s : length (stamps s) = length (_stack s).
Proof. unfold stamps. by rewrite length_fmap. Qed.

Lemma revisions_ok_same s s' :
  stamps s' = stamps s → _revision s' = _revision s →
  revisions_ok s → revisions_ok s'.
Proof.
  intros Hst Hrev [Hb Hs]. unfold revisions_ok.
  rewrite <- (length_stamps s'), Hst, length_stamps, Hrev. by split.
Qed.

Lemma revisions_ok_push s f :
  revisions_ok s → _revision s ≠ int64_max → revision f = _revision s + 1 →
  revisions_ok (Index (_stack s ++ [f]) (_indices s) (_next_id s) (_revision s + 1)).
Proof.
  intros [Hb Hs] Hmax Hf. unfold revisions_ok, stamps in *. simpl.
  rewrite length_app, fmap_app, Hs. simpl. rewrite Nat.add_1_r.
  split; [lia|]. rewrite seqZ_S, Hf. f_equal; [f_equal; lia|f_equal; lia].
Qed.

Lemma revisions_ok_top s below head :
  revisions_ok s → _stack s = below ++ [head] →
  revision head = _revision s ∧
  revision <$> below =
    seqZ (_revision s - 1 - Z.of_nat (length below) + 1) (Z.of_nat (length below)) ∧
  Z.of_nat (length below) ≤ _revision s - 1.
Proof.
  intros [Hb Hs] Hst. unfold stamps in Hs. rewrite Hst in Hb, Hs.
  rewrite length_app, fmap_app in *. simpl in *. rewrite Nat.add_1_r in *.
  rewrite seqZ_S in Hs. apply app_inj_tail in Hs as [Hbelow Hhead].
  split; [lia|]. split; [|lia]. rewrite Hbelow. f_equal. lia.
Qed.

Lemma revisions_ok_pop s below head s' :
  revisions_ok s → _stack s = below ++ [head] →
  _stack s' = below → _revision s' = _revision s - 1 →
  revisions_ok s'.
Proof.
  intros Hok Hst Hst' Hrev'.
  destruct (revisions_ok_top s below head Hok Hst) as (_ & Hbelow & Hlen).
  destruct Hok as [Hb _]. unfold revisions_ok, stamps. rewrite Hst', Hrev'.
  split; [lia|done].
Qed.

Lemma filter_Forall_id {A} (P : A → Prop) `{!∀ x, Decision (P x)} (l : list A) :
  Forall P l → filter P l = l.
Proof.
  induction 1 as [|x l Hx _ IH]; [done|].
  rewrite filter_cons_True by done. by rewrite IH.
Qed.

(** On a stack stamped with consecutive revisions, [commit] drops the
    frames stamped at most [r] and keeps the others. *)
Lemma commit_frames_stamped r l : ∀ m,
  revision <$> l = seqZ m (Z.of_nat (length l)) →
  commit_frames r l = filter (λ f, r < revision f) l ∧
  revision <$> commit_frames r l =
    seqZ (m + Z.of_nat (length l) - Z.of_nat (length (commit_frames r l)))
         (Z.of_nat (length (commit_frames r l))).
Proof.
  induction l as [|f l IH]; intros m Hs.
  - simpl. split; [done|]. by rewrite seqZ_nil.
  - simpl in Hs. rewrite seqZ_cons in Hs by lia. injection Hs as Hf Hl.
    replace (Z.pred (Z.of_nat (S (length l)))) with (Z.of_nat (length l)) in Hl by lia.
    simpl. case_decide as Hle.
    + destruct (IH _ Hl) as [Hfilter Hstamps]. split.
      * rewrite filter_cons_False by lia. done.
      * rewrite Hstamps. f_equal. lia.
    + split.
      * rewrite filter_cons_True by lia. f_equal. symmetry.
        apply filter_Forall_id.
        apply Forall_forall. intros g Hg.
        assert (revision g ∈ seqZ (Z.succ m) (Z.of_nat (length l))) as Hin.
        { rewrite <- Hl. by apply list_elem_of_fmap_2. }
        apply elem_of_seqZ in Hin. lia.
      * simpl. rewrite seqZ_cons by lia. rewrite Hf. f_equal; [lia|].
        rewrite Hl. f_equal; lia.
Qed.

Lemma for_each_no_throw {S A} (body : A → M S unit) l :
  (∀ x s e s', body x s ≠ Thrown e s') →
  ∀ s e s', for_each l body s ≠ Thrown e s'.
Proof.
  intros Hbody. induction l as [|x l IH]; intros s e s'; [done|].
  cbn [for_each]. unfold bind. destruct (body x s) as [[] s1|e1 s1| |] eqn:Hx.
  - apply IH.
  - by destruct (Hbody x s e1 s1).
  - done.
  - done.
Qed.

(** [undo] and [squash] have no [throw]. *)
Lemma undo_no_throw s e s' : undo s ≠ Thrown e s'.
Proof.
  unfold undo. destruct (unsnoc (_stack s)) as [[below head]|]; [|done].
  unfold bind, update, decrement_revision.
  destruct (for_each (members (new_ids head)) erase_new s) as [[] s1|e1 s1| |] eqn:H1;
    try done.
  2:{ exfalso. revert H1. apply for_each_no_throw. intros x y ? ?. unfold erase_new.
      by case_match. }
  destruct (for_each (items (old_values head)) restore_old _) as [[] s2|e2 s2| |] eqn:H2;
    try done.
  2:{ exfalso. revert H2. apply for_each_no_throw. intros x y ? ?. unfold restore_old.
      by repeat case_match. }
  destruct (for_each (items (removed_values head)) reinsert_removed s2)
    as [[] s3|e3 s3| |] eqn:H3; try done.
  2:{ exfalso. revert H3. apply for_each_no_throw. intros x y ? ?. unfold reinsert_removed.
      by repeat case_match. }
  by case_decide.
Qed.

Lemma squash_frames_no_throw T P e P' : squash_frames T P ≠ Thrown e P'.
Proof.
  unfold squash_frames, bind.
  destruct (for_each (items (old_values T)) squash_old P) as [[] P1|e1 P1| |] eqn:H1;
    try done.
  2:{ exfalso. revert H1. apply for_each_no_throw. intros x y ? ?. unfold squash_old.
      by repeat case_match. }
  destruct (for_each (members (new_ids T)) squash_new P1) as [[] P2|e2 P2| |] eqn:H2;
    try done.
  2:{ exfalso. revert H2. apply for_each_no_throw. by intros x y ? ?. }
  apply for_each_no_throw. intros x y ? ?. unfold squash_removed. by repeat case_match.
Qed.

Lemma squash_no_throw s e s' : squash s ≠ Thrown e s'.
Proof.
  destruct (stack_cases (_stack s)) as [Hst|(rest & T & Hst)].
  { unfold squash. by rewrite Hst. }
  destruct (stack_cases rest) as [->|(below & P & ->)].
  { unfold squash, decrement_revision. rewrite Hst. simpl. by case_decide. }
  rewrite <- app_assoc in Hst. simpl in Hst.
  rewrite (squash_two s below P T Hst).
  destruct (squash_frames T P) as [[] P'|e1 P1| |] eqn:Hfr; try done.
  - unfold decrement_revision. by case_decide.
  - by destruct (squash_frames_no_throw T P e1 P1).
Qed.

Lemma revisions_ok_undo s s' :
  revisions_ok s → comes_back (undo s) s' → revisions_ok s'.
Proof.
  intros Hok. destruct (undo s) as [[] s1|e s1| |] eqn:Hundo; simpl; try done; intros <-.
  - destruct (undo_inv s s1 Hundo) as [[_ ->]|(below & head & Hst & Hst' & _ & Hrev & _)];
      [done|].
    by eapply revisions_ok_pop.
  - by destruct (undo_no_throw s e s1).
Qed.

Lemma revisions_ok_squash s s' :
  revisions_ok s → comes_back (squash s) s' → revisions_ok s'.
Proof.
  intros Hok. destruct (squash s) as [[] s1|e s1| |] eqn:Hsq; simpl; try done; intros <-.
  - destruct (squash_inv s s1 Hsq) as (_ & _ & [[_ ->]|(Hrev & _ & Hcase)]); [done|].
    destruct Hcase as [(f & Hst & Hst')|(below & P & T & P' & Hst & Hst' & _ & _ & HP')].
    + eapply (revisions_ok_pop s [] f); done.
    + replace (below ++ [P; T]) with ((below ++ [P]) ++ [T]) in Hst
        by by rewrite <- app_assoc.
      eapply (revisions_ok_same (Index (below ++ [P]) (_indices s) (_next_id s)
                                   (_revision s - 1))).
      * unfold stamps. rewrite Hst'. simpl. rewrite !fmap_app. simpl. by rewrite HP'.
      * done.
      * by eapply (revisions_ok_pop s (below ++ [P]) T).
  - by destruct (squash_no_throw s e s1).
Qed.

Lemma revisions_ok_undo_rounds n : ∀ s s',
  revisions_ok s → comes_back (undo_rounds n s) s' → revisions_ok s'.
Proof.
  induction n as [|n IH]; intros s s' Hok.
  - simpl. by intros <-.
  - simpl. destruct (stuff_to_undo s); [|simpl; by intros <-].
    unfold bind. destruct (undo s) as [[] s1|e s1| |] eqn:Hundo; try done.
    + apply IH. apply (revisions_ok_undo s); [done|]. by rewrite Hundo.
    + simpl. intros <-. apply (revisions_ok_undo s); [done|]. by rewrite Hundo.
Qed.

Lemma revisions_ok_call s c s' :
  revisions_ok s → call_typed c → comes_back (perform c s) s' → revisions_ok s'.
Proof.
  intros Hok Hty. destruct c as [o|i|enabled| | |r| |r]; simpl.
  - intros [Hst Hrev]%mutate_stamps. by eapply revisions_ok_same.
  - unfold remove_object. destruct (find (wrap64 i) s) as [val|]; [|simpl; by intros <-].
    intros [Hst Hrev]%(mutate_stamps (Remove val)). by eapply revisions_ok_same.
  - destruct enabled; [|simpl; by intros <-].
    unfold bind at 1. unfold start_undo_session, bind, increment_revision.
    case_decide; [done|]. simpl. intros <-. by apply revisions_ok_push.
  - by apply revisions_ok_undo.
  - by apply revisions_ok_squash.
  - simpl. intros <-. destruct Hok as [Hb Hs]. unfold stamps in Hs.
    destruct (commit_frames_stamped r (_stack s) _ Hs) as [_ Hst].
    destruct (commit_frames_suffix r (_stack s)) as (dropped & Heq).
    assert (length (commit_frames r (_stack s)) ≤ length (_stack s))%nat as Hlen.
    { rewrite Heq at 2. rewrite length_app. lia. }
    unfold revisions_ok, stamps. simpl. split; [lia|].
    rewrite Hst. f_equal. lia.
  - by apply revisions_ok_undo_rounds.
  - unfold set_revision. simpl in Hty. repeat case_decide; simpl; intros <-; try done.
    destruct (_stack s) eqn:Hst; [|done].
    unfold revisions_ok, stamps, to_int64. simpl. rewrite Hst. simpl.
    rewrite decide_True by lia. split; [lia|done].
Qed.

Lemma revisions_ok_run l : ∀ s s',
  revisions_ok s → Forall call_typed l → run_calls l s = Some s' → revisions_ok s'.
Proof.
  induction l as [|c l IH]; intros s s' Hok Hty Hrun.
  - simpl in Hrun. by injection Hrun as <-.
  - apply Forall_cons in Hty as [Hc Hty]. simpl in Hrun.
    destruct (perform c s) as [[] s1|e s1| |] eqn:Hstep; try done.
    + apply (IH s1); [|done|done]. apply (revisions_ok_call s c); [done|done|].
      by rewrite Hstep.
    + apply (IH s1); [|done|done]. apply (revisions_ok_call s c); [done|done|].
      by rewrite Hstep.
Qed.

Lemma revisions_ok_init : revisions_ok index_init.
Proof. split; [done|]. done. Qed.

(** X1: after any run of public calls on a fresh index (exceptions caught,
    the argument of [set_revision] being a [uint64_t]) the frames are
    stamped with consecutive revisions, bottom to top, the top one with the
    revision of the index; the revision is at least the number of frames
    and at most the largest signed 64-bit number. *)
Theorem run_revisions_ok (l : list call) (s : index) :
  Forall call_typed l →
  run_calls l index_init = Some s →
  revisions_ok s ∧
  ∀ below head, _stack s = below ++ [head] → revision head = index_revision s.
Proof.
  intros Hty Hrun.
  assert (revisions_ok s) as Hok.
  { eapply revisions_ok_run; [apply revisions_ok_init|done|done]. }
  split; [done|]. intros below head Hst.
  by destruct (revisions_ok_top s below head Hok Hst) as (? & _).
Qed.

Lemma run_revisions_ok_witness :
  revisions_ok sample_committed ∧
  ∀ below head, _stack sample_committed = below ++ [head] →
                revision head = index_revision sample_committed.
Proof.
  apply (run_revisions_ok sample_calls sample_committed).
  - repeat constructor.
  - by vm_compute.
Defined.

(** X2: on an index whose frames are stamped that way,
    [undo_stack_revision_range] returns (the subtraction cannot overflow)
    the pair made of the revision minus the number of frames and of the
    revision; without frames both are the revision. *)
Theorem undo_stack_revision_range_spec (s : index) :
  revisions_ok s →
  undo_stack_revision_range s =
    Done (index_revision s - Z.of_nat (length (_stack s)), index_revision s) s.
Proof.
  intros Hok. unfold undo_stack_revision_range, index_revision.
  destruct (stack_cases (_stack s)) as [Hst|(below & head & Hst)].
  { rewrite Hst. simpl. do 2 f_equal. lia. }
  destruct (revisions_ok_top s below head Hok Hst) as (Hhead & _ & _).
  destruct Hok as [Hb Hs]. unfold stamps in Hs.
  destruct (_stack s) as [|front rest] eqn:Hstack.
  { by destruct below. }
  rewrite Hst, unsnoc_snoc. rewrite <- Hst.
  simpl in Hs. rewrite seqZ_cons in Hs by (simpl; lia). injection Hs as Hfront _.
  simpl in Hb. rewrite decide_False by (unfold int64_min; lia).
  rewrite Hhead, Hfront. do 2 f_equal. simpl. lia.
Qed.

Lemma undo_stack_revision_range_spec_witness :
  undo_stack_revision_range sample_committed = Done (2 - 1, 2) sample_committed.
Proof.
  apply (undo_stack_revision_range_spec sample_committed).
  split; by vm_compute.
Defined.

(** X3: on an index whose frames are stamped with consecutive revisions,
    [commit r] keeps exactly the frames stamped above [r], in order, and
    the frames that stay are still stamped consecutively up to the
    revision of the index. *)
Theorem commit_keeps_frames_above (s : index) (r : Z) :
  revisions_ok s →
  ∃ s',
    commit r s = Done tt s' ∧
    _stack s' = filter (λ f, r < revision f) (_stack s) ∧
    revisions_ok s'.
Proof.
  intros Hok. eexists. split; [done|]. simpl. split.
  - destruct Hok as [_ Hs]. unfold stamps in Hs.
    by destruct (commit_frames_stamped r (_stack s) _ Hs) as [? _].
  - apply (revisions_ok_call s (Commit r)); done.
Qed.

Lemma commit_keeps_frames_above_witness :
  ∃ s',
    commit 1 sample_reached = Done tt s' ∧
    _stack s' = filter (λ f, 1 < revision f) (_stack sample_reached) ∧
    revisions_ok s'.
Proof.
  apply (commit_keeps_frames_above sample_reached 1).
  split; by vm_compute.
Defined.

(** ** undo and squash on a reachable index *)

Lemma sample_before_remove_reachable : reachable sample_before_remove.
Proof.
  apply (reachable_call
           (Index [UndoState ∅ ∅ {[0]} 0 1] {[0 := rec_a]} 1 1)
           (StartUndoSession true)); [|exact I|by vm_compute].
  apply (reachable_call
           (Index [UndoState ∅ ∅ ∅ 0 1] ∅ 0 1)
           (Mutation (Emplace (set_bytes [Byte.x61]))));
    [|split; by vm_compute|by vm_compute].
  apply (reachable_call index_init (StartUndoSession true)); [|exact I|by vm_compute].
  apply reachable_init.
Defined.

Lemma sample_reached_reachable : reachable sample_reached.
Proof.
  apply (reachable_call sample_before_remove (Mutation (Remove rec_a)));
    [|exact I|by vm_compute].
  exact sample_before_remove_reachable.
Defined.

Lemma index_ok_undo_Done s below head :
  index_ok s → _stack s = below ++ [head] → _revision s ≠ int64_min →
  undo s =
    Done tt (Index below (undo_live (_indices s) head) (old_next_id head) (_revision s - 1)).
Proof.
  intros (Hnext & Hlive & Hframes) Hst Hrev.
  rewrite Hst, reverse_snoc in Hframes. destruct Hframes as (Hb & Hf & Hbelow).
  destruct Hf as (Hwko & Hwkr & H0 & Hnew & Hall & Hold & Hrem).
  apply undo_Done; try done.
  - intros i Hi. apply elem_of_dom. by destruct (Hnew i Hi).
  - intros k Hk. destruct (Hold k Hk) as [HkD Hlt]. split; [by apply elem_of_dom|].
    intros Hn. destruct (Hnew k Hn). lia.
  - intros k Hk. destruct (Hrem k Hk) as [HkD _]. split.
    + apply eq_None_not_Some. intros Ho. by destruct (Hold k Ho).
    + left. by apply not_elem_of_dom.
Qed.

(** X4: on a reachable index with a frame on the stack, [undo] neither
    aborts (the uniqueness violations the code guards against cannot
    happen) nor dereferences an end iterator: as long as the revision can
    be decremented it returns, the top frame is popped, the id counter is
    back at the frame's [old_next_id], the revision is one less, and a
    lookup finds the pre-image for a record removed or modified in the
    frame, nothing for a record created in it, and what it found before
    for any other id.  The index it leaves is reachable again. *)
Theorem undo_returns (s : index) (below : list undo_state) (head : undo_state) :
  reachable s →
  _stack s = below ++ [head] →
  _revision s ≠ int64_min →
  ∃ s',
    undo s = Done tt s' ∧ reachable s' ∧
    _stack s' = below ∧
    _next_id s' = old_next_id head ∧
    index_revision s' = index_revision s - 1 ∧
    ∀ k, find k s' =
         match removed_values head !! k with
         | Some pre => Some pre
         | None =>
             match old_values head !! k with
             | Some pre => Some pre
             | None => if decide (k ∉ new_ids head) then find k s else None
             end
         end.
Proof.
  intros Hreach Hst Hrev.
  pose proof (reachable_index_ok s Hreach) as Hok.
  pose proof (index_ok_undo_Done s below head Hok Hst Hrev) as Hundo.
  eexists. split; [exact Hundo|]. split.
  { apply (reachable_call s Undo); [done|done|]. simpl. by rewrite Hundo. }
  do 3 (split; [done|]). intros k. unfold find. simpl. apply lookup_undo_live.
Qed.

Lemma undo_returns_witness :
  ∃ s',
    undo sample_reached = Done tt s' ∧ reachable s' ∧
    _stack s' = [UndoState ∅ ∅ {[0]} 0 1] ∧
    _next_id s' = 1 ∧
    find 0 s' = Some rec_a.
Proof.
  destruct (undo_returns sample_reached [UndoState ∅ ∅ {[0]} 0 1]
              (UndoState ∅ {[0 := rec_a]} ∅ 1 2))
    as (s' & Hundo & Hreach & Hst & Hnext & _ & Hfind).
  - exact sample_reached_reachable.
  - reflexivity.
  - by vm_compute.
  - exists s'. split; [exact Hundo|]. split; [exact Hreach|]. split; [exact Hst|].
    split; [exact Hnext|]. rewrite Hfind. reflexivity.
Defined.

(** X5: on a reachable index [squash] never fails an [assert]: as long as
    the revision can be decremented it returns, with one frame less when
    there was one, the revision one less, and the container and the id
    counter as they were; without a frame it does nothing. *)
Theorem squash_returns (s : index) :
  reachable s →
  _revision s ≠ int64_min →
  ∃ s',
    squash s = Done tt s' ∧ reachable s' ∧
    _indices s' = _indices s ∧
    _next_id s' = _next_id s ∧
    length (_stack s') = pred (length (_stack s)) ∧
    (_stack s = [] → s' = s) ∧
    (_stack s ≠ [] → index_revision s' = index_revision s - 1).
Proof.
  intros Hreach Hrev.
  assert (∃ s', squash s = Done tt s') as [s' Hsq].
  { destruct (stack_cases (_stack s)) as [Hst|(rest & T & Hst)].
    { unfold squash. rewrite Hst. by eexists. }
    destruct (stack_cases rest) as [->|(below & P & ->)].
    { rewrite (squash_one s T Hst Hrev). by eexists. }
    rewrite <- app_assoc in Hst. simpl in Hst.
    destruct (reachable_squash_ready s below P T Hreach Hst) as (Hwko & Hwkr & _ & Hassert).
    rewrite (squash_two s below P T Hst).
    destruct (squash_frames_Done T P Hwko Hwkr Hassert) as (P' & -> & _).
    unfold decrement_revision. simpl. rewrite decide_False by done. by eexists. }
  exists s'. split; [done|]. split.
  { apply (reachable_call s Squash); [done|done|]. simpl. by rewrite Hsq. }
  destruct (squash_inv s s' Hsq) as (Hlive & Hnext & Hcase).
  do 2 (split; [done|]).
  destruct Hcase as [[Hst ->]|(Hrev' & _ & Hcase)].
  { rewrite Hst. simpl. by repeat split. }
  destruct Hcase as [(f & Hst & Hst')|(below & P & T & P' & Hst & Hst' & _)].
  - rewrite Hst, Hst'. simpl. split; [done|]. split; [done|]. by intros _.
  - rewrite Hst, Hst'. rewrite !length_app. simpl. split; [lia|].
    split; [by destruct below|]. by intros _.
Qed.

Lemma squash_returns_witness :
  ∃ s',
    squash sample_reached = Done tt s' ∧ reachable s' ∧
    _indices s' = _indices sample_reached ∧
    length (_stack s') = 1%nat.
Proof.
  destruct (squash_returns sample_reached sample_reached_reachable)
    as (s' & Hsq & Hreach & Hlive & _ & Hlen & _).
  - by vm_compute.
  - exists s'. split; [exact Hsq|]. split; [exact Hreach|]. split; [exact Hlive|exact Hlen].
Defined.

(** Undoing the merged frame gives the container that undoing the two
    frames in turn gives. *)
Lemma undo_live_squashed live T P P' :
  frame_ok (dom live) T →
  squashed P T P' →
  undo_live live P' = undo_live (undo_live live T) P.
Proof.
  intros HT (_ & _ & Hnew' & Hold' & Hrem').
  pose proof (frame_ok_disjoint _ _ HT) as Hdis.
  destruct HT as (_ & _ & _ & Hnew & _ & Hold & Hrem).
  apply map_eq. intros k. rewrite !lookup_undo_live, Hrem', Hold'.
  destruct (removed_values P !! k) as [w|] eqn:HrP; [done|].
  unfold old_after_first_loop.
  destruct (removed_values T !! k) as [y|] eqn:HrT.
  - (* removed in the top frame *)
    assert (k ∉ new_ids T) as HnT.
    { apply (frame_disjoint_removed_new T); [done|by eexists]. }
    assert (old_values T !! k = None) as HoT.
    { apply (frame_disjoint_removed_old T); [done|by eexists]. }
    assert (live !! k = None) as Hk.
    { apply not_elem_of_dom. destruct (Hrem k) as [? _]; [by eexists|done]. }
    assert (k ∉ new_ids P') as HnP'.
    { intros [_ ?]%Hnew'. congruence. }
    assert (is_Some (Some y)) as Hy by by eexists.
    clear Hnew' Hold' Hrem' Hnew Hold Hrem Hdis.
    destruct (old_values P !! k) as [x|] eqn:HoP;
      repeat case_decide; rewrite ?HoT, ?Hk; try done; try congruence;
      exfalso; tauto.
  - (* not removed in the top frame *)
    assert (k ∈ new_ids P' ↔ k ∈ new_ids P ∨ k ∈ new_ids T) as HnP'.
    { rewrite Hnew'. tauto. }
    assert (¬ is_Some (@None value)) as Hy by (intros [? [=]]).
    clear Hnew' Hold' Hrem' Hnew Hold Hrem Hdis.
    destruct (old_values P !! k) as [x|] eqn:HoP;
      destruct (old_values T !! k) as [z|] eqn:HoT;
      repeat case_decide; try done; try congruence; exfalso; tauto.
Qed.

(** X6: on a reachable index with two frames or more, [squash] followed by
    [undo] is [undo] twice: both return, and they leave the same index
    (container, id counter, revision and remaining frames). *)
Theorem squash_then_undo (s : index) (below : list undo_state) (P T : undo_state) :
  reachable s →
  _stack s = below ++ [P; T] →
  int64_min + 1 < _revision s →
  ∃ s1 s2 s',
    squash s = Done tt s1 ∧ undo s1 = Done tt s' ∧
    undo s = Done tt s2 ∧ undo s2 = Done tt s'.
Proof.
  intros Hreach Hst Hrev.
  pose proof (reachable_index_ok s Hreach) as Hok.
  destruct (reachable_squash_ready s below P T Hreach Hst) as (Hwko & Hwkr & _ & Hassert).
  destruct (squash_frames_Done T P Hwko Hwkr Hassert) as (P' & Hfr & Hsq).
  assert (squash s = Done tt (Index (below ++ [P']) (_indices s) (_next_id s)
                                (_revision s - 1))) as Hsquash.
  { rewrite (squash_two s below P T Hst), Hfr. unfold decrement_revision. simpl.
    rewrite decide_False by lia. done. }
  assert (_stack s = (below ++ [P]) ++ [T]) as Hst2 by by rewrite <- app_assoc.
  assert (undo s = Done tt (Index (below ++ [P]) (undo_live (_indices s) T)
                              (old_next_id T) (_revision s - 1))) as Hundo.
  { apply index_ok_undo_Done; [done|done|lia]. }
  set (s1 := Index (below ++ [P']) _ _ _) in Hsquash.
  set (s2 := Index (below ++ [P]) _ _ _) in Hundo.
  assert (index_ok s1) as Hok1.
  { apply (index_ok_squash s); [done|]. by rewrite Hsquash. }
  assert (index_ok s2) as Hok2.
  { apply (index_ok_undo s); [done|]. by rewrite Hundo. }
  exists s1, s2, (Index below (undo_live (_indices s) P') (old_next_id P')
                    (_revision s - 1 - 1)).
  split; [done|]. split.
  { apply (index_ok_undo_Done s1 below P'); [done|done|simpl; lia]. }
  split; [done|].
  rewrite (index_ok_undo_Done s2 below P); [|done|done|simpl; lia]. simpl.
  destruct Hok as (_ & _ & Hframes). rewrite Hst2, reverse_snoc in Hframes.
  destruct Hframes as (_ & HT & _).
  rewrite (undo_live_squashed (_indices s) T P P' HT Hsq).
  by destruct Hsq as (-> & _).
Qed.

Lemma squash_then_undo_witness :
  ∃ s1 s2 s',
    squash sample_reached = Done tt s1 ∧ undo s1 = Done tt s' ∧
    undo sample_reached = Done tt s2 ∧ undo s2 = Done tt s'.
Proof.
  apply (squash_then_undo sample_reached []
           (UndoState ∅ ∅ {[0]} 0 1) (UndoState ∅ {[0 := rec_a]} ∅ 1 2)).
  - exact sample_reached_reachable.
  - reflexivity.
  - by vm_compute.
Defined.

(** ** undo_all *)

Lemma undo_rounds_returns n : ∀ s,
  index_ok s →
  length (_stack s) = n →
  int64_min + Z.of_nat n ≤ _revision s →
  ∃ s',
    undo_rounds n s = Done tt s' ∧ index_ok s' ∧
    _stack s' = [] ∧
    _revision s' = _revision s - Z.of_nat n ∧
    _next_id s' = from_option old_next_id (_next_id s) (head (_stack s)).
Proof.
  induction n as [|n IH]; intros s Hok Hlen Hrev.
  - exists s. simpl. apply nil_length_inv in Hlen. rewrite Hlen. simpl.
    split; [done|]. split; [done|]. split; [done|]. split; [lia|done].
  - destruct (stack_cases (_stack s)) as [Hst|(below & head & Hst)].
    { by rewrite Hst in Hlen. }
    simpl. unfold stuff_to_undo.
    rewrite bool_decide_true by (rewrite Hst; by destruct below).
    unfold bind.
    rewrite (index_ok_undo_Done s below head Hok Hst) by lia.
    set (s1 := Index below _ _ _).
    assert (index_ok s1) as Hok1.
    { apply (index_ok_undo s); [done|].
      rewrite (index_ok_undo_Done s below head Hok Hst) by lia. done. }
    destruct (IH s1 Hok1) as (s' & Hrun & Hok' & Hst' & Hrev' & Hnext').
    { rewrite Hst, length_app in Hlen. simpl in *. lia. }
    { simpl. lia. }
    exists s'. split; [done|]. split; [done|]. split; [done|]. split.
    { rewrite Hrev'. simpl. lia. }
    rewrite Hnext', Hst. simpl. by destruct below.
Qed.

(** X7: on a reachable index [undo_all] returns (as long as the revision can
    be decremented once per frame), leaves no frame, takes the number of
    frames off the revision, and puts the id counter back where it was
    when the bottom frame was opened. *)
Theorem undo_all_returns (s : index) :
  reachable s →
  int64_min + Z.of_nat (length (_stack s)) ≤ _revision s →
  ∃ s',
    undo_all s = Done tt s' ∧ reachable s' ∧
    _stack s' = [] ∧
    index_revision s' = index_revision s - Z.of_nat (length (_stack s)) ∧
    _next_id s' = from_option old_next_id (_next_id s) (head (_stack s)).
Proof.
  intros Hreach Hrev.
  destruct (undo_rounds_returns (length (_stack s)) s) as (s' & Hrun & _ & Hrest);
    [by apply reachable_index_ok|done|done|].
  exists s'. split; [done|]. split; [|done].
  apply (reachable_call s UndoAll); [done|done|]. simpl. unfold undo_all. by rewrite Hrun.
Qed.

Lemma undo_all_returns_witness :
  ∃ s',
    undo_all sample_reached = Done tt s' ∧ reachable s' ∧
    _stack s' = [] ∧
    index_revision s' = 2 - 2 ∧
    _next_id s' = 0.
Proof.
  apply (undo_all_returns sample_reached sample_reached_reachable).
  by vm_compute.
Defined.

(** ** Ids on a reachable index *)

Lemma frames_ok_ids_below frames : ∀ D b,
  (∀ i, i ∈ D → i < b) → frames_ok D b frames → Forall (ids_below b) frames.
Proof.
  induction frames as [|f frames IH]; intros D b HD Hok; [constructor|].
  destruct Hok as (Hb & Hf & Hbelow).
  pose proof Hf as (_ & _ & _ & Hnew & Hall & Hold & Hrem).
  constructor.
  - split; [|split].
    + intros i Hi. destruct (Hnew i Hi) as [HiD _]. by apply HD.
    + intros k Hk. destruct (Hold k Hk). lia.
    + intros k Hk. destruct (Hrem k Hk). lia.
  - eapply Forall_impl; [apply (IH (undo_dom D f) (old_next_id f)); [|done]|].
    + intros i [[Hi Hn]|Hi]%elem_of_undo_dom.
      * destruct (decide (old_next_id f ≤ i)) as [Hle|]; [|lia].
        by destruct (Hn (Hall _ Hi Hle)).
      * by destruct (Hrem i Hi).
    + intros g (H1 & H2 & H3). split; [|split]; intros k Hk.
      * specialize (H1 k Hk). lia.
      * specialize (H2 k Hk). lia.
      * specialize (H3 k Hk). lia.
Qed.

(** X8: on a reachable index, within its contract, [emplace] never throws:
    the id it hands out is the id counter, which is above every live id and
    above every id any frame mentions, so the insertion cannot collide.  It
    returns the new record, findable under that id, leaves every other
    lookup as it was and advances the id counter by one. *)
Theorem emplace_returns (s : index) (c : value → value) :
  reachable s →
  within_contract s (Mutation (Emplace c)) →
  ∃ v s',
    emplace c s = Done v s' ∧ reachable s' ∧
    id v = _next_id s ∧
    _next_id s' = _next_id s + 1 ∧
    (∀ k v', find k s = Some v' → k < _next_id s) ∧
    Forall (ids_below (_next_id s)) (_stack s) ∧
    find (id v) s' = Some v ∧
    ∀ k, k ≠ id v → find k s' = find k s.
Proof.
  intros Hreach Hc. pose proof Hc as [Hid Hroom].
  pose proof (reachable_index_ok s Hreach) as (Hnext & Hlive & Hframes).
  assert (∀ k v', find k s = Some v' → k < _next_id s) as Hbelow.
  { intros k v' Hk. apply Hlive. apply elem_of_dom. by eexists. }
  destruct (emplace_inv c s) as [[Heq Hfree]|[e [_ [w Hw]]]].
  2:{ rewrite Hid in Hw. apply Hbelow in Hw. lia. }
  eexists _, _. split; [exact Heq|]. split.
  { apply (reachable_call s (Mutation (Emplace c))); [done|done|].
    simpl. unfold bind. by rewrite Heq. }
  split; [done|].
  destruct (on_create_fields (c (set_id (_next_id s) default_value))
              (set_next_id (wrap64 (_next_id s + 1))
                 (set_indices (<[id (c (set_id (_next_id s) default_value)) :=
                                 c (set_id (_next_id s) default_value)]> (_indices s)) s)))
    as (Hl & Hn & _).
  split. { rewrite Hn. simpl. apply wrap64_small. lia. }
  split; [done|]. split.
  { apply Forall_forall. intros f Hf.
    pose proof (frames_ok_ids_below _ _ _ Hlive Hframes) as Hall.
    rewrite Forall_forall in Hall. apply Hall. by apply elem_of_reverse. }
  unfold find. rewrite Hl. simpl. split.
  - by rewrite lookup_insert_eq.
  - intros k Hk. by rewrite lookup_insert_ne.
Qed.

Lemma emplace_returns_witness :
  ∃ v s',
    emplace (set_bytes [Byte.x62]) sample_reached = Done v s' ∧ reachable s' ∧
    id v = 1 ∧
    _next_id s' = 1 + 1 ∧
    find (id v) s' = Some v.
Proof.
  destruct (emplace_returns sample_reached (set_bytes [Byte.x62]) sample_reached_reachable)
    as (v & s' & Hrun & Hreach & Hid & Hnext & _ & _ & Hfind & _).
  - split; by vm_compute.
  - exists v, s'. split; [exact Hrun|]. split; [exact Hreach|].
    split; [exact Hid|]. split; [exact Hnext|exact Hfind].
Defined.

(** ** The container of a reachable index is keyed by id *)

Lemma index_ok_undo_loops s below head :
  index_ok s → _stack s = below ++ [head] →
  undo s =
    decrement_revision
      (Index below (undo_live (_indices s) head) (old_next_id head) (_revision s)).
Proof.
  intros (Hnext & Hlive & Hframes) Hst.
  rewrite Hst, reverse_snoc in Hframes. destruct Hframes as (Hb & Hf & Hbelow).
  destruct Hf as (Hwko & Hwkr & H0 & Hnew & Hall & Hold & Hrem).
  apply undo_loops; try done.
  - intros i Hi. apply elem_of_dom. by destruct (Hnew i Hi).
  - intros k Hk. destruct (Hold k Hk) as [HkD Hlt]. split; [by apply elem_of_dom|].
    intros Hn. destruct (Hnew k Hn). lia.
  - intros k Hk. destruct (Hrem k Hk) as [HkD _]. split.
    + apply eq_None_not_Some. intros Ho. by destruct (Hold k Ho).
    + left. by apply not_elem_of_dom.
Qed.

Lemma well_keyed_undo_live live f :
  well_keyed live → well_keyed (old_values f) → well_keyed (removed_values f) →
  well_keyed (undo_live live f).
Proof.
  intros Hl Ho Hr k v. rewrite lookup_undo_live.
  destruct (removed_values f !! k) as [w|] eqn:Hw.
  { intros [= <-]. by apply Hr. }
  destruct (old_values f !! k) as [w|] eqn:Hw'.
  { intros [= <-]. by apply Ho. }
  case_decide; [apply Hl|done].
Qed.

Lemma well_keyed_undo s s' :
  index_ok s → well_keyed (_indices s) → comes_back (undo s) s' →
  well_keyed (_indices s').
Proof.
  intros Hok Hwk.
  destruct (stack_cases (_stack s)) as [Hst|(below & head & Hst)].
  { unfold undo. rewrite Hst. simpl. by intros <-. }
  rewrite (index_ok_undo_loops s below head Hok Hst).
  unfold decrement_revision. simpl. case_decide; [done|]. simpl. intros <-. simpl.
  destruct Hok as (_ & _ & Hframes). rewrite Hst, reverse_snoc in Hframes.
  destruct Hframes as (_ & (Hwko & Hwkr & _) & _).
  by apply well_keyed_undo_live.
Qed.

Lemma well_keyed_undo_rounds n : ∀ s s',
  index_ok s → well_keyed (_indices s) → comes_back (undo_rounds n s) s' →
  well_keyed (_indices s').
Proof.
  induction n as [|n IH]; intros s s' Hok Hwk.
  - simpl. by intros <-.
  - simpl. destruct (stuff_to_undo s); [|simpl; by intros <-].
    unfold bind. destruct (undo s) as [[] s1|e s1| |] eqn:Hundo; try done.
    + apply IH.
      * apply (index_ok_undo s); [done|]. by rewrite Hundo.
      * apply (well_keyed_undo s); [done|done|]. by rewrite Hundo.
    + by destruct (undo_no_throw s e s1).
Qed.

Lemma reachable_well_keyed s : reachable s → well_keyed (_indices s).
Proof.
  induction 1 as [|s c s' Hreach IH Hc Hback].
  - apply map_Forall_empty.
  - pose proof (reachable_index_ok s Hreach) as Hok.
    destruct c as [[ctor|obj m|obj]|i|enabled| | |r| |r]; simpl in Hback.
    + unfold bind in Hback.
      destruct (emplace_inv ctor s) as [[Heq _]|[e [Heq _]]]; rewrite Heq in Hback;
        simpl in Hback; subst s'; [|done].
      destruct (on_create_fields (ctor (set_id (_next_id s) default_value))
                  (set_next_id (wrap64 (_next_id s + 1))
                     (set_indices (<[id (ctor (set_id (_next_id s) default_value)) :=
                                     ctor (set_id (_next_id s) default_value)]>
                                     (_indices s)) s))) as (-> & _).
      simpl. by apply map_Forall_insert_2.
    + simpl in Hc.
      destruct (modify obj m s) as [[] s1|e s1| |] eqn:Hrun; simpl in Hback; try done;
        subst s1.
      2:{ unfold modify in Hrun. repeat case_match; done. }
      pose proof (modify_inv _ _ _ _ Hrun) as Hobj.
      rewrite (modify_Done s obj m Hobj Hc) in Hrun. injection Hrun as <-. simpl.
      by apply map_Forall_insert_2.
    + destruct (remove obj s) as [[] s1|e s1| |] eqn:Hrun; simpl in Hback; try done;
        subst s1.
      2:{ unfold remove in Hrun. repeat case_match; done. }
      pose proof (remove_inv _ _ _ Hrun) as Hobj.
      rewrite (remove_Done s obj Hobj) in Hrun. injection Hrun as <-. simpl.
      by apply map_Forall_delete.
    + unfold remove_object in Hback.
      destruct (find (wrap64 i) s) as [val|]; [|simpl in Hback; by subst s'].
      destruct (remove val s) as [[] s1|e s1| |] eqn:Hrun; simpl in Hback; try done;
        subst s1.
      2:{ unfold remove in Hrun. repeat case_match; done. }
      pose proof (remove_inv _ _ _ Hrun) as Hobj.
      rewrite (remove_Done s val Hobj) in Hrun. injection Hrun as <-. simpl.
      by apply map_Forall_delete.
    + destruct enabled; [|simpl in Hback; by subst s'].
      unfold bind at 1 in Hback. unfold start_undo_session, bind, increment_revision in Hback.
      case_decide; [done|]. simpl in Hback. by subst s'.
    + by apply (well_keyed_undo s).
    + destruct (squash s) as [[] s1|e s1| |] eqn:Hsq; simpl in Hback; try done; subst s1.
      * by destruct (squash_inv s s' Hsq) as (-> & _).
      * by destruct (squash_no_throw s e s').
    + by subst s'.
    + by apply (well_keyed_undo_rounds (length (_stack s)) s).
    + unfold set_revision in Hback. repeat case_decide; simpl in Hback; by subst s'.
Qed.

(** X9: on a reachable index, the record [find] returns for a key carries
    that key as its id, and the key is below the id counter. *)
Theorem find_keyed (s : index) (k : Z) (v : value) :
  reachable s → find k s = Some v → id v = k ∧ k < _next_id s.
Proof.
  intros Hreach Hk. split.
  - by apply (reachable_well_keyed s Hreach k v).
  - destruct (reachable_index_ok s Hreach) as (_ & Hlive & _).
    apply Hlive. apply elem_of_dom. by eexists.
Qed.

Lemma find_keyed_witness : id rec_a = 0 ∧ 0 < _next_id sample_before_remove.
Proof.
  apply (find_keyed sample_before_remove 0 rec_a).
  - exact sample_before_remove_reachable.
  - reflexivity.
Defined.

(** X10: [remove_object(id)] looks the id up as an unsigned number.  When no
    record has it, the call throws [out_of_range] with the decimal text of
    the signed id and leaves the index as it was.  On a reachable index,
    when a record has it, the call returns, the record can no longer be
    found, every other lookup and the id counter are as before. *)
Theorem remove_object_spec (s : index) (i : Z) :
  (find (wrap64 i) s = None →
     remove_object i s = Thrown (out_of_range (pretty i)) s) ∧
  (reachable s → is_Some (find (wrap64 i) s) →
     ∃ s',
       remove_object i s = Done tt s' ∧ reachable s' ∧
       find (wrap64 i) s' = None ∧
       (∀ k, k ≠ wrap64 i → find k s' = find k s) ∧
       _next_id s' = _next_id s).
Proof.
  split.
  { intros Hnone. unfold remove_object. by rewrite Hnone. }
  intros Hreach [val Hval].
  assert (id val = wrap64 i) as Hid by by apply (reachable_well_keyed s Hreach _ _ Hval).
  assert (_indices s !! id val = Some val) as Hobj by by rewrite Hid.
  assert (remove_object i s =
            Done tt (set_indices (delete (id val) (_indices s)) (on_remove val s))) as Hrun.
  { unfold remove_object. rewrite Hval. by apply remove_Done. }
  eexists. split; [exact Hrun|]. split.
  { apply (reachable_call s (RemoveObject i)); [done|done|]. simpl. by rewrite Hrun. }
  unfold find. simpl. rewrite Hid. split; [apply lookup_delete_eq|]. split.
  - intros k Hk. by rewrite lookup_delete_ne.
  - by destruct (on_remove_fields val s) as (_ & ? & _).
Qed.

Lemma remove_object_spec_witness :
  remove_object 7 sample_before_remove
    = Thrown (out_of_range (pretty 7)) sample_before_remove ∧
  ∃ s', remove_object 0 sample_before_remove = Done tt s' ∧ find (wrap64 0) s' = None.
Proof.
  split.
  - apply (remove_object_spec sample_before_remove 7). reflexivity.
  - destruct (remove_object_spec sample_before_remove 0) as [_ Hfound].
    destruct (Hfound sample_before_remove_reachable) as (s' & Hrun & _ & Hgone & _).
    + by eexists.
    + exists s'. split; [exact Hrun|exact Hgone].
Defined.

(** X11: on a reachable index the top frame fits the container: the ids it
    holds as new are live and lie between the frame's [old_next_id] and the
    id counter, every live id from [old_next_id] on is among them, the
    records it holds as modified are live, the ones it holds as removed are
    not, both are keyed by their own id and are older than the frame. *)
Theorem top_frame_fits (s : index) (below : list undo_state) (head : undo_state) :
  reachable s →
  _stack s = below ++ [head] →
  0 ≤ old_next_id head ≤ _next_id s ∧
  (∀ i, i ∈ new_ids head → is_Some (find i s) ∧ old_next_id head ≤ i < _next_id s) ∧
  (∀ k v, find k s = Some v → old_next_id head ≤ k → k ∈ new_ids head) ∧
  (∀ k pre, old_values head !! k = Some pre →
     id pre = k ∧ is_Some (find k s) ∧ k < old_next_id head) ∧
  (∀ k pre, removed_values head !! k = Some pre →
     id pre = k ∧ find k s = None ∧ k < old_next_id head).
Proof.
  intros Hreach Hst.
  destruct (reachable_index_ok s Hreach) as (Hnext & Hlive & Hframes).
  rewrite Hst, reverse_snoc in Hframes. destruct Hframes as (Hb & Hf & _).
  destruct Hf as (Hwko & Hwkr & H0 & Hnew & Hall & Hold & Hrem).
  unfold find. split; [lia|]. split; [|split; [|split]].
  - intros i Hi. destruct (Hnew i Hi) as [HiD Hle].
    split; [by apply elem_of_dom|]. split; [done|by apply Hlive].
  - intros k v Hk Hle. apply Hall; [|done]. apply elem_of_dom. by eexists.
  - intros k pre Hk. destruct (Hold k) as [HkD Hlt]; [by eexists|].
    split; [by apply Hwko|]. split; [by apply elem_of_dom|done].
  - intros k pre Hk. destruct (Hrem k) as [HkD Hlt]; [by eexists|].
    split; [by apply Hwkr|]. split; [by apply not_elem_of_dom|done].
Qed.

Lemma top_frame_fits_witness :
  0 ≤ 1 ≤ _next_id sample_reached ∧
  (id rec_a = 0 ∧ find 0 sample_reached = None ∧ 0 < 1).
Proof.
  destruct (top_frame_fits sample_reached [UndoState ∅ ∅ {[0]} 0 1]
              (UndoState ∅ {[0 := rec_a]} ∅ 1 2) sample_reached_reachable eq_refl)
    as (Hbound & _ & _ & _ & Hrem).
  split; [exact Hbound|]. apply (Hrem 0 rec_a). reflexivity.
Defined.

(** ** Session handles *)

(** X12: a handle is single-shot.  On a disarmed handle, [push], [squash],
    [undo] and the destructor return without touching any index; and once
    [push], [squash] or [undo] has returned, the handle is disarmed, so
    whatever is called on it next, the destructor included, leaves every
    index alone. *)
Theorem session_single_shot (w : world) (a : nat) (h : session) :
  w_sessions w !! a = Some h →
  (_apply h = false →
     ∀ o, ∃ w', session_op o a w = Done tt w' ∧ w_indices w' = w_indices w) ∧
  (∀ o1 w1, o1 ≠ HDestroy → session_op o1 a w = Done tt w1 →
     w_sessions w1 !! a = Some (Session (_index h) false (s_revision h)) ∧
     ∀ o2, ∃ w2, session_op o2 a w1 = Done tt w2 ∧ w_indices w2 = w_indices w1).
Proof.
  intros Ha.
  assert (∀ w0 h0, w_sessions w0 !! a = Some h0 → _apply h0 = false →
            ∀ o, ∃ w', session_op o a w0 = Done tt w' ∧ w_indices w' = w_indices w0)
    as Hinert.
  { intros w0 h0 Ha0 Hoff o.
    destruct o; simpl; unfold session_push, session_squash, session_undo, session_act,
      session_destroy, bind, store_session, update, ret; rewrite Ha0, ?Hoff; by eexists. }
  split; [by apply Hinert|].
  intros o1 w1 Hne Hrun.
  assert (w_sessions w1 !! a = Some (set_apply false h)) as Ha1.
  { destruct o1; [| | |done]; simpl in Hrun;
      unfold session_push, session_squash, session_undo, session_act, bind,
        store_session, update, ret, on_index in Hrun; rewrite Ha in Hrun;
      repeat case_match; simplify_eq; simpl; by rewrite lookup_insert_eq. }
  split; [done|]. by apply (Hinert w1 (set_apply false h)).
Qed.

Lemma session_single_shot_witness :
  ∃ w1 w2,
    session_op HUndo 0 sample_world = Done tt w1 ∧
    session_op HDestroy 0 w1 = Done tt w2 ∧
    w_indices w2 = w_indices w1.
Proof.
  destruct (session_single_shot sample_world 0 (Session 0 true 1) eq_refl) as [_ Hshot].
  destruct (session_op HUndo 0 sample_world) as [[] w1| | |] eqn:Hrun;
    try (exfalso; vm_compute in Hrun; discriminate Hrun).
  destruct (Hshot HUndo w1 ltac:(discriminate) Hrun) as [_ Hnext].
  destruct (Hnext HDestroy) as (w2 & Hrun2 & Hsame).
  exists w1, w2. split; [reflexivity|]. split; [exact Hrun2|exact Hsame].
Defined.

(** X13: a session that is opened, used and dropped leaves no trace.  The
    caller opens a session on the index at [i] (whose revision is a signed
    64-bit number, neither the largest one nor -2, so that the handle is
    armed), runs any mutations on it in which no call aborts or is
    undefined and every modifier keeps the id of its record, and lets the
    handle go out of scope: the destructor runs [undo], and every index of
    the store is as it was before the session. *)
Theorem session_scope_restores (w : world) (a i : nat) (s : index) :
  w_indices w !! i = Some s →
  is_int64 (_revision s) →
  _revision s ≠ int64_max →
  _revision s ≠ -2 →
  ∃ w1 s1,
    open_session a i true w = Done tt w1 ∧
    w_indices w1 !! i = Some s1 ∧
    ∀ ops s2,
      Forall keeps_id ops →
      run_mutations ops s1 = Some s2 →
      ∃ w3,
        session_destroy a (World (<[i := s2]> (w_indices w1)) (w_sessions w1))
          = Done tt w3 ∧
        w_indices w3 = w_indices w ∧
        w_sessions w3 = delete a (w_sessions w).
Proof.
  intros Hi [Hmin _] Hmax Harm.
  unfold open_session, bind, on_index. rewrite Hi.
  rewrite (start_undo_session_Done i s Hmax). unfold store_session, update.
  eexists _, _. split; [done|]. simpl. split; [by rewrite lookup_insert_eq|].
  intros ops s2 Hops Hrun.
  assert (undo s2 = Done tt s) as Hundo.
  { apply tracks_undo; [done|]. eapply tracks_run; [apply tracks_start|done|done]. }
  unfold session_destroy, bind, on_index, update. simpl.
  rewrite lookup_insert_eq. unfold new_session. simpl.
  rewrite decide_False by lia. simpl. rewrite lookup_insert_eq, Hundo.
  eexists. split; [done|]. simpl. split.
  - rewrite !insert_insert_eq. by apply insert_id.
  - by rewrite delete_insert_eq.
Qed.

Lemma session_scope_restores_witness :
  ∃ w1 s1 s2 w3,
    open_session 5 0 true (World {[0%nat := sample_live]} ∅) = Done tt w1 ∧
    w_indices w1 !! 0%nat = Some s1 ∧
    run_mutations sample_mutations s1 = Some s2 ∧
    session_destroy 5 (World (<[0%nat := s2]> (w_indices w1)) (w_sessions w1))
      = Done tt w3 ∧
    w_indices w3 = {[0%nat := sample_live]}.
Proof.
  destruct (session_scope_restores (World {[0%nat := sample_live]} ∅) 5 0 sample_live)
    as (w1 & s1 & Hopen & Hs1 & Hscope).
  - reflexivity.
  - split; by vm_compute.
  - by vm_compute.
  - by vm_compute.
  - destruct (run_mutations sample_mutations s1) as [s2|] eqn:Hrun.
    + destruct (Hscope sample_mutations s2) as (w3 & Hdrop & Hsame & _);
        [repeat constructor|exact Hrun|].
      exists w1, s1, s2, w3. split; [exact Hopen|]. split; [exact Hs1|].
      split; [exact Hrun|]. split; [exact Hdrop|exact Hsame].
    + exfalso. vm_compute in Hopen. injection Hopen as <-.
      vm_compute in Hs1. injection Hs1 as <-.
      vm_compute in Hrun. discriminate Hrun.
Defined.

(** X14: move-constructing a handle from the handle at [mv] leaves every
    index alone, gives the new handle the index and the armed flag of the
    source, and disarms the source, so that dropping the moved-from handle
    afterwards touches no index.  The new handle does not take over the
    revision of the source: it reports revision 0. *)
Theorem session_move_construct_spec (w : world) (this mv : nat) (source : session) :
  this ≠ mv →
  w_sessions w !! mv = Some source →
  ∃ w',
    session_move_construct this mv w = Done tt w' ∧
    w_indices w' = w_indices w ∧
    w_sessions w' !! this = Some (Session (_index source) (_apply source) 0) ∧
    w_sessions w' !! mv = Some (Session (_index source) false (s_revision source)) ∧
    ∃ w'',
      session_destroy mv w' = Done tt w'' ∧
      w_indices w'' = w_indices w ∧
      w_sessions w'' !! this = Some (Session (_index source) (_apply source) 0) ∧
      w_sessions w'' !! mv = None.
Proof.
  intros Hne Hmv. unfold session_move_construct, bind, store_session, update.
  rewrite Hmv. eexists. split; [done|]. simpl. split; [done|].
  split. { rewrite lookup_insert_ne by done. by rewrite lookup_insert_eq. }
  split. { by rewrite lookup_insert_eq. }
  unfold session_destroy, bind, update, ret. simpl. rewrite lookup_insert_eq. simpl.
  eexists. split; [done|]. simpl. split; [done|]. split.
  - rewrite lookup_delete_ne by done. rewrite lookup_insert_ne by done.
    by rewrite lookup_insert_eq.
  - by rewrite lookup_delete_eq.
Qed.

Lemma session_move_construct_spec_witness :
  ∃ w',
    session_move_construct 2 0 sample_world = Done tt w' ∧
    w_indices w' = w_indices sample_world ∧
    w_sessions w' !! 2%nat = Some (Session 0 true 0) ∧
    w_sessions w' !! 0%nat = Some (Session 0 false 1).
Proof.
  destruct (session_move_construct_spec sample_world 2 0 (Session 0 true 1))
    as (w' & Hrun & Hidx & Hnew & Hold & _).
  - discriminate.
  - reflexivity.
  - exists w'. split; [exact Hrun|]. split; [exact Hidx|]. split; [exact Hnew|exact Hold].
Defined.

(** ** The database: sessions *)

Lemma open_sub_sessions_explicit index_list : ∀ w,
  NoDup index_list →
  (∀ i, i ∈ index_list →
        ∃ s, w_indices w !! i = Some s ∧ _revision s ≠ int64_max) →
  ∃ w',
    rocksdb_database.open_sub_sessions index_list true w
      = Done (sub_session_of w <$> index_list) w' ∧
    w_sessions w' = w_sessions w ∧
    ∀ i, w_indices w' !! i =
         if decide (i ∈ index_list) then opened <$> (w_indices w !! i)
         else w_indices w !! i.
Proof.
  induction index_list as [|item rest IH]; intros w Hnd Hall.
  - exists w. split; [done|]. split; [done|]. intros i.
    rewrite decide_False; [done|]. apply not_elem_of_nil.
  - apply NoDup_cons in Hnd as [Hitem Hnd].
    destruct (Hall item) as (s & Hs & Hrev); [by left|].
    cbn [rocksdb_database.open_sub_sessions]. unfold bind at 1. unfold on_index at 1.
    rewrite Hs, (start_undo_session_Done item s Hrev).
    set (w1 := World _ _).
    destruct (IH w1 Hnd) as (w' & Hrun & Hsess & Hidx).
    { intros i Hi. destruct (Hall i) as (si & Hsi & Hri); [by right|].
      exists si. split; [|done]. simpl. rewrite lookup_insert_ne; [done|].
      by intros ->. }
    unfold bind at 1. rewrite Hrun. unfold ret.
    exists w'. split; [|split; [done|]].
    + f_equal. simpl. f_equal.
      * unfold sub_session_of. by rewrite Hs.
      * apply list_fmap_ext. intros n i Hi. unfold sub_session_of. simpl.
        rewrite lookup_insert_ne; [done|].
        intros ->. apply Hitem. by eapply list_elem_of_lookup_2.
    + intros i. rewrite Hidx. subst w1. cbn [w_indices].
      destruct (decide (i = item)) as [->|Hne].
      * rewrite decide_False by done. rewrite lookup_insert_eq.
        rewrite decide_True by by left. by rewrite Hs.
      * rewrite lookup_insert_ne by done.
        apply decide_ext. rewrite elem_of_cons. naive_solver.
Qed.

Lemma sub_sessions_undo subs (target : nat → index) : ∀ w,
  NoDup (_index <$> subs) →
  Forall (λ sub, _apply sub = true) subs →
  (∀ sub, sub ∈ subs →
     ∃ s2, w_indices w !! _index sub = Some s2 ∧
           undo s2 = Done tt (target (_index sub))) →
  ∃ w',
    for_each subs (sub_session_act undo) w = Done tt w' ∧
    w_sessions w' = w_sessions w ∧
    ∀ i, w_indices w' !! i =
         if decide (i ∈ _index <$> subs) then Some (target i) else w_indices w !! i.
Proof.
  induction subs as [|sub subs IH]; intros w Hnd Harmed Hall.
  - exists w. split; [done|]. split; [done|]. intros i.
    rewrite decide_False; [done|]. apply not_elem_of_nil.
  - simpl in Hnd. apply NoDup_cons in Hnd as [Hsub Hnd].
    apply Forall_cons in Harmed as [Hon Harmed].
    destruct (Hall sub) as (s2 & Hs2 & Hundo); [by left|].
    cbn [for_each]. unfold bind at 1. unfold sub_session_act at 1.
    rewrite Hon. unfold on_index. rewrite Hs2, Hundo.
    set (w1 := World _ _).
    destruct (IH w1 Hnd Harmed) as (w' & Hrun & Hsess & Hidx).
    { intros sub' Hin. destruct (Hall sub') as (s' & Hs' & Hundo'); [by right|].
      exists s'. split; [|done]. simpl. rewrite lookup_insert_ne; [done|].
      intros Heq. apply Hsub. rewrite Heq. by apply list_elem_of_fmap_2. }
    exists w'. split; [done|]. split; [done|]. intros i. rewrite Hidx.
    subst w1. cbn [w_indices fmap list_fmap].
    destruct (decide (i = _index sub)) as [->|Hne].
    + rewrite decide_False by done. rewrite lookup_insert_eq.
      by rewrite decide_True by by left.
    + rewrite lookup_insert_ne by done.
      apply decide_ext. rewrite elem_of_cons. naive_solver.
Qed.

(** X15: a composite session that is undone leaves no trace on any index.
    The registered indices being distinct objects whose revisions are
    signed 64-bit numbers other than the largest one and -2,
    [start_undo_session(true)] of the database returns; if the caller then
    runs, on each registered index, any mutations in which no call aborts
    or is undefined and every modifier keeps the id of its record, [undo]
    of the composite session (which is also what its destructor runs)
    returns, empties the composite session and puts every index of the
    store back as it was before the session. *)
Theorem db_session_undo_restores (index_list : list nat) (w : world) :
  NoDup index_list →
  (∀ i, i ∈ index_list →
        ∃ s, w_indices w !! i = Some s ∧ is_int64 (_revision s) ∧
             _revision s ≠ int64_max ∧ _revision s ≠ -2) →
  ∃ h w1,
    rocksdb_database.start_undo_session index_list true w = Done h w1 ∧
    ∀ w2,
      (∀ i, i ∉ index_list → w_indices w2 !! i = w_indices w1 !! i) →
      (∀ i s1, i ∈ index_list → w_indices w1 !! i = Some s1 →
         ∃ ops s2, Forall keeps_id ops ∧ run_mutations ops s1 = Some s2 ∧
                   w_indices w2 !! i = Some s2) →
      ∃ w3,
        db_session.undo h w2
          = Done (rocksdb_database.Session [] (rocksdb_database._revision h)) w3 ∧
        w_indices w3 = w_indices w ∧
        w_sessions w3 = w_sessions w2.
Proof.
  intros Hnd Hall.
  destruct (open_sub_sessions_explicit index_list w Hnd) as (w1 & Hopen & Hsess & Hidx).
  { intros i Hi. destruct (Hall i Hi) as (s & Hs & _ & Hmax & _). by exists s. }
  unfold rocksdb_database.start_undo_session, bind. rewrite Hopen. unfold ret.
  eexists _, w1. split; [done|]. intros w2 Hother Hmut.
  destruct (sub_sessions_undo (sub_session_of w <$> index_list)
              (λ i, default index_init (w_indices w !! i)) w2)
    as (w3 & Hrun & Hsess3 & Hidx3).
  { rewrite <- list_fmap_compose. by rewrite list_fmap_id. }
  { apply Forall_fmap, Forall_forall. intros i Hi. simpl.
    destruct (Hall i Hi) as (s & Hs & _ & _ & Harm).
    unfold sub_session_of, new_session. rewrite Hs. simpl.
    rewrite decide_False by lia. done. }
  { intros sub (i & -> & Hi)%list_elem_of_fmap.
    destruct (Hall i Hi) as (s & Hs & [Hmin _] & _ & _).
    assert (w_indices w1 !! i = Some (opened s)) as Hs1.
    { rewrite Hidx, decide_True by done. by rewrite Hs. }
    destruct (Hmut i _ Hi Hs1) as (ops & s2 & Hops & Hrun & Hs2).
    exists s2. simpl. split; [done|]. rewrite Hs. simpl.
    apply tracks_undo; [done|]. eapply tracks_run; [apply tracks_start|done|done]. }
  exists w3. unfold db_session.undo, bind. simpl. rewrite Hrun. unfold ret.
  split; [done|]. split; [|done].
  apply map_eq. intros i. rewrite Hidx3.
  rewrite <- list_fmap_compose, list_fmap_id.
  case_decide as Hi.
  - destruct (Hall i Hi) as (s & Hs & _). by rewrite Hs.
  - rewrite (Hother i Hi), Hidx. by rewrite decide_False.
Qed.

Lemma db_session_undo_restores_witness :
  ∃ h w1 w3,
    rocksdb_database.start_undo_session [0%nat] true sample_world = Done h w1 ∧
    db_session.undo h w1
      = Done (rocksdb_database.Session [] (rocksdb_database._revision h)) w3 ∧
    w_indices w3 = w_indices sample_world.
Proof.
  destruct (db_session_undo_restores [0%nat] sample_world) as (h & w1 & Hstart & Hundo).
  - apply NoDup_singleton.
  - intros i ->%list_elem_of_singleton. eexists. split; [reflexivity|].
    split; [split; by vm_compute|]. split; by vm_compute.
  - destruct (Hundo w1) as (w3 & Hrun & Hsame & _).
    + done.
    + intros i s1 _ Hs1. exists [], s1. split; [constructor|]. split; [reflexivity|done].
    + exists h, w1, w3. split; [exact Hstart|]. split; [exact Hrun|exact Hsame].
Defined.



(** ** The database: revisions *)

Lemma db_set_revision_prefix (r : Z) done_ : ∀ w,
  0 ≤ r ≤ int64_max →
  NoDup done_ →
  (∀ i, i ∈ done_ → ∃ s, w_indices w !! i = Some s ∧ _stack s = []) →
  ∃ w',
    (∀ rest, db.set_revision (done_ ++ rest) r w = db.set_revision rest r w') ∧
    w_sessions w' = w_sessions w ∧
    ∀ i, w_indices w' !! i =
         if decide (i ∈ done_)
         then (λ s, Index [] (_indices s) (_next_id s) r) <$> (w_indices w !! i)
         else w_indices w !! i.
Proof.
  induction done_ as [|item done_ IH]; intros w Hr Hnd Hall.
  - exists w. split; [done|]. split; [done|]. intros i.
    rewrite decide_False; [done|]. apply not_elem_of_nil.
  - apply NoDup_cons in Hnd as [Hitem Hnd].
    destruct (Hall item) as (s & Hs & Hst); [by left|].
    set (s1 := Index [] (_indices s) (_next_id s) r).
    set (w1 := World (<[item := s1]> (w_indices w)) (w_sessions w)).
    assert (on_index item (set_revision r) w = Done tt w1) as Hstep.
    { unfold on_index. rewrite Hs. unfold set_revision. rewrite Hst.
      rewrite decide_False by (simpl; lia). rewrite decide_False by lia.
      unfold to_int64, set_revision_field. rewrite decide_True by lia.
      by rewrite Hst. }
    destruct (IH w1 Hr Hnd) as (w' & Hrun & Hsess & Hidx).
    { intros i Hi. destruct (Hall i) as (si & Hsi & Hsti); [by right|].
      exists si. split; [|done]. subst w1. cbn [w_indices].
      rewrite lookup_insert_ne; [done|]. by intros ->. }
    exists w'. split; [|split; [done|]].
    + intros rest. rewrite <- Hrun.
      unfold db.set_revision, db.fan_out. cbn [app for_each].
      unfold bind at 1. by rewrite Hstep.
    + intros i. rewrite Hidx. subst w1. cbn [w_indices].
      destruct (decide (i = item)) as [->|Hne].
      * rewrite decide_False by done. rewrite lookup_insert_eq.
        rewrite decide_True by by left. by rewrite Hs.
      * rewrite lookup_insert_ne by done.
        apply decide_ext. rewrite elem_of_cons. naive_solver.
Qed.

(** X17: [set_revision] of the database hands the call to the registered
    indices one after the other and is not atomic.  The indices being
    distinct objects and [r] a revision up to the largest signed 64-bit
    number: when no registered index has a frame, the call returns, every
    registered index has revision [r] and is otherwise as it was, and
    [revision()] of the database reads [r]; when a registered index has a
    frame, the call leaves through the exception of that index, and the
    indices registered before the first such one have revision [r]
    already while that one and the ones after it are as they were. *)
Theorem db_set_revision_spec (index_list : list nat) (r : Z) (w : world) :
  NoDup index_list →
  0 ≤ r ≤ int64_max →
  ((∀ i, i ∈ index_list → ∃ s, w_indices w !! i = Some s ∧ _stack s = []) →
   ∃ w',
     db.set_revision index_list r w = Done tt w' ∧
     w_sessions w' = w_sessions w ∧
     (∀ i, w_indices w' !! i =
           if decide (i ∈ index_list)
           then (λ s, Index [] (_indices s) (_next_id s) r) <$> (w_indices w !! i)
           else w_indices w !! i) ∧
     (index_list ≠ [] → db.revision index_list w' = Done r w')) ∧
  (∀ before item after s,
     index_list = before ++ item :: after →
     (∀ i, i ∈ before → ∃ s, w_indices w !! i = Some s ∧ _stack s = []) →
     w_indices w !! item = Some s → _stack s ≠ [] →
     ∃ w',
       db.set_revision index_list r w = Thrown StackNotEmpty w' ∧
       w_sessions w' = w_sessions w ∧
       ∀ i, w_indices w' !! i =
            if decide (i ∈ before)
            then (λ s, Index [] (_indices s) (_next_id s) r) <$> (w_indices w !! i)
            else w_indices w !! i).
Proof.
  intros Hnd Hr. split.
  - intros Hall.
    destruct (db_set_revision_prefix r index_list w Hr Hnd Hall)
      as (w' & Hrun & Hsess & Hidx).
    exists w'. split; [|split; [done|split; [done|]]].
    + specialize (Hrun []). by rewrite app_nil_r in Hrun.
    + intros Hne. destruct index_list as [|first rest]; [done|].
      unfold db.revision. rewrite Hidx, decide_True by by left.
      destruct (Hall first) as (s & -> & _); [by left|]. done.
  - intros before item after s -> Hall Hs Hst.
    apply NoDup_app in Hnd as (Hndb & Hsep & _).
    destruct (db_set_revision_prefix r before w Hr Hndb Hall)
      as (w' & Hrun & Hsess & Hidx).
    assert (w_indices w' !! item = Some s) as Hs'.
    { rewrite Hidx, decide_False; [done|]. intros Hin. apply (Hsep item Hin). by left. }
    exists w'. rewrite Hrun. split; [|done].
    unfold db.set_revision, db.fan_out. cbn [for_each]. unfold bind at 1.
    unfold on_index. rewrite Hs'. unfold set_revision.
    rewrite decide_True by (by destruct (_stack s)).
    unfold StackNotEmpty. f_equal. destruct w' as [idx sess]. cbn [w_indices w_sessions] in *.
    f_equal. by apply insert_id.
Qed.

Lemma db_set_revision_spec_witness :
  (∃ w',
     db.set_revision [0%nat] 7 (World {[0%nat := sample_live]} ∅) = Done tt w' ∧
     w_indices w' !! 0%nat = Some (Index [] {[0 := rec_a]} 1 7) ∧
     db.revision [0%nat] w' = Done 7 w') ∧
  (∃ w',
     db.set_revision [1%nat; 0%nat]  7
       (World {[0%nat := sample_one_frame; 1%nat := sample_live]} ∅)
       = Thrown StackNotEmpty w' ∧
     w_indices w' !! 1%nat = Some (Index [] {[0 := rec_a]} 1 7) ∧
     w_indices w' !! 0%nat = Some sample_one_frame).
Proof.
  split.
  - destruct (db_set_revision_spec [0%nat] 7 (World {[0%nat := sample_live]} ∅))
      as [Hall _]; [apply NoDup_singleton|by vm_compute|].
    destruct Hall as (w' & Hrun & _ & Hidx & Hrev).
    { intros i ->%list_elem_of_singleton. by eexists. }
    exists w'. split; [exact Hrun|]. split; [|by apply Hrev].
    rewrite Hidx. reflexivity.
  - destruct (db_set_revision_spec [1%nat; 0%nat] 7
                (World {[0%nat := sample_one_frame; 1%nat := sample_live]} ∅))
      as [_ Hpart]; [apply (bool_decide_unpack _); by vm_compute|by vm_compute|].
    destruct (Hpart [1%nat] 0%nat [] sample_one_frame eq_refl)
      as (w' & Hrun & _ & Hidx).
    { intros i ->%list_elem_of_singleton. by eexists. }
    { reflexivity. }
    { discriminate. }
    exists w'. split; [exact Hrun|]. split; rewrite Hidx; reflexivity.
Defined.
